(** * Printer manager of the CUPS / Google Cloud Print connector

    A shallow embedding of [manager/printermanager.go] and the
    properties of its specification.  The sequential code (job statistics,
    printer reconciliation, the per-job pipeline) is embedded as functions
    over an explicit manager state; every call into CUPS, into GCP or into a
    semaphore is recorded in an event trace, and the answers of the two
    external services are supplied by a "world" record per invocation.  The
    goroutines and their unbuffered channels (Quit, the reconciler loop, the
    job intake loop) are embedded as a labelled transition system. *)

From Stdlib Require Import ZArith Lia Ascii.
From stdpp Require Import base option strings list gmap fin_maps relations pretty.

(** ** Go base types *)

(** Go's [uint] on a 64-bit platform: arithmetic wraps around at [2^64]. *)
Definition uint_bits : Z := 64.
Definition uint_max : Z := 2 ^ uint_bits - 1.
Definition uint_wrap (z : Z) : Z := z mod 2 ^ uint_bits.

(** A Go [error], represented by the text that [%s] prints for it. *)
Definition error : Type := string.

(** A Go result pair [(v, err)]: either the error or the value. *)
Definition result (A : Type) : Type := error + A.

(** [strings.Split(s, sep)] for a non-empty separator [sep]: the pieces of
    [s] between the non-overlapping occurrences of [sep], scanned from the
    left.  [skip] counts the bytes of a matched separator still to be dropped
    and [cur] holds the piece being read, reversed. *)
Fixpoint split_from (sep : string) (skip : nat) (cur : string) (s : string)
  : list string :=
  match s with
  | EmptyString => [String.rev cur]
  | String c s' =>
      match skip with
      | S k => split_from sep k cur s'
      | O =>
          if String.prefix sep s
          then String.rev cur :: split_from sep (String.length sep - 1) EmptyString s'
          else split_from sep 0 (String c cur) s'
      end
  end.

Definition strings_Split (s sep : string) : list string :=
  split_from sep 0 EmptyString s.

(** ** Package lib: the types the manager uses *)

(** Modelled from the spec: [lib.Semaphore] is not part of the sources at
    hand.  It is the "bounded counting semaphore" of the specification, with
    its capacity ([Size]) and its "current holders count" ([Count]). *)
Record Semaphore := mkSemaphore { Size : Z; Count : Z }.

Definition NewSemaphore (size : Z) : Semaphore :=
  {| Size := size; Count := 0 |}.

(** Modelled from the spec: [lib.Printer], with the fields that the manager
    reads ([Name], [GCPID], [CUPSJobSemaphore]) and the capabilities hash and
    description of the specification's data model.  [CUPSJobSemaphore] is a
    pointer in the code: [None] is the nil pointer of the zero printer. *)
Record Printer := mkPrinter {
  GCPID : string;
  Name : string;
  Description : string;
  CapsHash : string;
  CUPSJobSemaphore : option Semaphore
}.

(** The zero value [lib.Printer{}]. *)
Definition emptyPrinter : Printer :=
  {| GCPID := ""; Name := ""; Description := ""; CapsHash := "";
     CUPSJobSemaphore := None |}.

Inductive Operation := RegisterPrinter | UpdatePrinter | DeletePrinter | LeavePrinter.

Record PrinterDiff := mkPrinterDiff {
  diffOperation : Operation;
  diffPrinter : Printer;
  CapsHashChanged : bool
}.

Record Job := mkJob {
  GCPJobID : string;
  GCPPrinterID : string;
  TicketURL : string;
  FileURL : string;
  OwnerID : string
}.

(** The job options that [Ticket] returns and [Print] consumes. *)
Definition Options : Type := list (string * string).

(** The job-status constants of package lib and the projection
    [GCPStatus()] of a CUPS job status; they are declared outside the sources
    at hand, so the development is parametric in them. *)
Class Lib := {
  CUPSJobStatus : Type;
  GCPStatus : CUPSJobStatus → string;
  JobInProgress : string;
  JobDone : string;
  JobError : string
}.

(** ** The manager state *)

(** The fields of [PrinterManager] that the sequential code reads and
    writes.  The two client handles, the two stop channels and the poll
    interval appear in the worlds and in the transition system below. *)
Record PrinterManager := mkPrinterManager {
  gcpPrintersByGCPID : gmap string Printer;
  downloadSemaphore : Semaphore;
  jobStatsSemaphore : Semaphore;
  jobsDone : Z;
  jobsError : Z;
  cupsQueueSize : Z;
  jobFullUsername : bool
}.

Definition set_registry (pm : PrinterManager) (m : gmap string Printer) : PrinterManager :=
  {| gcpPrintersByGCPID := m;
     downloadSemaphore := downloadSemaphore pm;
     jobStatsSemaphore := jobStatsSemaphore pm;
     jobsDone := jobsDone pm;
     jobsError := jobsError pm;
     cupsQueueSize := cupsQueueSize pm;
     jobFullUsername := jobFullUsername pm |}.

Definition printerMapToSlice (m : gmap string Printer) : list Printer :=
  (map_to_list m).*2.

(** ** Stats aggregator *)

(** [incrementJobsProcessed]: under the stats mutex, one of the two counters
    goes up by one ([uint] addition). *)
Definition incrementJobsProcessed (pm : PrinterManager) (success : bool) : PrinterManager :=
  {| gcpPrintersByGCPID := gcpPrintersByGCPID pm;
     downloadSemaphore := downloadSemaphore pm;
     jobStatsSemaphore := jobStatsSemaphore pm;
     jobsDone := if success then uint_wrap (jobsDone pm + 1) else jobsDone pm;
     jobsError := if success then jobsError pm else uint_wrap (jobsError pm + 1);
     cupsQueueSize := cupsQueueSize pm;
     jobFullUsername := jobFullUsername pm |}.

(** One iteration of the loop of [GetJobStats]: [None] is the panic of
    [Count()] on a nil semaphore. *)
Definition addCount (processing : option Z) (printer : Printer) : option Z :=
  acc ← processing;
  sem ← CUPSJobSemaphore printer;
  Some (uint_wrap (acc + Count sem)).

(** [GetJobStats] returns [(processed, processing, nil)]; the error is always
    nil and is left out.  [processed] is declared and never assigned. *)
Definition GetJobStats (pm : PrinterManager) : option (Z * Z) :=
  let processed := 0%Z in
  processing ← foldl addCount (Some 0%Z) (printerMapToSlice (gcpPrintersByGCPID pm));
  Some (processed, processing).

(** ** The job pipeline *)

(** The semaphores a pipeline can touch. *)
Inductive SemRef :=
| DownloadSemaphore
| JobStatsSemaphore
| PrinterSemaphore (gcpID : string).

(** The calls a pipeline makes, in program order. *)
Inductive Event :=
| Control (jobID status message : string)
| Ticket (url : string)
| CreateTempFile
| Acquire (sem : SemRef)
| Release (sem : SemRef)
| Download (file url : string)
| CloseFile (file : string)
| Remove (file : string)
| Print (printerName file title owner : string) (options : Options)
| GetJobStatus (cupsJobID : Z)
| IncrementJobsProcessed (success : bool).

(** The outcome of a pipeline: its calls so far, the manager state it leaves
    and whether [processJob] has returned ([false]: it waits for the next
    tick of the poll timer). *)
Record Run := mkRun {
  trace : list Event;
  final : PrinterManager;
  returned : bool
}.

(** [pm.incrementJobsProcessed(success)] followed by [return], which runs the
    deferred calls. *)
Definition increment_return (pm : PrinterManager) (success : bool)
    (deferred : list Event) : Run :=
  {| trace := [Acquire JobStatsSemaphore; IncrementJobsProcessed success;
               Release JobStatsSemaphore] ++ deferred;
     final := incrementJobsProcessed pm success;
     returned := true |}.

Definition before (evs : list Event) (r : Run) : Run :=
  {| trace := evs ++ trace r; final := final r; returned := returned r |}.

Section Pipeline.
Context `{Lib}.

(** The common error exit: report [JobError] with [msg], count the job as
    failed and return. *)
Definition fail (pm : PrinterManager) (job : Job) (msg : string)
    (deferred : list Event) : Run :=
  before [Control (GCPJobID job) JobError msg] (increment_return pm false deferred).

(** The answers of CUPS and GCP to one pipeline. *)
Record JobWorld := mkJobWorld {
  w_Ticket : result Options;
  w_CreateTempFile : result string;
  w_Download : option error;
  w_Print : result Z;
  w_GetJobStatus : list (result (CUPSJobStatus * string))
}.

(** The loop over [time.Tick]: one element of [ticks] is the answer of
    [GetJobStatus] at one tick. *)
Fixpoint pollLoop (pm : PrinterManager) (job : Job) (cupsJobID : Z)
    (deferred : list Event) (status message : string)
    (ticks : list (result (CUPSJobStatus * string))) : Run :=
  match ticks with
  | [] => {| trace := []; final := pm; returned := false |}
  | inl err :: _ =>
      let msg := "Failed to get status of CUPS job " +:+ pretty cupsJobID
                 +:+ ": " +:+ err in
      before [GetJobStatus cupsJobID] (fail pm job msg deferred)
  | inr (latestStatus, latestMessage) :: ticks' =>
      let changed :=
        negb (String.eqb (GCPStatus latestStatus) status)
        || negb (String.eqb latestMessage message) in
      let status' := if changed then GCPStatus latestStatus else status in
      let message' := if changed then latestMessage else message in
      let report :=
        if changed then [Control (GCPJobID job) status' message'] else [] in
      before (GetJobStatus cupsJobID :: report)
        (if negb (String.eqb (GCPStatus latestStatus) JobInProgress)
         then if String.eqb (GCPStatus latestStatus) JobDone
              then increment_return pm true deferred
              else increment_return pm false deferred
         else pollLoop pm job cupsJobID deferred status' message' ticks')
  end.

Definition processJob (pm : PrinterManager) (w : JobWorld) (job : Job) : Run :=
  match gcpPrintersByGCPID pm !! GCPPrinterID job with
  | None =>
      fail pm job ("Failed to find GCP printer " +:+ GCPPrinterID job
                   +:+ " for job " +:+ GCPJobID job) []
  | Some printer =>
  before [Ticket (TicketURL job)]
  match w_Ticket w with
  | inl err =>
      fail pm job ("Failed to get a ticket for job " +:+ GCPJobID job
                   +:+ ": " +:+ err) []
  | inr options =>
  before [CreateTempFile]
  match w_CreateTempFile w with
  | inl err =>
      fail pm job ("Failed to create a temporary file for job "
                   +:+ GCPJobID job +:+ ": " +:+ err) []
  | inr pdfFile =>
  before [Acquire DownloadSemaphore; Download pdfFile (FileURL job);
          Release DownloadSemaphore]
  match w_Download w with
  | Some err =>
      fail pm job ("Failed to download PDF for job " +:+ GCPJobID job
                   +:+ ": " +:+ err) []
  | None =>
  before [CloseFile pdfFile]
  (let deferred := [Remove pdfFile] in
   let ownerID :=
     if negb (jobFullUsername pm)
     then default "" (head (strings_Split (OwnerID job) "@"))
     else OwnerID job in
   before [Print (Name printer) pdfFile ("gcp:" +:+ GCPJobID job) ownerID options]
   match w_Print w with
   | inl err =>
       fail pm job ("Failed to send job " +:+ GCPJobID job +:+ " to CUPS: "
                    +:+ err) deferred
   | inr cupsJobID =>
       pollLoop pm job cupsJobID deferred "" "" (w_GetJobStatus w)
   end)
  end end end end.

End Pipeline.

(** ** The printer reconciler *)

(** The calls [applyDiff] makes. *)
Inductive DiffCall :=
| CallGetPPD (name : string)
| CallRegister (name ppd : string)
| CallShare (gcpID : string)
| CallUpdate (diff : PrinterDiff) (ppd : string)
| CallDelete (gcpID : string).

(** The answers of CUPS and GCP to one [applyDiff].  [Register] fills in the
    GCP id of the printer it is handed: its answer is that id. *)
Record DiffWorld := mkDiffWorld {
  w_GetPPD : result string;
  w_Register : result string;
  w_CanShare : bool;
  w_Share : option error;
  w_Update : option error;
  w_Delete : option error
}.

Definition with_GCPID (p : Printer) (gcpID : string) : Printer :=
  {| GCPID := gcpID; Name := Name p; Description := Description p;
     CapsHash := CapsHash p; CUPSJobSemaphore := CUPSJobSemaphore p |}.

Definition with_CUPSJobSemaphore (p : Printer) (sem : Semaphore) : Printer :=
  {| GCPID := GCPID p; Name := Name p; Description := Description p;
     CapsHash := CapsHash p; CUPSJobSemaphore := Some sem |}.

(** [applyDiff]: the calls made and the printer sent on the channel. *)
Definition applyDiff (pm : PrinterManager) (w : DiffWorld) (diff : PrinterDiff)
  : list DiffCall * Printer :=
  let printer := diffPrinter diff in
  match diffOperation diff with
  | RegisterPrinter =>
      match w_GetPPD w with
      | inl _ => ([CallGetPPD (Name printer)], emptyPrinter)
      | inr ppd =>
          match w_Register w with
          | inl _ =>
              ([CallGetPPD (Name printer); CallRegister (Name printer) ppd],
               emptyPrinter)
          | inr gcpID =>
              let registered := with_GCPID printer gcpID in
              ([CallGetPPD (Name printer); CallRegister (Name printer) ppd]
               ++ (if w_CanShare w then [CallShare gcpID] else []),
               with_CUPSJobSemaphore registered (NewSemaphore (cupsQueueSize pm)))
          end
      end
  | UpdatePrinter =>
      if CapsHashChanged diff then
        match w_GetPPD w with
        | inl _ => ([CallGetPPD (Name printer)], printer)
        | inr ppd => ([CallGetPPD (Name printer); CallUpdate diff ppd], printer)
        end
      else ([CallUpdate diff ""], printer)
  | DeletePrinter =>
      match w_Delete w with
      | Some _ => ([CallDelete (GCPID printer)], emptyPrinter)
      | None => ([CallDelete (GCPID printer)], emptyPrinter)
      end
  | LeavePrinter => ([], printer)
  end.

(** The body of the collecting loop of [syncPrinters]. *)
Definition collect (currentPrinters : gmap string Printer) (p : Printer)
  : gmap string Printer :=
  if String.eqb (Name p) "" then currentPrinters
  else <[GCPID p := p]> currentPrinters.

(** The world of one reconciliation pass: the printers of CUPS, the function
    [lib.DiffPrinters] (nil is [None]), the answers to the [applyDiff] of the
    i-th diff, and the order in which the results of the goroutines arrive on
    the channel, as indices into the diffs. *)
Record SyncWorld := mkSyncWorld {
  w_GetPrinters : result (list Printer);
  w_DiffPrinters : list Printer → list Printer → option (list PrinterDiff);
  w_applyDiff : nat → DiffWorld;
  w_arrival : list nat
}.

(** What the goroutine of each diff sends. *)
Definition emitted (pm : PrinterManager) (w : SyncWorld) (diffs : list PrinterDiff)
  : list Printer :=
  imap (λ i diff, (applyDiff pm (w_applyDiff w i) diff).2) diffs.

(** What the collecting loop receives, in order. *)
Definition received (pm : PrinterManager) (w : SyncWorld) (diffs : list PrinterDiff)
  : list Printer :=
  omap (λ i, emitted pm w diffs !! i) (w_arrival w).

Definition syncPrinters (pm : PrinterManager) (w : SyncWorld) : PrinterManager :=
  match w_GetPrinters w with
  | inl _ => pm
  | inr cupsPrinters =>
      match w_DiffPrinters w cupsPrinters (printerMapToSlice (gcpPrintersByGCPID pm)) with
      | None => pm
      | Some diffs =>
          let currentPrinters := foldl collect ∅ (received pm w diffs) in
          set_registry pm currentPrinters
      end
  end.

(** The specification's reading of an empty emission: a Register whose [GetPPD] or
    whose [Register] fails, and every Delete. *)
Definition emits_empty (w : DiffWorld) (diff : PrinterDiff) : bool :=
  match diffOperation diff with
  | RegisterPrinter =>
      match w_GetPPD w, w_Register w with
      | inl _, _ | _, inl _ => true
      | inr _, inr _ => false
      end
  | DeletePrinter => true
  | UpdatePrinter | LeavePrinter => false
  end.

(** The non-empty results of a pass, by the test of the collecting loop. *)
Definition kept (ps : list Printer) : list Printer :=
  filter (λ p, Name p ≠ "") ps.

(** ** Pipelines running concurrently

    Each goroutine running [processJob] performs the calls of its trace in
    program order; the goroutines interleave, and an [Acquire] of a full
    semaphore blocks. *)

#[export] Instance SemRef_eq_dec : EqDecision SemRef.
Proof. solve_decision. Defined.

Record Worker := mkWorker {
  workerJob : Job;
  executed : list Event;
  pending : list Event
}.

Record Pool := mkPool {
  holders : SemRef → Z;
  workers : list Worker
}.

Definition semaphoreOf (pm : PrinterManager) (s : SemRef) : option Semaphore :=
  match s with
  | DownloadSemaphore => Some (downloadSemaphore pm)
  | JobStatsSemaphore => Some (jobStatsSemaphore pm)
  | PrinterSemaphore gcpID => gcpPrintersByGCPID pm !! gcpID ≫= CUPSJobSemaphore
  end.

Definition semSize (pm : PrinterManager) (s : SemRef) : Z :=
  from_option Size 0%Z (semaphoreOf pm s).

Definition semCount (pm : PrinterManager) (s : SemRef) : Z :=
  from_option Count 0%Z (semaphoreOf pm s).

Definition bump (f : SemRef → Z) (s : SemRef) (d : Z) : SemRef → Z :=
  λ s', if decide (s' = s) then (f s' + d)%Z else f s'.

(** The worker [i] performs its next call; [None] when it has none left or
    when the call blocks. *)
Definition advance (pm : PrinterManager) (i : nat) (pool : Pool) : option Pool :=
  w ← workers pool !! i;
  match pending w with
  | [] => None
  | e :: rest =>
      let w' := {| workerJob := workerJob w; executed := executed w ++ [e];
                   pending := rest |} in
      let ws := <[i := w']> (workers pool) in
      match e with
      | Acquire s =>
          if bool_decide (holders pool s < semSize pm s)%Z
          then Some {| holders := bump (holders pool) s 1; workers := ws |}
          else None
      | Release s => Some {| holders := bump (holders pool) s (-1); workers := ws |}
      | _ => Some {| holders := holders pool; workers := ws |}
      end
  end.

Fixpoint schedule (pm : PrinterManager) (order : list nat) (pool : Pool) : option Pool :=
  match order with
  | [] => Some pool
  | i :: order' => advance pm i pool ≫= schedule pm order'
  end.

Section Concurrent.
Context `{Lib}.

(** One goroutine per job, as [listenGCPJobs] starts them. *)
Definition spawnPipelines (pm : PrinterManager) (jobs : list (JobWorld * Job)) : Pool :=
  {| holders := semCount pm;
     workers := (λ wj, {| workerJob := wj.2; executed := [];
                          pending := trace (processJob pm wj.1 wj.2) |}) <$> jobs |}.

Definition is_Ticket (e : Event) : bool :=
  match e with Ticket _ => true | _ => false end.

(** A report of a status other than [JobInProgress]. *)
Definition is_terminal_report (e : Event) : bool :=
  match e with
  | Control _ status _ => negb (String.eqb status JobInProgress)
  | _ => false
  end.

(** Past the ticket fetch and before the terminal report. *)
Definition in_flight (w : Worker) : bool :=
  existsb is_Ticket (executed w) && negb (existsb is_terminal_report (executed w)).

Definition inFlightOn (gcpID : string) (pool : Pool) : nat :=
  length (filter (λ w, GCPPrinterID (workerJob w) = gcpID ∧ in_flight w = true)
                 (workers pool)).
End Concurrent.

(** ** The goroutines of the manager and their channels

    The goroutines that [NewPrinterManager] starts, those that call [Quit]
    and the pipelines that the intake loop spawns, as threads that either
    take a step of their own or meet on an unbuffered channel: one thread
    sends, another receives, both move on. *)

Inductive Chan := printerPollQuit | gcpJobPollQuit | jobChan.

#[export] Instance Chan_eq_dec : EqDecision Chan.
Proof. solve_decision. Defined.

(** What travels on a channel: [true] on the stop channels, and on the job
    channel the address [&job] of the loop variable; [sent] records which
    element of the batch the producer is handing over at that moment. *)
Inductive Value :=
| VTrue
| VJobPtr (addr : nat) (sent : Job).

(** [Quit]: at the send, at the receive, returned. *)
Inductive QuitPC := QuitSend | QuitRecv | QuitReturned.

(** [syncPrintersPeriodically]: at the select, inside [syncPrinters], at the
    echo, returned. *)
Inductive ReconcilerPC := RecSelect | RecSync | RecAck | RecReturned.

(** The producer goroutine of [listenGCPJobs]: calling [NextJobBatch], at the
    head of the range loop over the rest of the batch, at [ch <- &job]. *)
Inductive ProducerPC :=
| ProdCall
| ProdRange (addr : nat) (rest : list Job)
| ProdSend (addr : nat) (cur : Job) (rest : list Job).

(** The consumer loop of [listenGCPJobs]: at the select, at the echo,
    returned. *)
Inductive ConsumerPC := ConsSelect | ConsAck | ConsReturned.

(** A goroutine running [processJob(job)]: the pointer it was given, the
    batch element it was spawned for, and the values it has read through the
    pointer so far, in the order in which [processJob] first reads the
    fields. *)
Record PipelinePC := mkPipelinePC {
  jobPtr : nat;
  spawnedFor : Job;
  fieldsRead : list string
}.

Definition jobFields (j : Job) : list string :=
  [GCPJobID j; GCPPrinterID j; TicketURL j; FileURL j; OwnerID j].

Inductive Thread :=
| TQuit (pc : QuitPC)
| TReconciler (pc : ReconcilerPC)
| TProducer (pc : ProducerPC)
| TConsumer (pc : ConsumerPC)
| TPipeline (pc : PipelinePC).

(** What a thread is ready to do on a channel: send a value and continue, or
    receive a value, continue and start new goroutines. *)
Inductive Offer :=
| OSend (c : Chan) (v : Value) (next : Thread)
| ORecv (c : Chan) (k : Value → Thread * list Thread).

Definition spawnPipeline (v : Value) : Thread * list Thread :=
  (TConsumer ConsSelect,
   match v with
   | VJobPtr addr sent =>
       [TPipeline {| jobPtr := addr; spawnedFor := sent; fieldsRead := [] |}]
   | VTrue => []
   end).

Definition offers (t : Thread) : list Offer :=
  match t with
  | TQuit QuitSend => [OSend printerPollQuit VTrue (TQuit QuitRecv)]
  | TQuit QuitRecv => [ORecv printerPollQuit (λ _, (TQuit QuitReturned, []))]
  | TReconciler RecSelect => [ORecv printerPollQuit (λ _, (TReconciler RecAck, []))]
  | TReconciler RecAck => [OSend printerPollQuit VTrue (TReconciler RecReturned)]
  | TProducer (ProdSend addr cur rest) =>
      [OSend jobChan (VJobPtr addr cur) (TProducer (ProdRange addr rest))]
  | TConsumer ConsSelect =>
      [ORecv jobChan spawnPipeline;
       ORecv gcpJobPollQuit (λ _, (TConsumer ConsAck, []))]
  | TConsumer ConsAck => [OSend gcpJobPollQuit VTrue (TConsumer ConsReturned)]
  | _ => []
  end.

(** The memory the threads share: the loop variables [job] of the producer,
    the number of reconciliation passes the loop has begun, and the batches
    that [NextJobBatch] is still to return. *)
Record Shared := mkShared {
  heap : list Job;
  passes : nat;
  batches : list (list Job)
}.

Definition zeroJob : Job :=
  {| GCPJobID := ""; GCPPrinterID := ""; TicketURL := ""; FileURL := ""; OwnerID := "" |}.

(** The variable [job] of [for _, job := range jobs].  The language has
    known two meanings for it: up to Go 1.21 the range statement declares one
    variable, which every iteration assigns; since Go 1.22 every iteration
    declares a variable of its own.  The sources name no language version
    (there is no [go.mod]), so the goroutines are modelled for both. *)
Inductive LoopVar := PerLoop | PerIteration.

Class Go := loopVar : LoopVar.

(** The steps a thread takes on its own.  With one variable per loop the
    producer allocates [job] when it enters the range statement and assigns
    it at every iteration; with one variable per iteration it allocates a
    new [job], holding the element, at every iteration, and the address a
    [ProdRange] carries is not used. *)
Definition local {go : Go} (sh : Shared) (t : Thread) : list (Shared * Thread) :=
  match t with
  | TReconciler RecSelect =>
      [({| heap := heap sh; passes := S (passes sh); batches := batches sh |},
        TReconciler RecSync)]
  | TReconciler RecSync => [(sh, TReconciler RecSelect)]
  | TProducer ProdCall =>
      match batches sh with
      | [] => []
      | jobs :: later =>
          [({| heap := match loopVar with
                       | PerLoop => heap sh ++ [zeroJob]
                       | PerIteration => heap sh
                       end;
               passes := passes sh; batches := later |},
            TProducer (ProdRange (length (heap sh)) jobs))]
      end
  | TProducer (ProdRange addr []) => [(sh, TProducer ProdCall)]
  | TProducer (ProdRange addr (j :: rest)) =>
      match loopVar with
      | PerLoop =>
          [({| heap := <[addr := j]> (heap sh); passes := passes sh;
               batches := batches sh |},
            TProducer (ProdSend addr j rest))]
      | PerIteration =>
          [({| heap := heap sh ++ [j]; passes := passes sh;
               batches := batches sh |},
            TProducer (ProdSend (length (heap sh)) j rest))]
      end
  | TPipeline pc =>
      match heap sh !! jobPtr pc ≫= λ j, jobFields j !! length (fieldsRead pc) with
      | Some v =>
          [(sh, TPipeline {| jobPtr := jobPtr pc; spawnedFor := spawnedFor pc;
                             fieldsRead := fieldsRead pc ++ [v] |})]
      | None => []
      end
  | _ => []
  end.

Record System := mkSystem {
  shared : Shared;
  threads : list Thread
}.

Inductive step {go : Go} (s : System) : System → Prop :=
| step_local i t sh' t' :
    threads s !! i = Some t →
    (sh', t') ∈ local (shared s) t →
    step s {| shared := sh'; threads := <[i := t']> (threads s) |}
| step_sync i j c v t1 t1' t2 k :
    i ≠ j →
    threads s !! i = Some t1 → OSend c v t1' ∈ offers t1 →
    threads s !! j = Some t2 → ORecv c k ∈ offers t2 →
    step s {| shared := shared s;
              threads := <[j := (k v).1]> (<[i := t1']> (threads s)) ++ (k v).2 |}.

(** The system once [NewPrinterManager] has returned: the reconciler loop at
    its select, the producer and the consumer of the intake loop started, and
    [callers] goroutines about to run [Quit]. *)
Definition started (callers : nat) (jobBatches : list (list Job)) : System :=
  {| shared := {| heap := []; passes := 0; batches := jobBatches |};
     threads := [TReconciler RecSelect; TProducer ProdCall; TConsumer ConsSelect]
                ++ replicate callers (TQuit QuitSend) |}.

(** An action of the scheduler, to run the transition system. *)
Inductive Action :=
| ALocal (i : nat)
| ASync (sender receiver : nat).

Definition perform {go : Go} (a : Action) (s : System) : option System :=
  match a with
  | ALocal i =>
      t ← threads s !! i;
      '(sh', t') ← head (local (shared s) t);
      Some {| shared := sh'; threads := <[i := t']> (threads s) |}
  | ASync i j =>
      if decide (i = j) then None else
      t1 ← threads s !! i;
      t2 ← threads s !! j;
      match offers t1 with
      | [OSend c v t1'] =>
          head (omap (λ o,
            match o with
            | ORecv c' k =>
                if decide (c' = c)
                then Some {| shared := shared s;
                             threads := <[j := (k v).1]> (<[i := t1']> (threads s))
                                        ++ (k v).2 |}
                else None
            | OSend _ _ _ => None
            end) (offers t2))
      | _ => None
      end
  end.

Fixpoint performAll {go : Go} (acts : list Action) (s : System) : option System :=
  match acts with
  | [] => Some s
  | a :: acts' => perform a s ≫= performAll acts'
  end.

(** The goroutine a thread is, whatever its program counter. *)
Inductive Kind := KQuit | KReconciler | KProducer | KConsumer | KPipeline.

Definition kind (t : Thread) : Kind :=
  match t with
  | TQuit _ => KQuit
  | TReconciler _ => KReconciler
  | TProducer _ => KProducer
  | TConsumer _ => KConsumer
  | TPipeline _ => KPipeline
  end.

(** The channel of an offer. *)
Definition offerChan (o : Offer) : Chan :=
  match o with OSend c _ _ | ORecv c _ => c end.

(** How a thread of the next state came about. *)
Inductive Origin {go : Go} (s : System) (n : nat) (t' : Thread) : Prop :=
| origin_same : threads s !! n = Some t' → Origin s n t'
| origin_local t sh' :
    threads s !! n = Some t → (sh', t') ∈ local (shared s) t → Origin s n t'
| origin_send t c v :
    threads s !! n = Some t → OSend c v t' ∈ offers t → Origin s n t'
| origin_recv t c k i t1 v t1' :
    threads s !! n = Some t → ORecv c k ∈ offers t →
    threads s !! i = Some t1 → OSend c v t1' ∈ offers t1 →
    t' = (k v).1 → Origin s n t'
| origin_spawn j t c k v :
    threads s !! j = Some t → ORecv c k ∈ offers t → t' ∈ (k v).2 →
    Origin s n t'.

(** Every consumer thread is at its select. *)
Definition consumers_select (s : System) : Prop :=
  ∀ n t, threads s !! n = Some t → kind t = KConsumer → t = TConsumer ConsSelect.

(** The stop handshake between [Quit] and the reconciler loop: where the
    loop is for each position of [Quit]. *)
Definition handshake (q : QuitPC) (r : ReconcilerPC) : Prop :=
  match q with
  | QuitSend => r = RecSelect ∨ r = RecSync
  | QuitRecv => r = RecAck
  | QuitReturned => r = RecReturned
  end.

(** The threads of a manager on which [Quit] is called once: the reconciler
    loop, the producer, the consumer, the caller of [Quit], and pipelines. *)
Definition lifecycle_kinds (ks : list Kind) : Prop :=
  ∃ n, ks = [KReconciler; KProducer; KConsumer; KQuit] ++ replicate n KPipeline.

Definition quit_handshake (s : System) : Prop :=
  lifecycle_kinds (kind <$> threads s) ∧
  ∃ q r, threads s !! 3 = Some (TQuit q) ∧ threads s !! 0 = Some (TReconciler r) ∧
         handshake q r.

(** ** An instance of package lib for the scenarios

    The job states of IPP, which CUPS reports, with the three GCP statuses
    as the strings of the GCP protocol. *)
Inductive IPPJobState :=
| JobPending | JobHeld | JobProcessing | JobStopped | JobCanceled | JobAborted
| JobCompleted.

#[export] Instance ippLib : Lib := {|
  CUPSJobStatus := IPPJobState;
  GCPStatus := λ s,
    match s with
    | JobPending | JobHeld | JobProcessing => "IN_PROGRESS"
    | JobCompleted => "DONE"
    | JobStopped | JobCanceled | JobAborted => "ERROR"
    end;
  JobInProgress := "IN_PROGRESS";
  JobDone := "DONE";
  JobError := "ERROR"
|}.

Definition printerHP : Printer :=
  {| GCPID := "r7"; Name := "HP"; Description := "HP LaserJet"; CapsHash := "h1";
     CUPSJobSemaphore := Some (NewSemaphore 1) |}.

(** A manager with the printer [r7] registered, both counters at zero, and
    user names truncated. *)
Definition pmHP : PrinterManager :=
  {| gcpPrintersByGCPID := {[ "r7" := printerHP ]};
     downloadSemaphore := NewSemaphore 2;
     jobStatsSemaphore := NewSemaphore 1;
     jobsDone := 0; jobsError := 0;
     cupsQueueSize := 1;
     jobFullUsername := false |}.

Definition jobJ1 : Job :=
  {| GCPJobID := "j1"; GCPPrinterID := "r7"; TicketURL := "t1"; FileURL := "f1";
     OwnerID := "alice@corp" |}.

Definition worldS6 : JobWorld :=
  {| w_Ticket := inr [("copies", "1")];
     w_CreateTempFile := inr "/tmp/cups-1";
     w_Download := None;
     w_Print := inr 42%Z;
     w_GetJobStatus :=
       [inr (JobPending, "q"); inr (JobPending, "q");
        inr (JobProcessing, "printing"); inr (JobCompleted, "")] |}.

(** A pipeline whose download fails. *)
Definition worldDownloadFails : JobWorld :=
  {| w_Ticket := inr [("copies", "1")];
     w_CreateTempFile := inr "/tmp/cups-1";
     w_Download := Some "connection reset";
     w_Print := inr 42%Z;
     w_GetJobStatus := [] |}.

(** A pipeline whose job is still printing. *)
Definition worldPrinting : JobWorld :=
  {| w_Ticket := inr [];
     w_CreateTempFile := inr "/tmp/cups-2";
     w_Download := None;
     w_Print := inr 43%Z;
     w_GetJobStatus := [inr (JobProcessing, "printing")] |}.

Definition jobJ2 : Job :=
  {| GCPJobID := "j2"; GCPPrinterID := "r7"; TicketURL := "t2"; FileURL := "f2";
     OwnerID := "bob" |}.

(** The manager of [pmHP] with the done counter at the largest [uint]. *)
Definition pmFull : PrinterManager :=
  {| gcpPrintersByGCPID := {[ "r7" := printerHP ]};
     downloadSemaphore := NewSemaphore 2;
     jobStatsSemaphore := NewSemaphore 1;
     jobsDone := uint_max; jobsError := 0;
     cupsQueueSize := 1;
     jobFullUsername := false |}.

(** A pass over two CUPS printers, one known and one new, while GCP still
    lists a printer that CUPS has lost: leave, register, delete. *)
Definition printerCanon : Printer :=
  {| GCPID := ""; Name := "Canon"; Description := "Canon inkjet"; CapsHash := "h2";
     CUPSJobSemaphore := None |}.

Definition printerGone : Printer :=
  {| GCPID := "r3"; Name := "Epson"; Description := "Epson"; CapsHash := "h3";
     CUPSJobSemaphore := Some (NewSemaphore 1) |}.

Definition worldPass : SyncWorld :=
  {| w_GetPrinters := inr [printerHP; printerCanon];
     w_DiffPrinters := λ _ _,
       Some [ {| diffOperation := LeavePrinter; diffPrinter := printerHP;
                 CapsHashChanged := false |};
              {| diffOperation := RegisterPrinter; diffPrinter := printerCanon;
                 CapsHashChanged := false |};
              {| diffOperation := DeletePrinter; diffPrinter := printerGone;
                 CapsHashChanged := false |} ];
     w_applyDiff := λ _,
       {| w_GetPPD := inr "*PPD-Adobe"; w_Register := inr "r9";
          w_CanShare := true; w_Share := None; w_Update := None;
          w_Delete := None |};
     w_arrival := [2; 0; 1] |}.

(** ** The properties, in the words of the specification *)

(** The sum of the holders of the per-printer semaphores of a slice. *)
Definition sumCounts (ps : list Printer) : Z :=
  foldr (λ p acc, (from_option Count 0 (CUPSJobSemaphore p) + acc)%Z) 0%Z ps.

(** The arguments of the calls of [incrementJobsProcessed] in a trace. *)
Definition increments (tr : list Event) : list bool :=
  omap (λ e, match e with IncrementJobsProcessed b => Some b | _ => None end) tr.

(** The reports a trace sends to GCP: status and message of each [Control]. *)
Definition reports (tr : list Event) : list (string * string) :=
  omap (λ e, match e with Control _ st msg => Some (st, msg) | _ => None end) tr.

(** The pair reported last in a trace; [initial] when there is none. *)
Definition lastReported (initial : string * string) (tr : list Event) : string * string :=
  default initial (last (reports tr)).

(** A report of a status other than [JobInProgress] is the last report. *)
Definition terminal_report_is_last `{Lib} (rs : list (string * string)) : Prop :=
  ∀ i r, rs !! i = Some r → r.1 ≠ JobInProgress → S i = length rs.

(** The reports of a trace: some in progress, then at most one more. *)
Definition in_progress_then_one `{Lib} (rs : list (string * string)) : Prop :=
  ∃ rs1 rs2, rs = rs1 ++ rs2 ∧ Forall (λ r, r.1 = JobInProgress) rs1 ∧ length rs2 ≤ 1.

(** Observations of a job that is in progress. *)
Definition allInProgress `{Lib} (obs : list (CUPSJobStatus * string)) : Prop :=
  Forall (λ o, GCPStatus o.1 = JobInProgress) obs.

(** What one tick adds to the trace of the polling loop, in the words of the
    specification: the status query, a report when the projected pair is not
    the pair reported last, and the exit when the projection is terminal. *)
Definition tickCalls `{Lib} (job : Job) (cupsJobID : Z) (deferred : list Event)
    (reportedLast : string * string) (o : CUPSJobStatus * string) : list Event :=
  GetJobStatus cupsJobID
  :: (if decide ((GCPStatus o.1, o.2) = reportedLast) then []
      else [Control (GCPJobID job) (GCPStatus o.1) o.2])
  ++ (if decide (GCPStatus o.1 = JobInProgress) then []
      else [Acquire JobStatsSemaphore;
            IncrementJobsProcessed (bool_decide (GCPStatus o.1 = JobDone));
            Release JobStatsSemaphore] ++ deferred).

(** The calls of a trace on a per-printer semaphore. *)
Definition printerSemaphoreCalls (tr : list Event) : list Event :=
  omap (λ e, match e with
             | Acquire (PrinterSemaphore _) | Release (PrinterSemaphore _) => Some e
             | _ => None
             end) tr.

(** The ways a pipeline ends, as the specification lists them. *)
Inductive Exit :=
| UnknownPrinter | TicketFailure | TempFileFailure | DownloadFailure
| SubmitFailure | StatusQueryFailure | TerminalError | TerminalDone
| StillPolling.

Section Exits.
Context `{Lib}.

Fixpoint pollExit (ticks : list (result (CUPSJobStatus * string))) : Exit :=
  match ticks with
  | [] => StillPolling
  | inl _ :: _ => StatusQueryFailure
  | inr (s, _) :: ticks' =>
      if String.eqb (GCPStatus s) JobInProgress then pollExit ticks'
      else if String.eqb (GCPStatus s) JobDone then TerminalDone
      else TerminalError
  end.

Definition exitOf (pm : PrinterManager) (w : JobWorld) (job : Job) : Exit :=
  match gcpPrintersByGCPID pm !! GCPPrinterID job with
  | None => UnknownPrinter
  | Some _ =>
      match w_Ticket w, w_CreateTempFile w, w_Download w, w_Print w with
      | inl _, _, _, _ => TicketFailure
      | inr _, inl _, _, _ => TempFileFailure
      | inr _, inr _, Some _, _ => DownloadFailure
      | inr _, inr _, None, inl _ => SubmitFailure
      | inr _, inr _, None, inr _ => pollExit (w_GetJobStatus w)
      end
  end.
End Exits.

(** The calls of [incrementJobsProcessed] the specification expects of an
    exit: none while the pipeline polls, [true] on a terminal Done, [false]
    on every other exit. *)
Definition expectedIncrements (e : Exit) : list bool :=
  match e with
  | StillPolling => []
  | TerminalDone => [true]
  | _ => [false]
  end.

Definition is_returned (e : Exit) : bool :=
  match e with StillPolling => false | _ => true end.

(** What a run must look like for an exit: the calls of
    [incrementJobsProcessed], the state left, and whether it returned. *)
Definition accounts_for (pm : PrinterManager) (e : Exit) (r : Run) : Prop :=
  increments (trace r) = expectedIncrements e ∧
  final r = foldl incrementJobsProcessed pm (expectedIncrements e) ∧
  returned r = is_returned e.

(** The owner a job is printed under: the prefix of [owner] before its first
    [@] when user names are truncated, [owner] itself otherwise. *)
Fixpoint beforeAt (owner : string) : string :=
  match owner with
  | EmptyString => EmptyString
  | String c rest => if Ascii.eqb c "@"%char then EmptyString else String c (beforeAt rest)
  end.

Definition truncateUsername (pm : PrinterManager) : bool := negb (jobFullUsername pm).

Definition projectedOwner (pm : PrinterManager) (job : Job) : string :=
  if truncateUsername pm then beforeAt (OwnerID job) else OwnerID job.

(** Whether an exit lies after the submission to CUPS. *)
Definition is_submitted (e : Exit) : bool :=
  match e with
  | SubmitFailure | StatusQueryFailure | TerminalError | TerminalDone
  | StillPolling => true
  | _ => false
  end.

(** Whether a string contains the byte [@]. *)
Fixpoint hasAt (s : string) : bool :=
  match s with
  | EmptyString => false
  | String c rest => Ascii.eqb c "@"%char || hasAt rest
  end.

(** The owners of the [Print] calls of a trace. *)
Definition printOwners (tr : list Event) : list string :=
  omap (λ e, match e with Print _ _ _ owner _ => Some owner | _ => None end) tr.

(** ** The constructor *)

(** The loop of [NewPrinterManager] over the printers that GCP lists: each
    gets a semaphore of its own and is stored under its GCP id. *)
Definition listedRegistry (cupsQueueSize : Z) (gcpPrinters : list Printer)
  : gmap string Printer :=
  foldl (λ m p, <[GCPID p := with_CUPSJobSemaphore p (NewSemaphore cupsQueueSize)]> m)
        ∅ gcpPrinters.

(** [NewPrinterManager], up to the first, synchronous pass; [gcpList] is the
    answer of [gcp.List()] and [w] the world of that pass.  The two loops it
    then starts are the threads of [started]. *)
Definition NewPrinterManager (gcpList : result (list Printer)) (w : SyncWorld)
    (gcpMaxConcurrentDownload queueSize : Z) (fullUsername : bool)
  : result PrinterManager :=
  match gcpList with
  | inl err => inl err
  | inr gcpPrinters =>
      let pm := {| gcpPrintersByGCPID := listedRegistry queueSize gcpPrinters;
                   downloadSemaphore := NewSemaphore gcpMaxConcurrentDownload;
                   jobStatsSemaphore := NewSemaphore 1;
                   jobsDone := 0; jobsError := 0;
                   cupsQueueSize := queueSize;
                   jobFullUsername := fullUsername |} in
      inr (syncPrinters pm w)
  end.

(** Every printer of a registry is stored under its own GCP id. *)
Definition registry_keyed (m : gmap string Printer) : Prop :=
  ∀ k p, m !! k = Some p → GCPID p = k.

(** The diff that leaves a printer as it is. *)
Definition leaveDiff (p : Printer) : PrinterDiff :=
  {| diffOperation := LeavePrinter; diffPrinter := p; CapsHashChanged := false |}.

(** A pass in which [lib.DiffPrinters] leaves every printer of the registry
    as it is. *)
Definition worldLeave : SyncWorld :=
  {| w_GetPrinters := inr [];
     w_DiffPrinters := λ _ gcpPrinters, Some (leaveDiff <$> gcpPrinters);
     w_applyDiff := λ _,
       {| w_GetPPD := inl "unused"; w_Register := inl "unused";
          w_CanShare := false; w_Share := None; w_Update := None;
          w_Delete := None |};
     w_arrival := [0] |}.

(** A first pass in which CUPS does not answer. *)
Definition worldCupsDown : SyncWorld :=
  {| w_GetPrinters := inl "cupsd is not running";
     w_DiffPrinters := λ _ _, None;
     w_applyDiff := w_applyDiff worldLeave;
     w_arrival := [] |}.

(** The printer [applyDiff] emits for a diff. *)
Definition emission (pm : PrinterManager) (w : DiffWorld) (diff : PrinterDiff) : Printer :=
  (applyDiff pm w diff).2.

(** The calls [applyDiff] makes for a diff. *)
Definition diffCalls (pm : PrinterManager) (w : DiffWorld) (diff : PrinterDiff)
  : list DiffCall :=
  (applyDiff pm w diff).1.

Definition is_CallGetPPD (c : DiffCall) : bool :=
  match c with CallGetPPD _ => true | _ => false end.

(** A call that changes what GCP knows: Register, Share, Update, Delete. *)
Definition is_gcpWrite (c : DiffCall) : bool :=
  match c with CallGetPPD _ => false | _ => true end.

(** ** Semaphore discipline of a trace *)

(** The calls that the code makes under a semaphore: the download under the
    download semaphore, the update of a counter under the stats mutex. *)
Definition guardedBy (s : SemRef) (e : Event) : bool :=
  match s, e with
  | DownloadSemaphore, Download _ _ => true
  | JobStatsSemaphore, IncrementJobsProcessed _ => true
  | _, _ => false
  end.

(** Runs a trace against the semaphore [s], of which the goroutine holds
    [held] slots: [None] when the trace acquires [s] while holding it,
    releases it without holding it, or makes a guarded call without holding
    it; otherwise the number of slots held at the end. *)
Fixpoint semRun (s : SemRef) (held : nat) (tr : list Event) : option nat :=
  match tr with
  | [] => Some held
  | e :: tr' =>
      match e with
      | Acquire s' =>
          if decide (s' = s)
          then match held with O => semRun s 1 tr' | S _ => None end
          else semRun s held tr'
      | Release s' =>
          if decide (s' = s)
          then match held with O => None | S n => semRun s n tr' end
          else semRun s held tr'
      | _ =>
          if guardedBy s e
          then match held with O => None | S _ => semRun s held tr' end
          else semRun s held tr'
      end
  end.

(** Acquisitions of [s] in a trace that the trace does not release. *)
Definition outstandingOf (s : SemRef) (e : Event) : Z :=
  match e with
  | Acquire s' => if decide (s' = s) then 1%Z else 0%Z
  | Release s' => if decide (s' = s) then (-1)%Z else 0%Z
  | _ => 0%Z
  end.

Definition outstanding (s : SemRef) (tr : list Event) : Z :=
  foldr (λ e acc, (outstandingOf s e + acc)%Z) 0%Z tr.

(** The same, over all workers of a pool. *)
Definition totalOutstanding (s : SemRef) (ws : list Worker) : Z :=
  foldr (λ w acc, (outstanding s (executed w) + acc)%Z) 0%Z ws.

(** No two neighbours of a list are equal. *)
Fixpoint noRepeat {A} (l : list A) : Prop :=
  match l with
  | a :: l' => match l' with b :: _ => a ≠ b | [] => True end ∧ noRepeat l'
  | [] => True
  end.

(** The [Print] calls of a trace. *)
Definition printCalls (tr : list Event) : list Event :=
  omap (λ e, match e with Print _ _ _ _ _ => Some e | _ => None end) tr.


(** The workers of a pool run pipelines of [pm]: what a worker has executed
    and what it has pending make up the trace of a [processJob]. *)
Definition runs_pipelines `{Lib} (pm : PrinterManager) (pool : Pool) : Prop :=
  Forall (λ w, ∃ jw job, executed w ++ pending w = trace (processJob pm jw job))
         (workers pool).

(** The holders of every semaphore are those it had at the start and the
    acquisitions of the workers not yet released. *)
Definition holders_accounted (pm : PrinterManager) (pool : Pool) : Prop :=
  ∀ s, holders pool s = (semCount pm s + totalOutstanding s (workers pool))%Z.

Definition holders_bounded (pm : PrinterManager) (pool : Pool) : Prop :=
  ∀ s, (holders pool s ≤ Z.max (semCount pm s) (semSize pm s))%Z.

(** A registry whose printer [r7] has two holders on its semaphore and whose
    printer [r3] has one. *)
Definition pmBusy : PrinterManager :=
  {| gcpPrintersByGCPID :=
       {[ "r7" := with_CUPSJobSemaphore printerHP {| Size := 3; Count := 2 |};
          "r3" := with_CUPSJobSemaphore printerGone {| Size := 3; Count := 1 |} ]};
     downloadSemaphore := NewSemaphore 2;
     jobStatsSemaphore := NewSemaphore 1;
     jobsDone := 0; jobsError := 0;
     cupsQueueSize := 3;
     jobFullUsername := true |}.

(** What a run that has returned has told GCP last. *)
Definition reported_outcome `{Lib} (r : Run) : Prop :=
  ∃ st msg, last (reports (trace r)) = Some (st, msg) ∧
            st ≠ JobInProgress ∧
            (st = JobDone ↔ increments (trace r) = [true]).

(** The stage of [processJob] a call belongs to, in program order: ticket,
    temp file, download under its semaphore, close, submission, polling and
    reporting, the counter under the stats mutex, removal of the temp file.
    A report belongs to the polling stage: the error reports of the earlier
    stages are followed by the counter and nothing else. *)
Definition stage (e : Event) : nat :=
  match e with
  | Ticket _ => 1
  | CreateTempFile => 2
  | Acquire DownloadSemaphore => 3
  | Download _ _ => 4
  | Release DownloadSemaphore => 5
  | CloseFile _ => 6
  | Print _ _ _ _ _ => 7
  | GetJobStatus _ => 8
  | Control _ _ _ => 8
  | Acquire _ => 9
  | IncrementJobsProcessed _ => 10
  | Release _ => 11
  | Remove _ => 12
  end.

(** The calls of a trace never go back to an earlier stage than [lo]. *)
Fixpoint inStageOrder (lo : nat) (tr : list Event) : Prop :=
  match tr with
  | [] => True
  | e :: tr' => lo ≤ stage e ∧ inStageOrder (stage e) tr'
  end.

(** The calls that end a pipeline: the counter update inside the stats
    mutex, then the deferred removal of the temp file when there is one. *)
Definition closingCalls (tr : list Event) : Prop :=
  ∃ success,
    tr = [Acquire JobStatsSemaphore; IncrementJobsProcessed success;
          Release JobStatsSemaphore] ∨
    ∃ file, tr = [Acquire JobStatsSemaphore; IncrementJobsProcessed success;
                  Release JobStatsSemaphore; Remove file].

(** What surrounds a call [e] of a pipeline, [prev] being the call before it
    and [post] the calls after it: a download directly follows the
    acquisition of the download semaphore and is directly followed by its
    release; a counter update directly follows the acquisition of the stats
    mutex and is followed by its release and at most the removal of the temp
    file; a report of a status other than in progress is followed by the
    closing calls and nothing else; nothing follows the removal of the temp
    file. *)
Definition placed `{Lib} (prev : option Event) (e : Event) (post : list Event) : Prop :=
  match e with
  | Download _ _ =>
      prev = Some (Acquire DownloadSemaphore) ∧
      head post = Some (Release DownloadSemaphore)
  | IncrementJobsProcessed _ =>
      prev = Some (Acquire JobStatsSemaphore) ∧
      (post = [Release JobStatsSemaphore] ∨
       ∃ file, post = [Release JobStatsSemaphore; Remove file])
  | Control _ status _ => status ≠ JobInProgress → closingCalls post
  | Remove _ => post = []
  | _ => True
  end.

(** Every call of a trace that starts after [prev] is placed as above. *)
Fixpoint wellPlaced `{Lib} (prev : option Event) (tr : list Event) : Prop :=
  match tr with
  | [] => True
  | e :: tr' => placed prev e tr' ∧ wellPlaced (Some e) tr'
  end.

(** The calls of a stage in a trace. *)
Definition callsOfStage (n : nat) (tr : list Event) : list Event :=
  filter (λ e, stage e = n) tr.

(** ** The intake loop: which jobs have a pipeline *)

(** The job a pipeline was started for. *)
Definition pipelineJob (t : Thread) : option Job :=
  match t with TPipeline pc => Some (spawnedFor pc) | _ => None end.

(** The jobs for which the consumer has started a pipeline, in the order in
    which it started them. *)
Definition spawnedJobs (ts : list Thread) : list Job := omap pipelineJob ts.

(** The jobs of the current batch that the producer has still to send. *)
Definition producerJobs (t : Thread) : list Job :=
  match t with
  | TProducer (ProdRange _ rest) => rest
  | TProducer (ProdSend _ cur rest) => cur :: rest
  | _ => []
  end.

(** The jobs still to be handed over: those of the current batch and those
    of the batches to come.  The producer is the second thread of a started
    manager. *)
Definition unsentJobs (s : System) : list Job :=
  from_option producerJobs [] (threads s !! 1) ++ concat (batches (shared s)).

#[export] Instance Kind_eq_dec : EqDecision Kind.
Proof. solve_decision. Defined.

(** The kinds of the threads of a manager started with [callers] callers of
    [Quit]. *)
Definition started_kinds (callers : nat) (ks : list Kind) : Prop :=
  ∃ n, ks = [KReconciler; KProducer; KConsumer] ++ replicate callers KQuit
            ++ replicate n KPipeline.

(** The jobs with a pipeline and the jobs still to be handed over. *)
Definition jobs_accounted (all : list Job) (s : System) : Prop :=
  spawnedJobs (threads s) ++ unsentJobs s = all.

(** ** The intake loop: what a pipeline reads *)

(** The cell a pipeline points to holds the job it was started for, and what
    the pipeline has read so far are the first fields of that job. *)
Definition reads_own_job (sh : Shared) (pc : PipelinePC) : Prop :=
  heap sh !! jobPtr pc = Some (spawnedFor pc) ∧
  fieldsRead pc `prefix_of` jobFields (spawnedFor pc).

Definition pipelines_read_own (s : System) : Prop :=
  ∀ n pc, threads s !! n = Some (TPipeline pc) → reads_own_job (shared s) pc.

(** No pipeline points to the cell [addr]. *)
Definition fresh_addr (s : System) (addr : nat) : Prop :=
  ∀ n pc, threads s !! n = Some (TPipeline pc) → jobPtr pc ≠ addr.

(** Where the producer stands, with one variable per range statement, when
    every batch has at most one job: a loop variable that is still to be
    assigned is one no pipeline points to, and a loop variable that is being
    sent holds the job sent. *)
Definition producer_state_ok (s : System) (ppc : ProducerPC) : Prop :=
  match ppc with
  | ProdCall => True
  | ProdRange addr rest =>
      length rest ≤ 1 ∧
      (rest ≠ [] → addr < length (heap (shared s)) ∧ fresh_addr s addr)
  | ProdSend addr cur rest => rest = [] ∧ heap (shared s) !! addr = Some cur
  end.

Definition single_job_batches (s : System) : Prop :=
  Forall (λ jobs : list Job, length jobs ≤ 1) (batches (shared s)) ∧
  pipelines_read_own s ∧
  (∀ ppc, threads s !! 1 = Some (TProducer ppc) → producer_state_ok s ppc).

(** ** The intake loop: the job descriptors *)

(** The descriptor a thread holds the address of, with the job it stands
    for: a pipeline the descriptor it was given, the producer at
    [ch <- &job] the variable it is sending. *)
Definition descriptorOf (t : Thread) : option (nat * Job) :=
  match t with
  | TPipeline pc => Some (jobPtr pc, spawnedFor pc)
  | TProducer (ProdSend addr cur _) => Some (addr, cur)
  | _ => None
  end.

Definition descriptors (s : System) : list (nat * Job) :=
  omap descriptorOf (threads s).

(** The descriptors are distinct cells, each holds the job it stands for,
    and what a pipeline has read are the first fields of its job. *)
Definition descriptors_ok (s : System) : Prop :=
  NoDup (descriptors s).*1 ∧
  Forall (λ d, heap (shared s) !! d.1 = Some d.2) (descriptors s) ∧
  ∀ n pc, threads s !! n = Some (TPipeline pc) →
          fieldsRead pc `prefix_of` jobFields (spawnedFor pc).

(** A pipeline after it has read the value [v] through its pointer. *)
Definition readNext (pc : PipelinePC) (v : string) : PipelinePC :=
  {| jobPtr := jobPtr pc; spawnedFor := spawnedFor pc;
     fieldsRead := fieldsRead pc ++ [v] |}.

(** ** Pipelines one after the other *)

#[export] Instance Exit_eq_dec : EqDecision Exit.
Proof. solve_decision. Defined.

(** The manager after the pipelines of [jobs], whose counter updates the
    stats mutex puts one after the other. *)
Definition runPipelines `{Lib} (pm : PrinterManager) (jobs : list (JobWorld * Job))
  : PrinterManager :=
  foldl (λ pm' wj, final (processJob pm' wj.1 wj.2)) pm jobs.

(** The pipelines of [jobs] that end on a terminal Done, and those that end
    otherwise. *)
Definition doneCount `{Lib} (pm : PrinterManager) (jobs : list (JobWorld * Job)) : nat :=
  length (filter (λ wj, exitOf pm wj.1 wj.2 = TerminalDone) jobs).

Definition errorCount `{Lib} (pm : PrinterManager) (jobs : list (JobWorld * Job)) : nat :=
  length (filter (λ wj, exitOf pm wj.1 wj.2 ≠ TerminalDone ∧
                        exitOf pm wj.1 wj.2 ≠ StillPolling) jobs).

(** * Theorems *)

(** ** Go's [uint] *)

Lemma uint_wrap_small (z : Z) : (0 ≤ z ≤ uint_max)%Z → uint_wrap z = z.
Proof.
  unfold uint_wrap, uint_max. intros Hz. apply Z.mod_small. lia.
Qed.

Lemma uint_wrap_add_l (a b : Z) : uint_wrap (uint_wrap a + b) = uint_wrap (a + b).
Proof. unfold uint_wrap. apply Zplus_mod_idemp_l. Qed.

Lemma uint_wrap_range (z : Z) : (0 ≤ uint_wrap z ≤ uint_max)%Z.
Proof.
  unfold uint_wrap, uint_max.
  pose proof (Z.mod_pos_bound z (2 ^ uint_bits) ltac:(reflexivity)). lia.
Qed.

(** ** Stats aggregator *)

Lemma incrementJobsProcessed_registry pm b :
  gcpPrintersByGCPID (incrementJobsProcessed pm b) = gcpPrintersByGCPID pm.
Proof. reflexivity. Qed.

(** Below the largest [uint], an increment raises one counter by one and
    leaves the other. *)
Lemma incrementJobsProcessed_counters pm b :
  (0 ≤ jobsDone pm < uint_max)%Z → (0 ≤ jobsError pm < uint_max)%Z →
  jobsDone (incrementJobsProcessed pm b) = (jobsDone pm + if b then 1 else 0)%Z ∧
  jobsError (incrementJobsProcessed pm b) = (jobsError pm + if b then 0 else 1)%Z.
Proof.
  intros Hd He. destruct b; simpl; rewrite uint_wrap_small; lia.
Qed.

(** [GetJobStats] never reports a processed job. *)
Lemma GetJobStats_processed pm processed processing :
  GetJobStats pm = Some (processed, processing) → processed = 0%Z.
Proof.
  unfold GetJobStats. intros Hs.
  destruct (foldl addCount _ _); simpl in Hs; congruence.
Qed.

Lemma foldl_addCount (ps : list Printer) (acc : Z) :
  Forall (λ p, is_Some (CUPSJobSemaphore p)) ps →
  foldl addCount (Some (uint_wrap acc)) ps = Some (uint_wrap (acc + sumCounts ps)).
Proof.
  revert acc. induction ps as [|p ps IH]; intros acc Hall; simpl.
  - by rewrite Z.add_0_r.
  - inversion Hall as [|? ? [sem Hsem] Hrest]; subst.
    rewrite Hsem. simpl. rewrite uint_wrap_add_l, IH by done.
    f_equal. f_equal. lia.
Qed.

(** [processing] is the sum of the holders of the semaphores of the printers
    of the registry, as a [uint]. *)
Lemma GetJobStats_processing pm :
  map_Forall (λ _ p, is_Some (CUPSJobSemaphore p)) (gcpPrintersByGCPID pm) →
  GetJobStats pm =
    Some (0%Z, uint_wrap (sumCounts (printerMapToSlice (gcpPrintersByGCPID pm)))).
Proof.
  intros Hall. unfold GetJobStats.
  change (Some 0%Z) with (Some (uint_wrap 0)).
  rewrite foldl_addCount; [done|].
  unfold printerMapToSlice. apply Forall_fmap, Forall_forall.
  intros [k p] Hin. apply elem_of_map_to_list in Hin. by apply (Hall k p).
Qed.

(** C1 (the code at the failing input): after a pipeline has ended with Done,
    so that the done counter is 1 and one invocation has terminated,
    [GetJobStats] still returns 0 as its first value. *)
Theorem GetJobStats_ignores_counters :
  let pm := final (processJob pmHP worldS6 jobJ1) in
  returned (processJob pmHP worldS6 jobJ1) = true ∧
  (jobsDone pm + jobsError pm = 1)%Z ∧
  GetJobStats pm = Some (0%Z, 0%Z).
Proof. vm_compute. done. Qed.

(** ** The job pipeline: statistics *)

Lemma increments_app tr1 tr2 :
  increments (tr1 ++ tr2) = increments tr1 ++ increments tr2.
Proof. apply omap_app. Qed.

Section PipelineStats.
Context `{Lib}.

Lemma before_accounts pm e evs r :
  increments evs = [] → accounts_for pm e r → accounts_for pm e (before evs r).
Proof.
  intros Hev (Hi & Hf & Hr). unfold accounts_for, before; simpl.
  by rewrite increments_app, Hev.
Qed.

Lemma increment_return_accounts pm e b deferred :
  increments deferred = [] → expectedIncrements e = [b] →
  accounts_for pm e (increment_return pm b deferred).
Proof.
  intros Hd He. unfold accounts_for, increment_return; simpl.
  rewrite Hd, He. repeat split. by destruct e.
Qed.

Lemma fail_accounts pm e job msg deferred :
  increments deferred = [] → expectedIncrements e = [false] →
  accounts_for pm e (fail pm job msg deferred).
Proof.
  intros Hd He. apply before_accounts; [done|].
  by apply increment_return_accounts.
Qed.

Lemma pollLoop_accounts pm job cupsJobID deferred status message ticks :
  increments deferred = [] →
  accounts_for pm (pollExit ticks)
    (pollLoop pm job cupsJobID deferred status message ticks).
Proof.
  intros Hd. revert status message.
  induction ticks as [|[err|[s m]] ticks IH]; intros status message; simpl.
  - done.
  - apply before_accounts; [done|]. by apply fail_accounts.
  - apply before_accounts.
    { simpl. by destruct (_ || _). }
    destruct (String.eqb (GCPStatus s) JobInProgress); simpl; [apply IH|].
    destruct (String.eqb (GCPStatus s) JobDone);
      by apply increment_return_accounts.
Qed.

Lemma processJob_accounts pm w job :
  accounts_for pm (exitOf pm w job) (processJob pm w job).
Proof.
  unfold processJob, exitOf.
  destruct (gcpPrintersByGCPID pm !! GCPPrinterID job) as [printer|];
    [|by apply fail_accounts].
  apply before_accounts; [done|].
  destruct (w_Ticket w) as [err|options]; [by apply fail_accounts|].
  apply before_accounts; [done|].
  destruct (w_CreateTempFile w) as [err|pdfFile]; [by apply fail_accounts|].
  apply before_accounts; [done|].
  destruct (w_Download w) as [err|]; [by apply fail_accounts|].
  apply before_accounts; [done|].
  apply before_accounts; [done|].
  destruct (w_Print w) as [err|cupsJobID]; [by apply fail_accounts|].
  by apply pollLoop_accounts.
Qed.
End PipelineStats.

(** C7 (as stated, at a concrete input): with the done counter at the largest
    [uint], a pipeline that ends with Done leaves the counter smaller than it
    found it. *)
Lemma jobsDone_wraps_around :
  returned (processJob pmFull worldS6 jobJ1) = true ∧
  ¬ (jobsDone pmFull ≤ jobsDone (final (processJob pmFull worldS6 jobJ1)))%Z.
Proof. split; [reflexivity|]. vm_compute. intros Hle. by apply Hle. Qed.

(** C7 (amended): for every manager state, whatever its counters, a
    pipeline that has returned has called [incrementJobsProcessed] exactly
    once, with [true] exactly when it ended on a terminal Done and with
    [false] on every other exit (unknown printer, ticket, temp-file,
    download, submit or status-query failure, terminal Error), and it leaves
    the manager as that one call leaves it; a pipeline still polling has not
    called it and leaves the manager as it found it.  As long as both
    counters are below the largest [uint], neither counter decreases and, on
    return, the counter of the call has grown by one and the other is
    unchanged. *)
Theorem processJob_increments_once `{Lib} (pm : PrinterManager) (w : JobWorld) (job : Job) :
  let r := processJob pm w job in
  let e := exitOf pm w job in
  returned r = is_returned e ∧
  increments (trace r) = expectedIncrements e ∧
  (returned r = true → ∃ success, increments (trace r) = [success] ∧
     (success = true ↔ e = TerminalDone) ∧
     final r = incrementJobsProcessed pm success) ∧
  (returned r = false → increments (trace r) = [] ∧ final r = pm) ∧
  ((0 ≤ jobsDone pm < uint_max)%Z → (0 ≤ jobsError pm < uint_max)%Z →
     (jobsDone pm ≤ jobsDone (final r))%Z ∧
     (jobsError pm ≤ jobsError (final r))%Z ∧
     (returned r = true →
        jobsDone (final r) =
          (jobsDone pm + if bool_decide (e = TerminalDone) then 1 else 0)%Z ∧
        jobsError (final r) =
          (jobsError pm + if bool_decide (e = TerminalDone) then 0 else 1)%Z)).
Proof.
  intros r e.
  destruct (processJob_accounts pm w job) as (Hi & Hf & Hr).
  fold r e in Hi, Hf, Hr.
  assert (Hcases : (e = StillPolling ∧ final r = pm) ∨
                   (∃ b, expectedIncrements e = [b] ∧ is_returned e = true ∧
                         (b = true ↔ e = TerminalDone) ∧
                         final r = incrementJobsProcessed pm b)).
  { destruct e eqn:Ee; simpl in Hf;
      first [ left; by split
            | right; exists true; repeat split; done
            | right; exists false; repeat split; (done || (intros; congruence)) ]. }
  split; [done|]. split; [done|].
  destruct Hcases as [[Epoll Hfin]|(b & Hb & Hret & Hiff & Hfin)].
  - rewrite Hr, Hi, Epoll, Hfin. simpl.
    split; [done|]. split; [done|]. intros _ _. split; [lia|]. split; [lia|done].
  - rewrite Hr, Hret, Hi, Hb.
    split; [intros _; by exists b|]. split; [done|]. intros Hd He.
    destruct (incrementJobsProcessed_counters pm b Hd He) as [Hjd Hje].
    rewrite Hfin, Hjd, Hje.
    split; [destruct b; lia|]. split; [destruct b; lia|]. intros _.
    destruct b.
    + rewrite bool_decide_true by (by apply Hiff). done.
    + rewrite bool_decide_false; [done|]. intros He'. by apply Hiff in He'.
Qed.

Lemma processJob_increments_once_witness :
  returned (processJob pmHP worldS6 jobJ1) = true ∧
  increments (trace (processJob pmHP worldS6 jobJ1)) = [true] ∧
  jobsDone (final (processJob pmHP worldS6 jobJ1)) = 1%Z ∧
  jobsError (final (processJob pmHP worldS6 jobJ1)) = 0%Z.
Proof.
  pose proof (processJob_increments_once pmHP worldS6 jobJ1)
    as (Hr & Hi & _ & _ & Hcount).
  destruct Hcount as (_ & _ & Hgrow).
  - vm_compute. split; [discriminate|reflexivity].
  - vm_compute. split; [discriminate|reflexivity].
  - split; [exact Hr|]. split; [exact Hi|]. exact (Hgrow Hr).
Defined.

(** ** The job pipeline: the temp file *)

Lemma pollLoop_runs_deferred `{Lib} pm job cupsJobID deferred status message ticks :
  returned (pollLoop pm job cupsJobID deferred status message ticks) = true →
  ∃ tr, trace (pollLoop pm job cupsJobID deferred status message ticks) = tr ++ deferred.
Proof.
  revert status message.
  induction ticks as [|[err|[s m]] ticks IH]; intros status message; simpl.
  - discriminate.
  - intros _. by eexists [_; _; _; _; _].
  - destruct (negb (String.eqb (GCPStatus s) JobInProgress)); simpl.
    + intros _.
      destruct (String.eqb (GCPStatus s) JobDone); simpl;
        match goal with
        | |- ∃ tr, ?a :: ?rep ++ ?x :: ?y :: ?z :: deferred = _ =>
            exists (a :: rep ++ [x; y; z])
        end; simpl; by rewrite <- app_assoc.
    + intros Hret. destruct (IH _ _ Hret) as [tr Htr]. rewrite Htr.
      match goal with
      | |- ∃ tr', ?a :: ?rep ++ tr ++ deferred = _ => exists (a :: rep ++ tr)
      end. simpl. by rewrite <- app_assoc.
Qed.

(** Once the download has succeeded, every return removes the temp file as
    its last call. *)
Lemma processJob_removes_after_download `{Lib} pm w job printer options pdfFile :
  gcpPrintersByGCPID pm !! GCPPrinterID job = Some printer →
  w_Ticket w = inr options → w_CreateTempFile w = inr pdfFile →
  w_Download w = None →
  returned (processJob pm w job) = true →
  last (trace (processJob pm w job)) = Some (Remove pdfFile).
Proof.
  intros Hp Ht Hf Hd. unfold processJob. rewrite Hp, Ht, Hf, Hd.
  destruct (w_Print w) as [err|cupsJobID]; simpl.
  - done.
  - intros Hret. destruct (pollLoop_runs_deferred _ _ _ _ _ _ _ Hret) as [tr ->].
    simpl. rewrite !app_comm_cons. apply last_snoc.
Qed.

(** C4 (the code at the failing input): the temp file is created, the
    download fails, [processJob] returns, and no call removes (or closes) the
    file. *)
Theorem download_failure_keeps_temp_file :
  let r := processJob pmHP worldDownloadFails jobJ1 in
  w_CreateTempFile worldDownloadFails = inr "/tmp/cups-1" ∧
  returned r = true ∧
  trace r =
    [Ticket "t1"; CreateTempFile; Acquire DownloadSemaphore;
     Download "/tmp/cups-1" "f1"; Release DownloadSemaphore;
     Control "j1" "ERROR" "Failed to download PDF for job j1: connection reset";
     Acquire JobStatsSemaphore; IncrementJobsProcessed false;
     Release JobStatsSemaphore] ∧
  Remove "/tmp/cups-1" ∉ trace r.
Proof.
  split; [reflexivity|]. split; [reflexivity|].
  assert (Htr : trace (processJob pmHP worldDownloadFails jobJ1) =
    [Ticket "t1"; CreateTempFile; Acquire DownloadSemaphore;
     Download "/tmp/cups-1" "f1"; Release DownloadSemaphore;
     Control "j1" "ERROR" "Failed to download PDF for job j1: connection reset";
     Acquire JobStatsSemaphore; IncrementJobsProcessed false;
     Release JobStatsSemaphore]) by (vm_compute; reflexivity).
  split; [exact Htr|]. simpl. rewrite Htr. intros Hin.
  repeat (apply elem_of_cons in Hin as [Hin|Hin]; [discriminate|]).
  by apply elem_of_nil in Hin.
Qed.

(** ** The job pipeline: the owner *)

Lemma prefix_at (c : Ascii.ascii) (s : string) :
  String.prefix "@" (String c s) = Ascii.eqb c "@"%char.
Proof.
  destruct (Ascii.eqb_spec c "@"%char) as [->|Hne].
  - by destruct s.
  - cbn [String.prefix].
    destruct (Ascii.ascii_dec "@"%char c) as [Heq|]; [|done].
    exfalso. apply Hne. by rewrite <- Heq.
Qed.

Lemma split_from_at (s cur : string) :
  head (split_from "@" 0 cur s) = Some (String.rev_app cur (beforeAt s)).
Proof.
  revert cur. induction s as [|c s IH]; intros cur; [reflexivity|].
  cbn [split_from beforeAt]. rewrite prefix_at.
  destruct (Ascii.eqb c "@"%char); [reflexivity|].
  by rewrite IH.
Qed.

Lemma strings_Split_at (s : string) :
  default "" (head (strings_Split s "@")) = beforeAt s.
Proof. unfold strings_Split. by rewrite split_from_at. Qed.

(** [beforeAt s] is free of [@], and [s] is either [beforeAt s] itself or
    [beforeAt s] followed by an [@] and a rest. *)
Lemma beforeAt_prefix (s : string) :
  hasAt (beforeAt s) = false ∧
  ((hasAt s = false ∧ s = beforeAt s) ∨
   (∃ rest, s = beforeAt s +:+ "@" +:+ rest)).
Proof.
  induction s as [|c s [IHno IHsplit]]; simpl.
  - split; [done|]. by left.
  - destruct (Ascii.eqb_spec c "@"%char) as [->|Hne]; simpl.
    + split; [done|]. right. by exists s.
    + apply Ascii.eqb_neq in Hne. rewrite Hne, IHno. simpl. split; [done|].
      destruct IHsplit as [[Hno Heq]|[rest Heq]].
      * left. split; [done|]. by rewrite <- Heq.
      * right. exists rest. by rewrite Heq at 1.
Qed.

Lemma before_printOwners evs r :
  printOwners evs = [] → printOwners (trace r) = [] →
  printOwners (trace (before evs r)) = [].
Proof.
  intros Hev Hr. unfold printOwners in *. simpl. by rewrite omap_app, Hev, Hr.
Qed.

Lemma pollLoop_printOwners `{Lib} pm job cupsJobID deferred status message ticks :
  printOwners deferred = [] →
  printOwners (trace (pollLoop pm job cupsJobID deferred status message ticks)) = [].
Proof.
  intros Hd. revert status message.
  induction ticks as [|[err|[s m]] ticks IH]; intros status message; simpl.
  - done.
  - done.
  - apply before_printOwners.
    { simpl. by destruct (_ || _). }
    destruct (negb (String.eqb (GCPStatus s) JobInProgress)); [|apply IH].
    by destruct (String.eqb (GCPStatus s) JobDone).
Qed.

Lemma pollExit_submitted `{Lib} ticks : is_submitted (pollExit ticks) = true.
Proof.
  induction ticks as [|[err|[s m]] ticks IH]; simpl; [done..|].
  destruct (String.eqb (GCPStatus s) JobInProgress); [done|].
  by destruct (String.eqb (GCPStatus s) JobDone).
Qed.

(** C9: the owner handed to [Print], in every pipeline that gets as far as
    the submission, is the projected owner of the job (and there is no
    [Print] in a pipeline that ends earlier).  With the truncation flag set
    (the code's [jobFullUsername] unset) it is free of [@] and is the part of
    the owner before its first [@], the whole owner when that has no [@];
    with the flag unset it is the owner verbatim. *)
Theorem processJob_owner `{Lib} (pm : PrinterManager) (w : JobWorld) (job : Job) :
  printOwners (trace (processJob pm w job)) =
    (if is_submitted (exitOf pm w job) then [projectedOwner pm job] else []) ∧
  (truncateUsername pm = true →
     hasAt (projectedOwner pm job) = false ∧
     ((hasAt (OwnerID job) = false ∧ OwnerID job = projectedOwner pm job) ∨
      (∃ rest, OwnerID job = projectedOwner pm job +:+ "@" +:+ rest))) ∧
  (truncateUsername pm = false → projectedOwner pm job = OwnerID job).
Proof.
  split; [|split].
  - unfold processJob, exitOf, projectedOwner, truncateUsername.
    destruct (gcpPrintersByGCPID pm !! GCPPrinterID job) as [printer|]; [|done].
    destruct (w_Ticket w) as [err|options]; [done|].
    destruct (w_CreateTempFile w) as [err|pdfFile]; [done|].
    destruct (w_Download w) as [err|]; [done|].
    rewrite strings_Split_at.
    destruct (w_Print w) as [err|cupsJobID]; simpl.
    + done.
    + rewrite pollLoop_printOwners by done.
      by rewrite pollExit_submitted.
  - unfold projectedOwner. intros ->. apply beforeAt_prefix.
  - unfold projectedOwner. by intros ->.
Qed.

Lemma processJob_owner_witness :
  printOwners (trace (processJob pmHP worldS6 jobJ1)) = ["alice"].
Proof.
  destruct (processJob_owner pmHP worldS6 jobJ1) as [Howner _].
  rewrite Howner. vm_compute. reflexivity.
Defined.

(** ** The job pipeline: the polling loop *)

Lemma reports_app tr1 tr2 : reports (tr1 ++ tr2) = reports tr1 ++ reports tr2.
Proof. apply omap_app. Qed.

Lemma lastReported_app initial tr1 tr2 :
  lastReported initial (tr1 ++ tr2) = lastReported (lastReported initial tr1) tr2.
Proof.
  unfold lastReported. rewrite reports_app, last_app.
  by destruct (last (reports tr2)).
Qed.

Section Polling.
Context `{Lib}.

(** The loop's test [latestStatus.GCPStatus() != status || latestMessage !=
    message] holds exactly when the two pairs differ. *)
Lemma changed_iff (a b c d : string) :
  negb (String.eqb a c) || negb (String.eqb b d) =
  (if decide ((a, b) = (c, d)) then false else true).
Proof.
  destruct (String.eqb_spec a c), (String.eqb_spec b d); case_decide;
    simplify_eq; done.
Qed.

Lemma pollLoop_tick_in_progress pm job cupsJobID deferred status message s m ticks :
  GCPStatus s = JobInProgress →
  pollLoop pm job cupsJobID deferred status message (inr (s, m) :: ticks) =
  before (GetJobStatus cupsJobID
          :: (if decide ((GCPStatus s, m) = (status, message)) then []
              else [Control (GCPJobID job) (GCPStatus s) m]))
         (pollLoop pm job cupsJobID deferred (GCPStatus s) m ticks).
Proof.
  intros Hs. simpl. rewrite changed_iff, Hs, String.eqb_refl. simpl.
  case_decide as Heq; [|done]. by simplify_eq.
Qed.

Lemma pollLoop_last_tick pm job cupsJobID deferred status message o :
  trace (pollLoop pm job cupsJobID deferred status message [inr o]) =
  tickCalls job cupsJobID deferred (status, message) o.
Proof.
  destruct o as [s m]. unfold tickCalls. simpl. rewrite changed_iff. f_equal.
  f_equal.
  - by case_decide.
  - destruct (String.eqb_spec (GCPStatus s) JobInProgress) as [Hp|Hp];
      case_decide; try done; simpl.
    destruct (String.eqb_spec (GCPStatus s) JobDone) as [Hd|Hd]; simpl.
    + by rewrite bool_decide_true.
    + by rewrite bool_decide_false.
Qed.

(** A tick appends its calls to the trace; whether it reports is decided by
    the pair reported last in the trace so far. *)
Lemma pollLoop_snoc pm job cupsJobID deferred status message pre o :
  allInProgress pre →
  trace (pollLoop pm job cupsJobID deferred status message ((inr <$> pre) ++ [inr o])) =
  trace (pollLoop pm job cupsJobID deferred status message (inr <$> pre))
  ++ tickCalls job cupsJobID deferred
       (lastReported (status, message)
          (trace (pollLoop pm job cupsJobID deferred status message (inr <$> pre))))
       o.
Proof.
  intros Hpre. revert status message.
  induction Hpre as [|[s m] pre Hs Hpre IH]; intros status message.
  - apply pollLoop_last_tick.
  - simpl in Hs. rewrite !fmap_cons, <- app_comm_cons.
    rewrite !pollLoop_tick_in_progress by done.
    cbn [trace before]. rewrite IH, <- app_assoc. f_equal. f_equal.
    rewrite lastReported_app.
    assert (Hlast : lastReported (status, message)
              (GetJobStatus cupsJobID
               :: (if decide ((GCPStatus s, m) = (status, message)) then []
                   else [Control (GCPJobID job) (GCPStatus s) m]))
            = (GCPStatus s, m)).
    { unfold lastReported. by case_decide. }
    by rewrite Hlast.
Qed.

Lemma pollLoop_continues pm job cupsJobID deferred status message pre :
  allInProgress pre →
  returned (pollLoop pm job cupsJobID deferred status message (inr <$> pre)) = false.
Proof.
  intros Hpre. revert status message.
  induction Hpre as [|[s m] pre Hs Hpre IH]; intros status message; [done|].
  simpl in Hs. rewrite fmap_cons, pollLoop_tick_in_progress by done. apply IH.
Qed.

(** The loop ends at the first projection that is not in progress: what
    [GetJobStatus] would answer afterwards is never asked for. *)
Lemma pollLoop_stops pm job cupsJobID deferred status message pre s m rest :
  allInProgress pre → GCPStatus s ≠ JobInProgress →
  returned (pollLoop pm job cupsJobID deferred status message
              ((inr <$> pre) ++ inr (s, m) :: rest)) = true ∧
  pollLoop pm job cupsJobID deferred status message ((inr <$> pre) ++ inr (s, m) :: rest) =
  pollLoop pm job cupsJobID deferred status message ((inr <$> pre) ++ [inr (s, m)]).
Proof.
  intros Hpre Hs. revert status message.
  induction Hpre as [|[s1 m1] pre Hs1 Hpre IH]; intros status message.
  - simpl. apply String.eqb_neq in Hs. rewrite Hs. simpl.
    by destruct (String.eqb (GCPStatus s) JobDone).
  - simpl in Hs1. rewrite !fmap_cons, <- !app_comm_cons.
    rewrite !pollLoop_tick_in_progress by done.
    destruct (IH (GCPStatus s1) m1) as [Hret Heq]. by rewrite Heq, <- Hret, Heq.
Qed.

Lemma in_progress_then_one_last rs :
  in_progress_then_one rs → terminal_report_is_last rs.
Proof.
  intros (rs1 & rs2 & -> & Hrs1 & Hlen) i r Hi Hr.
  destruct (decide (i < length rs1)) as [Hlt|Hge].
  - rewrite lookup_app_l in Hi by done.
    rewrite Forall_lookup in Hrs1. by specialize (Hrs1 _ _ Hi).
  - apply lookup_lt_Some in Hi. rewrite length_app in *. lia.
Qed.

Lemma in_progress_then_one_nil : in_progress_then_one [].
Proof. exists [], []. repeat split; [constructor | simpl; lia]. Qed.

Lemma in_progress_then_one_single r : in_progress_then_one [r].
Proof. exists [], [r]. repeat split; [constructor | simpl; lia]. Qed.

Lemma in_progress_then_one_cons r rs :
  r.1 = JobInProgress → in_progress_then_one rs → in_progress_then_one (r :: rs).
Proof.
  intros Hr (rs1 & rs2 & -> & Hrs1 & Hlen). exists (r :: rs1), rs2.
  repeat split; [by constructor | done].
Qed.

Lemma pollLoop_reports pm job cupsJobID deferred status message ticks :
  reports deferred = [] →
  in_progress_then_one
    (reports (trace (pollLoop pm job cupsJobID deferred status message ticks))).
Proof.
  intros Hd. revert status message.
  induction ticks as [|[err|[s m]] ticks IH]; intros status message.
  - apply in_progress_then_one_nil.
  - simpl. rewrite Hd. apply in_progress_then_one_single.
  - destruct (String.eqb_spec (GCPStatus s) JobInProgress) as [Hs|Hs].
    + rewrite pollLoop_tick_in_progress by done. cbn [trace before].
      rewrite reports_app.
      case_decide; simpl; [apply IH|].
      apply in_progress_then_one_cons; [done|apply IH].
    + simpl. apply String.eqb_neq in Hs. rewrite Hs. simpl.
      rewrite reports_app.
      assert (Hexit : ∀ b, reports (trace (increment_return pm b deferred)) = []).
      { intros b. simpl. exact Hd. }
      destruct (String.eqb (GCPStatus s) JobDone); rewrite Hexit, app_nil_r;
        destruct (_ || _); simpl;
        first [apply in_progress_then_one_nil | apply in_progress_then_one_single].
Qed.

Lemma processJob_reports pm w job :
  in_progress_then_one (reports (trace (processJob pm w job))).
Proof.
  unfold processJob.
  destruct (gcpPrintersByGCPID pm !! GCPPrinterID job) as [printer|];
    [|apply in_progress_then_one_single].
  destruct (w_Ticket w) as [err|options]; [apply in_progress_then_one_single|].
  destruct (w_CreateTempFile w) as [err|pdfFile];
    [apply in_progress_then_one_single|].
  destruct (w_Download w) as [err|]; [apply in_progress_then_one_single|].
  destruct (w_Print w) as [err|cupsJobID]; [apply in_progress_then_one_single|].
  cbn [trace before app].
  change (?a :: ?b :: ?c :: ?d :: ?e :: ?f :: ?g :: ?tr)
    with ([a; b; c; d; e; f; g] ++ tr).
  rewrite reports_app. simpl. by apply pollLoop_reports.
Qed.
End Polling.

(** A pipeline whose printer is registered and whose ticket, temp file,
    download and submission succeed makes its calls up to [Print] and enters
    the loop with the empty pair and the removal of the temp file deferred. *)
Lemma processJob_polls `{Lib} pm job printer options pdfFile cupsJobID ticks :
  gcpPrintersByGCPID pm !! GCPPrinterID job = Some printer →
  processJob pm {| w_Ticket := inr options; w_CreateTempFile := inr pdfFile;
                   w_Download := None; w_Print := inr cupsJobID;
                   w_GetJobStatus := ticks |} job =
  before [Ticket (TicketURL job); CreateTempFile; Acquire DownloadSemaphore;
          Download pdfFile (FileURL job); Release DownloadSemaphore;
          CloseFile pdfFile;
          Print (Name printer) pdfFile ("gcp:" +:+ GCPJobID job)
                (if negb (jobFullUsername pm)
                 then default "" (head (strings_Split (OwnerID job) "@"))
                 else OwnerID job) options]
    (pollLoop pm job cupsJobID [Remove pdfFile] "" "" ticks).
Proof. intros Hp. unfold processJob. rewrite Hp. reflexivity. Qed.

(** C6: take a pipeline that has submitted its job (printer registered,
    ticket, temp file, download and submission succeeded) and let CUPS answer
    the status queries with the observations [pre], all in progress, then
    [o], then anything.  Before the first tick the pipeline has reported
    nothing; after [pre] it has not returned; the next tick appends to its
    calls the status query and a [Control] report exactly when the projected
    pair of [o] differs from the pair reported last (the pair of the last
    [Control] among the calls so far, the empty pair when there is none), so
    the first observation is reported unless it projects to the empty pair
    itself; when [o] does not project to in progress the pipeline returns at
    that tick and later answers of CUPS are never looked at; and whatever the
    services answer, a report of a status other than in progress is the last
    report of a pipeline. *)
Theorem processJob_reports_changes `{Lib} (pm : PrinterManager) (job : Job)
    (printer : Printer) (options : Options) (pdfFile : string) (cupsJobID : Z)
    (pre : list (CUPSJobStatus * string)) (o : CUPSJobStatus * string)
    (rest : list (result (CUPSJobStatus * string))) :
  gcpPrintersByGCPID pm !! GCPPrinterID job = Some printer →
  allInProgress pre →
  let pipeline := λ ticks,
    processJob pm {| w_Ticket := inr options; w_CreateTempFile := inr pdfFile;
                     w_Download := None; w_Print := inr cupsJobID;
                     w_GetJobStatus := ticks |} job in
  let sofar := trace (pipeline (inr <$> pre)) in
  reports (trace (pipeline [])) = [] ∧
  returned (pipeline (inr <$> pre)) = false ∧
  trace (pipeline ((inr <$> pre) ++ [inr o])) =
    sofar ++ tickCalls job cupsJobID [Remove pdfFile] (lastReported ("", "") sofar) o ∧
  ((GCPStatus o.1, o.2) ≠ ("", "") →
     head (reports (trace (pipeline (inr o :: rest)))) = Some (GCPStatus o.1, o.2)) ∧
  (GCPStatus o.1 ≠ JobInProgress →
     returned (pipeline ((inr <$> pre) ++ inr o :: rest)) = true ∧
     pipeline ((inr <$> pre) ++ inr o :: rest) = pipeline ((inr <$> pre) ++ [inr o])) ∧
  (∀ w, terminal_report_is_last (reports (trace (processJob pm w job)))).
Proof.
  intros Hp Hpre pipeline sofar. unfold sofar, pipeline.
  rewrite !(processJob_polls _ _ _ _ _ _ _ Hp).
  split; [reflexivity|]. split; [by apply pollLoop_continues|].
  split; [|split; [|split]].
  - cbn [trace before]. rewrite pollLoop_snoc by done.
    rewrite lastReported_app, app_assoc. reflexivity.
  - intros Hne. destruct o as [s m]. cbn [pollLoop trace before fst snd] in *.
    rewrite changed_iff. by case_decide.
  - intros Hs. destruct o as [s m].
    destruct (pollLoop_stops pm job cupsJobID [Remove pdfFile] "" "" pre s m rest
                Hpre Hs) as [Hret Heq].
    split; [exact Hret|]. by rewrite Heq.
  - intros w. apply in_progress_then_one_last, processJob_reports.
Qed.

Lemma processJob_reports_changes_witness :
  reports (trace (processJob pmHP worldS6 jobJ1)) =
  [("IN_PROGRESS", "q"); ("IN_PROGRESS", "printing"); ("DONE", "")].
Proof.
  assert (Hpre : allInProgress
            [(JobPending, "q"); (JobPending, "q"); (JobProcessing, "printing")])
    by (by repeat constructor).
  destruct (processJob_reports_changes (H := ippLib) pmHP jobJ1 printerHP
              [("copies", "1")] "/tmp/cups-1" 42 _ (JobCompleted, "") []
              eq_refl Hpre) as (_ & _ & Htrace & _).
  refine (eq_trans (f_equal reports Htrace) _). vm_compute. reflexivity.
Defined.

(** ** The printer reconciler *)

(** An empty emission is the zero printer. *)
Lemma applyDiff_empty pm w diff :
  emits_empty w diff = true → (applyDiff pm w diff).2 = emptyPrinter.
Proof.
  unfold emits_empty, applyDiff.
  destruct (diffOperation diff); try done.
  - destruct (w_GetPPD w); [done|]. by destruct (w_Register w).
  - by destruct (w_Delete w).
Qed.

(** Any other emission carries the local name of the diff's printer. *)
Lemma applyDiff_named pm w diff :
  emits_empty w diff = false →
  Name (applyDiff pm w diff).2 = Name (diffPrinter diff).
Proof.
  unfold emits_empty, applyDiff.
  destruct (diffOperation diff); try done.
  - destruct (w_GetPPD w); [done|]. by destruct (w_Register w).
  - destruct (CapsHashChanged diff); [|done]. by destruct (w_GetPPD w).
Qed.

Lemma collect_lookup (m : gmap string Printer) (p : Printer) (k : string) :
  collect m p !! k =
    if decide (Name p ≠ "" ∧ GCPID p = k) then Some p else m !! k.
Proof.
  unfold collect. destruct (String.eqb_spec (Name p) "") as [Hn|Hn].
  - rewrite decide_False; [done|]. by intros [Hne _].
  - rewrite lookup_insert. destruct (decide (GCPID p = k)) as [Hk|Hk].
    + by rewrite decide_True.
    + rewrite decide_False; [done|]. by intros [_ Heq].
Qed.

(** An entry of the map that the collecting loop builds is either an entry
    it started from or a non-empty result under its own GCP id. *)
Lemma foldl_collect_lookup (rs : list Printer) (m : gmap string Printer) k p :
  foldl collect m rs !! k = Some p →
  m !! k = Some p ∨ (p ∈ kept rs ∧ GCPID p = k).
Proof.
  revert m. induction rs as [|r rs IH]; intros m Hk; simpl in Hk; [by left|].
  apply IH in Hk as [Hk|[Hin Hid]].
  - rewrite collect_lookup in Hk. case_decide as Hd; [|by left].
    destruct Hd as [Hn Hid]. simplify_eq. right. split; [|done].
    apply list_elem_of_filter. split; [done|]. by left.
  - right. split; [|done]. apply list_elem_of_filter in Hin as [Hn Hin].
    apply list_elem_of_filter. split; [done|]. by right.
Qed.

(** Every non-empty result leaves an entry under its GCP id. *)
Lemma foldl_collect_is_Some (rs : list Printer) (m : gmap string Printer) k :
  is_Some (m !! k) ∨ (∃ p, p ∈ kept rs ∧ GCPID p = k) →
  is_Some (foldl collect m rs !! k).
Proof.
  revert m. induction rs as [|r rs IH]; intros m Hk; simpl.
  - destruct Hk as [Hk|(p & Hin & _)]; [done|]. by apply elem_of_nil in Hin.
  - apply IH. destruct Hk as [Hk|(p & Hin & Hid)].
    + left. rewrite collect_lookup. by case_decide.
    + apply list_elem_of_filter in Hin as [Hn Hin].
      apply elem_of_cons in Hin as [->|Hin].
      * left. rewrite collect_lookup. by rewrite decide_True.
      * right. exists p. split; [|done]. by apply list_elem_of_filter.
Qed.

Lemma kept_cons (r : Printer) (rs : list Printer) :
  kept (r :: rs) = if decide (Name r ≠ "") then r :: kept rs else kept rs.
Proof. unfold kept. rewrite filter_cons. by case_decide. Qed.

(** With pairwise distinct GCP ids, the map grows by one entry per non-empty
    result. *)
Lemma foldl_collect_size (rs : list Printer) (m : gmap string Printer) :
  NoDup (GCPID <$> kept rs) →
  (∀ p, p ∈ kept rs → m !! GCPID p = None) →
  size (foldl collect m rs) = size m + length (kept rs).
Proof.
  revert m. induction rs as [|r rs IH]; intros m Hnd Hfresh; simpl; [by rewrite Nat.add_0_r|].
  rewrite kept_cons in Hnd, Hfresh |- *. unfold collect.
  destruct (String.eqb_spec (Name r) "") as [Hn|Hn].
  - rewrite decide_False in Hnd, Hfresh |- * by naive_solver. by apply IH.
  - rewrite decide_True in Hnd, Hfresh |- * by done.
    rewrite fmap_cons in Hnd. apply NoDup_cons in Hnd as [Hr Hnd].
    rewrite IH; [|done|].
    + rewrite map_size_insert_None; [simpl; lia|]. apply Hfresh. by left.
    + intros p Hp. rewrite lookup_insert_ne.
      * apply Hfresh. by right.
      * intros Heq. apply Hr. rewrite Heq. by apply list_elem_of_fmap_2.
Qed.

Lemma omap_lookup_seq {A} (l1 l2 : list A) :
  omap (λ i, (l1 ++ l2) !! i) (seq (length l1) (length l2)) = l2.
Proof.
  revert l1. induction l2 as [|x l2 IH]; intros l1; [done|].
  simpl. rewrite list_lookup_middle by done. f_equal.
  specialize (IH (l1 ++ [x])). rewrite <- app_assoc, length_app in IH. simpl in IH.
  by rewrite Nat.add_1_r in IH.
Qed.

(** The collecting loop receives what the goroutines send, in some order. *)
Lemma received_Permutation pm w diffs :
  w_arrival w ≡ₚ seq 0 (length diffs) →
  received pm w diffs ≡ₚ emitted pm w diffs.
Proof.
  intros Harr. unfold received. rewrite Harr.
  replace (length diffs) with (length (emitted pm w diffs))
    by (unfold emitted; apply length_imap).
  pose proof (omap_lookup_seq [] (emitted pm w diffs)) as Hseq. simpl in Hseq.
  by rewrite Hseq.
Qed.

Lemma emitted_lookup pm w diffs i p :
  emitted pm w diffs !! i = Some p ↔
  ∃ d, diffs !! i = Some d ∧ p = (applyDiff pm (w_applyDiff w i) d).2.
Proof.
  unfold emitted. rewrite list_lookup_imap.
  destruct (diffs !! i) as [d|]; simpl; split.
  - intros [= <-]. by exists d.
  - by intros (d' & [= <-] & ->).
  - done.
  - by intros (d' & Hd & _).
Qed.

(** C5: when CUPS answers and the diff is not nil, the registry that the
    pass publishes holds exactly the non-empty results of [applyDiff], each
    under its GCP id, and as many entries as there are non-empty results; a
    diff whose [applyDiff] emits the empty printer (a Register whose [GetPPD]
    or [Register] fails, any Delete) contributes no entry, and its GCP id is
    absent unless a non-empty result carries the same id.  The printers of
    the diffs have local names, and GCP ids are unique among the non-empty
    results, as the data model has it. *)
Theorem syncPrinters_registry (pm : PrinterManager) (w : SyncWorld)
    (cupsPrinters : list Printer) (diffs : list PrinterDiff) :
  w_GetPrinters w = inr cupsPrinters →
  w_DiffPrinters w cupsPrinters (printerMapToSlice (gcpPrintersByGCPID pm)) = Some diffs →
  w_arrival w ≡ₚ seq 0 (length diffs) →
  (∀ d, d ∈ diffs → Name (diffPrinter d) ≠ "") →
  NoDup (GCPID <$> kept (emitted pm w diffs)) →
  let registry := gcpPrintersByGCPID (syncPrinters pm w) in
  let out := λ i d, (applyDiff pm (w_applyDiff w i) d).2 in
  (∀ k p, registry !! k = Some p ↔
     GCPID p = k ∧
     ∃ i d, diffs !! i = Some d ∧ emits_empty (w_applyDiff w i) d = false ∧
            out i d = p) ∧
  size registry = length (kept (emitted pm w diffs)) ∧
  (∀ i d, diffs !! i = Some d → emits_empty (w_applyDiff w i) d = true →
     out i d = emptyPrinter ∧
     ((∀ j d', diffs !! j = Some d' → emits_empty (w_applyDiff w j) d' = false →
               GCPID (out j d') ≠ GCPID (diffPrinter d)) →
      registry !! GCPID (diffPrinter d) = None)).
Proof.
  intros Hcups Hdiffs Harr Hnamed Hnd registry out.
  assert (Hreg : registry = foldl collect ∅ (received pm w diffs)).
  { unfold registry, syncPrinters. by rewrite Hcups, Hdiffs. }
  pose proof (received_Permutation pm w diffs Harr) as Hperm.
  assert (Hkept : ∀ p, p ∈ kept (received pm w diffs) ↔
            ∃ i d, diffs !! i = Some d ∧
                   emits_empty (w_applyDiff w i) d = false ∧ out i d = p).
  { intros p. unfold kept. rewrite Hperm, list_elem_of_filter, list_elem_of_lookup.
    split.
    - intros [Hn [i Hi]]. apply emitted_lookup in Hi as (d & Hd & ->).
      exists i, d. repeat split; [done|].
      destruct (emits_empty (w_applyDiff w i) d) eqn:He; [|done].
      by rewrite (applyDiff_empty pm _ _ He) in Hn.
    - intros (i & d & Hd & He & <-). split.
      + unfold out. rewrite applyDiff_named by done.
        apply Hnamed. by eapply list_elem_of_lookup_2.
      + exists i. apply emitted_lookup. by exists d. }
  assert (Hnd' : NoDup (GCPID <$> kept (received pm w diffs))).
  { unfold kept. by rewrite Hperm. }
  assert (Hentries : ∀ k p, registry !! k = Some p ↔
            GCPID p = k ∧ p ∈ kept (received pm w diffs)).
  { intros k p. rewrite Hreg. split.
    - intros Hk. apply foldl_collect_lookup in Hk as [Hk|[Hin Hid]]; [done|].
      by split.
    - intros [Hid Hin].
      destruct (foldl_collect_is_Some (received pm w diffs) ∅ k) as [q Hq].
      { right. by exists p. }
      rewrite Hq. f_equal.
      apply foldl_collect_lookup in Hq as [Hq|[Hqin Hqid]]; [done|].
      assert (Hinj : ∀ l : list Printer, NoDup (GCPID <$> l) →
                q ∈ l → p ∈ l → GCPID q = GCPID p → q = p).
      { clear. intros l. induction l as [|x l IH]; intros Hnd Hq Hp Heq.
        - by apply elem_of_nil in Hq.
        - rewrite fmap_cons in Hnd. apply NoDup_cons in Hnd as [Hx Hnd].
          apply elem_of_cons in Hq as [->|Hq], Hp as [->|Hp]; [done| | |by apply IH].
          + exfalso. apply Hx. rewrite Heq. by apply list_elem_of_fmap_2.
          + exfalso. apply Hx. rewrite <- Heq. by apply list_elem_of_fmap_2. }
      apply (Hinj _ Hnd'); congruence. }
  split; [|split].
  - intros k p. rewrite Hentries. by rewrite Hkept.
  - rewrite Hreg, foldl_collect_size; [|done|by intros].
    rewrite map_size_empty. simpl. unfold kept. by rewrite Hperm.
  - intros i d Hd He. split; [by apply applyDiff_empty|].
    intros Hother. destruct (registry !! GCPID (diffPrinter d)) as [p|] eqn:Hp; [|done].
    apply Hentries in Hp as [Hid Hin]. apply Hkept in Hin as (j & d' & Hd' & He' & <-).
    by destruct (Hother j d' Hd' He').
Qed.

Lemma syncPrinters_registry_witness :
  size (gcpPrintersByGCPID (syncPrinters pmHP worldPass)) = 2 ∧
  gcpPrintersByGCPID (syncPrinters pmHP worldPass) !! "r3" = None.
Proof.
  destruct (syncPrinters_registry pmHP worldPass [printerHP; printerCanon]
    [ {| diffOperation := LeavePrinter; diffPrinter := printerHP;
         CapsHashChanged := false |};
      {| diffOperation := RegisterPrinter; diffPrinter := printerCanon;
         CapsHashChanged := false |};
      {| diffOperation := DeletePrinter; diffPrinter := printerGone;
         CapsHashChanged := false |} ]) as (_ & Hsize & Hempty).
  - reflexivity.
  - reflexivity.
  - apply (Permutation_cons_append [0; 1] 2).
  - intros d Hd.
    repeat (apply elem_of_cons in Hd as [->|Hd]; [done|]).
    by apply elem_of_nil in Hd.
  - refine (bool_decide_unpack _ _). vm_compute. exact I.
  - split; [exact Hsize|].
    refine (proj2 (Hempty 2 _ eq_refl eq_refl) _).
    intros j d' Hj He.
    destruct j as [|[|[|j]]]; simpl in Hj; simplify_eq; done.
Defined.

(** ** Pipelines running concurrently: the per-printer semaphore *)

Lemma printerSemaphoreCalls_app tr1 tr2 :
  printerSemaphoreCalls (tr1 ++ tr2) =
  printerSemaphoreCalls tr1 ++ printerSemaphoreCalls tr2.
Proof. apply omap_app. Qed.

Lemma before_printerSemaphoreCalls evs r :
  printerSemaphoreCalls evs = [] → printerSemaphoreCalls (trace r) = [] →
  printerSemaphoreCalls (trace (before evs r)) = [].
Proof.
  intros Hev Hr. simpl. by rewrite printerSemaphoreCalls_app, Hev, Hr.
Qed.

Lemma pollLoop_printerSemaphoreCalls `{Lib} pm job cupsJobID deferred status
    message ticks :
  printerSemaphoreCalls deferred = [] →
  printerSemaphoreCalls
    (trace (pollLoop pm job cupsJobID deferred status message ticks)) = [].
Proof.
  intros Hd. revert status message.
  induction ticks as [|[err|[s m]] ticks IH]; intros status message; simpl.
  - done.
  - done.
  - apply before_printerSemaphoreCalls.
    { simpl. by destruct (_ || _). }
    destruct (negb (String.eqb (GCPStatus s) JobInProgress)); [|apply IH].
    by destruct (String.eqb (GCPStatus s) JobDone).
Qed.

(** No pipeline ever acquires or releases a per-printer semaphore. *)
Lemma processJob_printerSemaphoreCalls `{Lib} pm w job :
  printerSemaphoreCalls (trace (processJob pm w job)) = [].
Proof.
  unfold processJob.
  destruct (gcpPrintersByGCPID pm !! GCPPrinterID job) as [printer|]; [|done].
  destruct (w_Ticket w) as [err|options]; [done|].
  destruct (w_CreateTempFile w) as [err|pdfFile]; [done|].
  destruct (w_Download w) as [err|]; [done|].
  destruct (w_Print w) as [err|cupsJobID]; [done|].
  repeat (apply before_printerSemaphoreCalls; [done|]).
  by apply pollLoop_printerSemaphoreCalls.
Qed.

(** C2 (the code at the failing input): two jobs for the printer [r7], whose
    semaphore has capacity 1.  Both pipelines run up to their first status
    report; both are then past the ticket fetch and before any terminal
    report, no call has blocked, and the semaphore of [r7] has no holder. *)
Theorem two_jobs_in_flight_on_one_slot :
  semSize pmHP (PrinterSemaphore "r7") = 1%Z ∧
  (pool ← schedule pmHP (replicate 9 0 ++ replicate 9 1)
            (spawnPipelines pmHP [(worldPrinting, jobJ1); (worldPrinting, jobJ2)]);
   Some (inFlightOn "r7" pool, holders pool (PrinterSemaphore "r7"),
         printOwners ((workers pool) ≫= executed)))
  = Some (2, 0%Z, ["alice"; "bob"]).
Proof. split; vm_compute; reflexivity. Qed.

(** ** The goroutines of the manager *)

(** *** Running the transition system *)

Lemma head_elem_of {A} (l : list A) (x : A) : head l = Some x → x ∈ l.
Proof. destruct l; intros Hx; simplify_eq/=. by left. Qed.

Lemma perform_step {go : Go} a s s' : perform a s = Some s' → step s s'.
Proof.
  destruct a as [i|i j]; simpl.
  - destruct (threads s !! i) as [t|] eqn:Ht; simpl; [|done].
    destruct (head (local (shared s) t)) as [[sh' t']|] eqn:Hl; simpl; [|done].
    intros [= <-]. eapply step_local; [done|]. by apply head_elem_of.
  - case_decide as Hij; [done|].
    destruct (threads s !! i) as [t1|] eqn:Ht1; simpl; [|done].
    destruct (threads s !! j) as [t2|] eqn:Ht2; simpl; [|done].
    destruct (offers t1) as [|[c v t1'|] [|]] eqn:Ho1; try done.
    intros Hs'. apply head_elem_of, list_elem_of_omap in Hs' as (o & Ho & Hs').
    destruct o as [|c' k]; [done|]. case_decide as Hc; [|done].
    simplify_eq. eapply step_sync; [done..| |done|done].
    rewrite Ho1. by left.
Qed.

Lemma performAll_steps {go : Go} acts s s' : performAll acts s = Some s' → rtc step s s'.
Proof.
  revert s. induction acts as [|a acts IH]; intros s; simpl.
  - by intros [= <-].
  - destruct (perform a s) as [s1|] eqn:Ha; simpl; [|done].
    intros Hs'. apply (rtc_l _ _ s1); [by apply (perform_step a)|by apply IH].
Qed.

(** *** Threads keep their kind *)

Lemma local_kind {go : Go} sh t sh' t' : (sh', t') ∈ local sh t → kind t' = kind t.
Proof.
  destruct t as [q|[]|[|addr [|j rest]|]|c|pc]; simpl; intros Hin;
    repeat match goal with
    | H : _ ∈ [] |- _ => by apply elem_of_nil in H
    | H : _ ∈ _ :: _ |- _ => apply elem_of_cons in H as [H|H]; simplify_eq
    | H : _ ∈ match ?x with _ => _ end |- _ => destruct x
    end; done.
Qed.

Lemma send_kind c v t t' : OSend c v t' ∈ offers t → kind t' = kind t.
Proof.
  destruct t as [[]|[]|[]|[]|pc]; simpl; intros Hin;
    repeat match goal with
    | H : _ ∈ [] |- _ => by apply elem_of_nil in H
    | H : _ ∈ _ :: _ |- _ => apply elem_of_cons in H as [H|H]; simplify_eq
    end; done.
Qed.

Lemma recv_kind c k v t :
  ORecv c k ∈ offers t →
  kind (k v).1 = kind t ∧ kind <$> (k v).2 = replicate (length (k v).2) KPipeline.
Proof.
  destruct t as [[]|[]|[]|[]|pc]; simpl; intros Hin;
    repeat match goal with
    | H : _ ∈ [] |- _ => by apply elem_of_nil in H
    | H : _ ∈ _ :: _ |- _ => apply elem_of_cons in H as [H|H]; simplify_eq
    end; try done.
  by destruct v.
Qed.

Lemma insert_same_kind (l : list Thread) i t t' :
  l !! i = Some t → kind t' = kind t → kind <$> <[i := t']> l = kind <$> l.
Proof.
  intros Hi Hk. rewrite list_fmap_insert, Hk. apply list_insert_id.
  by rewrite list_lookup_fmap, Hi.
Qed.

(** A step changes no thread's kind and only adds pipelines. *)
Lemma step_kinds {go : Go} s s' :
  step s s' →
  ∃ n, kind <$> threads s' = (kind <$> threads s) ++ replicate n KPipeline.
Proof.
  intros [i t sh' t' Hi Hl|i j c v t1 t1' t2 k Hij Hi Hs Hj Hr]; simpl.
  - exists 0. rewrite app_nil_r. eapply insert_same_kind; [done|].
    by eapply local_kind.
  - destruct (recv_kind c k v t2 Hr) as [Hk Hnew].
    exists (length (k v).2). rewrite fmap_app, Hnew. f_equal.
    rewrite (insert_same_kind _ j t2).
    + eapply insert_same_kind; [done|]. by eapply send_kind.
    + by rewrite list_lookup_insert_ne.
    + done.
Qed.

Lemma steps_kinds {go : Go} s s' :
  rtc step s s' →
  ∃ n, kind <$> threads s' = (kind <$> threads s) ++ replicate n KPipeline.
Proof.
  induction 1 as [s|s s1 s2 Hstep _ [n IH]].
  - exists 0. by rewrite app_nil_r.
  - destruct (step_kinds _ _ Hstep) as [m Hm].
    exists (m + n). by rewrite IH, Hm, <- app_assoc, replicate_add.
Qed.

(** *** Where the threads of the next state come from *)

Lemma lookup_sync (l new : list Thread) i j x y n :
  n < length l →
  (<[j := y]> (<[i := x]> l) ++ new) !! n =
    if decide (n = j) then Some y
    else if decide (n = i) then Some x else l !! n.
Proof.
  intros Hn. rewrite lookup_app_l by (by rewrite !length_insert).
  case_decide as Hj.
  - subst. by rewrite list_lookup_insert_eq by (by rewrite length_insert).
  - rewrite list_lookup_insert_ne by done. case_decide as Hi.
    + subst. by rewrite list_lookup_insert_eq.
    + by rewrite list_lookup_insert_ne.
Qed.

Lemma step_origin {go : Go} s s' n t' :
  step s s' → threads s' !! n = Some t' → Origin s n t'.
Proof.
  intros [i t sh' t1 Hi Hl|i j c v t1 t1' t2 k Hij Hi Hs Hj Hr]; simpl; intros Hn.
  - destruct (decide (n = i)) as [->|Hne].
    + rewrite list_lookup_insert_eq in Hn by (by eapply lookup_lt_Some).
      simplify_eq. by apply (origin_local _ _ _ t sh').
    + rewrite list_lookup_insert_ne in Hn by done. by apply origin_same.
  - destruct (decide (n < length (threads s))) as [Hlt|Hge].
    + rewrite lookup_sync in Hn by done.
      repeat case_decide; simplify_eq.
      * by apply (origin_recv _ _ _ t2 c k i t1 v t1').
      * by apply (origin_send _ _ _ t1 c v).
      * by apply origin_same.
    + rewrite lookup_app_r in Hn by (rewrite !length_insert; lia).
      apply (origin_spawn _ _ _ j t2 c k v); [done..|].
      by eapply list_elem_of_lookup_2.
Qed.

(** A thread with nothing left to do stays as it is. *)
Lemma step_stuck {go : Go} s s' n t :
  step s s' → threads s !! n = Some t →
  offers t = [] → (∀ sh, local sh t = []) →
  threads s' !! n = Some t.
Proof.
  intros [i t0 sh' t1 Hi Hl|i j c v t1 t1' t2 k Hij Hi Hs Hj Hr] Hn Ho Hloc; simpl.
  - destruct (decide (n = i)) as [->|Hne].
    + simplify_eq. rewrite Hloc in Hl. by apply elem_of_nil in Hl.
    + by rewrite list_lookup_insert_ne.
  - rewrite lookup_sync by (by eapply lookup_lt_Some).
    repeat case_decide; simplify_eq; [| |done].
    + rewrite Ho in Hr. by apply elem_of_nil in Hr.
    + rewrite Ho in Hs. by apply elem_of_nil in Hs.
Qed.

(** Case analysis on the offers and the local steps of a thread. *)
Ltac inv_elem :=
  repeat match goal with
  | H : _ ∈ [] |- _ => by apply elem_of_nil in H
  | H : _ ∈ _ :: _ |- _ => apply elem_of_cons in H as [H|H]; simplify_eq
  | H : _ ∈ match @loopVar ?go with PerLoop => _ | PerIteration => _ end |- _ =>
      destruct go; cbv [loopVar] in H
  end.

Ltac inv_thread t :=
  destruct t as [[]|[]|[|? [|? ?]|]|[]|?]; simpl in *; inv_elem.

(** *** The intake loop never stops *)

Lemma step_consumers_select {go : Go} s s' :
  step s s' → consumers_select s → consumers_select s'.
Proof.
  intros Hstep Hinv n t' Hn Hk.
  destruct (step_origin _ _ _ _ Hstep Hn)
    as [Hsame|t sh' Ht Hl|t c v Ht Hs|t c k i t1 v t1' Ht Hr Hi Hs ->|j t c k v Ht Hr Hin].
  - by eapply Hinv.
  - assert (t = TConsumer ConsSelect) as ->.
    { eapply Hinv; [done|]. by rewrite <- (local_kind _ _ _ _ Hl). }
    by apply elem_of_nil in Hl.
  - assert (t = TConsumer ConsSelect) as ->.
    { eapply Hinv; [done|]. by rewrite <- (send_kind _ _ _ _ Hs). }
    simpl in Hs. inv_elem.
  - assert (t = TConsumer ConsSelect) as ->.
    { eapply Hinv; [done|]. by rewrite <- (proj1 (recv_kind _ _ v _ Hr)). }
    simpl in Hr. inv_elem; [done|].
    assert (t1 = TConsumer ConsAck) as -> by (by inv_thread t1).
    by discriminate (Hinv _ _ Hi eq_refl).
  - destruct (recv_kind _ _ v _ Hr) as [_ Hnew].
    apply (list_elem_of_fmap_2 kind) in Hin. rewrite Hnew in Hin.
    apply elem_of_replicate in Hin as [Hin _]. congruence.
Qed.

Lemma started_consumers_select callers jobBatches :
  consumers_select (started callers jobBatches).
Proof.
  intros n t Hn Hk. simpl in Hn.
  destruct n as [|[|[|n]]]; simplify_eq/=; try done.
  apply lookup_replicate in Hn as [-> _]. done.
Qed.

Lemma steps_consumers_select {go : Go} s s' :
  rtc step s s' → consumers_select s → consumers_select s'.
Proof. induction 1; eauto using step_consumers_select. Qed.

(** *** The stop handshake *)

Lemma lifecycle_kinds_step {go : Go} s s' :
  step s s' → lifecycle_kinds (kind <$> threads s) →
  lifecycle_kinds (kind <$> threads s').
Proof.
  intros Hstep [n Hk]. destruct (step_kinds _ _ Hstep) as [m Hm].
  exists (n + m). by rewrite Hm, Hk, <- app_assoc, replicate_add.
Qed.

Lemma lifecycle_quit_index s n q :
  lifecycle_kinds (kind <$> threads s) → threads s !! n = Some (TQuit q) → n = 3.
Proof.
  intros [m Hk] Hn.
  assert (Hkn : (kind <$> threads s) !! n = Some KQuit)
    by (by rewrite list_lookup_fmap, Hn).
  rewrite Hk in Hkn. destruct n as [|[|[|[|n]]]]; simplify_eq/=; try done.
  by apply lookup_replicate in Hkn as [? _].
Qed.

Lemma lifecycle_reconciler_index s n r :
  lifecycle_kinds (kind <$> threads s) → threads s !! n = Some (TReconciler r) →
  n = 0.
Proof.
  intros [m Hk] Hn.
  assert (Hkn : (kind <$> threads s) !! n = Some KReconciler)
    by (by rewrite list_lookup_fmap, Hn).
  rewrite Hk in Hkn. destruct n as [|[|[|[|n]]]]; simplify_eq/=; try done.
  by apply lookup_replicate in Hkn as [? _].
Qed.

Lemma quit_handshake_step {go : Go} s s' : step s s' → quit_handshake s → quit_handshake s'.
Proof.
  intros Hstep (Hk & q & r & Hq & Hr & Hh).
  split; [by eapply lifecycle_kinds_step|].
  pose proof (lookup_lt_Some _ _ _ Hq) as Hlen3.
  pose proof (lookup_lt_Some _ _ _ Hr) as Hlen0.
  destruct Hstep as [i t sh' t' Hi Hl|i j c v t1 t1' t2 k Hij Hi Hs Hj Hrecv];
    cbn [threads].
  - destruct (decide (i = 0)) as [->|Hi0]; [|destruct (decide (i = 3)) as [->|Hi3]].
    + simplify_eq. exists q.
      rewrite list_lookup_insert_ne by done.
      rewrite list_lookup_insert_eq by done.
      destruct r; simpl in Hl; inv_elem; eexists; (split; [done|]); (split; [done|]);
        destruct q; simpl in Hh |- *; try done; first [by left | by right].
    + simplify_eq. simpl in Hl. inv_elem.
    + exists q, r. by rewrite !list_lookup_insert_ne.
  - rewrite !lookup_sync by done.
    assert (Hi3 : ∀ pc, t1 = TQuit pc → i = 3)
      by (intros pc ->; by eapply lifecycle_quit_index).
    assert (Hj3 : ∀ pc, t2 = TQuit pc → j = 3)
      by (intros pc ->; by eapply lifecycle_quit_index).
    assert (Hi0 : ∀ pc, t1 = TReconciler pc → i = 0)
      by (intros pc ->; by eapply lifecycle_reconciler_index).
    assert (Hj0 : ∀ pc, t2 = TReconciler pc → j = 0)
      by (intros pc ->; by eapply lifecycle_reconciler_index).
    inv_thread t1; inv_thread t2;
      repeat match goal with
      | H : ∀ pc, TQuit _ = TQuit pc → _ |- _ => specialize (H _ eq_refl)
      | H : ∀ pc, TReconciler _ = TReconciler pc → _ |- _ => specialize (H _ eq_refl)
      | H : ∀ pc, _ = _ → _ |- _ => clear H
      end; simplify_eq/=.
    + exists QuitRecv, RecAck. by repeat split.
    + exists QuitReturned, RecReturned. by repeat split.
    + exists q, r.
      destruct (decide (3 = j)) as [<-|]; [simplify_eq|].
      destruct (decide (3 = i)) as [<-|]; [simplify_eq|].
      destruct (decide (0 = j)) as [<-|]; [simplify_eq|].
      destruct (decide (0 = i)) as [<-|]; [simplify_eq|]. done.
    + exists q, r.
      destruct (decide (3 = j)) as [<-|]; [simplify_eq|].
      destruct (decide (3 = i)) as [<-|]; [simplify_eq|].
      destruct (decide (0 = j)) as [<-|]; [simplify_eq|].
      destruct (decide (0 = i)) as [<-|]; [simplify_eq|]. done.
Qed.

Lemma started_quit_handshake jobBatches : quit_handshake (started 1 jobBatches).
Proof.
  split; [by exists 0|]. exists QuitSend, RecSelect. repeat split. by left.
Qed.

Lemma steps_quit_handshake {go : Go} s s' : rtc step s s' → quit_handshake s → quit_handshake s'.
Proof. induction 1; eauto using quit_handshake_step. Qed.

(** Once the reconciler loop has returned, no step begins a pass. *)
Lemma reconciler_returned_step {go : Go} s s' :
  step s s' → lifecycle_kinds (kind <$> threads s) →
  threads s !! 0 = Some (TReconciler RecReturned) →
  passes (shared s') = passes (shared s).
Proof.
  intros [i t sh' t' Hi Hl|i j c v t1 t1' t2 k Hij Hi Hs Hj Hrecv] Hk Hr;
    cbn [shared]; [|done].
  assert (Hi0 : ∀ pc, t = TReconciler pc → i = 0)
    by (intros pc ->; by eapply lifecycle_reconciler_index).
  inv_thread t; try done.
  - specialize (Hi0 _ eq_refl). simplify_eq.
  - destruct (batches (shared s)); inv_elem. done.
  - destruct (_ ≫= _); inv_elem. done.
Qed.

Lemma steps_after_return {go : Go} s s' :
  rtc step s s' → lifecycle_kinds (kind <$> threads s) →
  threads s !! 0 = Some (TReconciler RecReturned) →
  threads s !! 3 = Some (TQuit QuitReturned) →
  passes (shared s') = passes (shared s) ∧
  threads s' !! 0 = Some (TReconciler RecReturned) ∧
  threads s' !! 3 = Some (TQuit QuitReturned).
Proof.
  induction 1 as [s|s s1 s2 Hstep _ IH]; intros Hk Hr Hq; [done|].
  destruct IH as (Hp & Hr' & Hq').
  - by eapply lifecycle_kinds_step.
  - by eapply step_stuck.
  - by eapply step_stuck.
  - split; [|done]. rewrite Hp. by eapply reconciler_returned_step.
Qed.

(** C8: [Quit] first offers a send on the printer-poll stop channel.  In
    every state that a started manager reaches, if the one call of [Quit] has
    returned then the reconciler loop has returned too: it has received the
    stop signal and sent its acknowledgement.  From then on the number of
    reconciliation passes begun stays what it is. *)
Theorem Quit_returns_after_handshake {go : Go} (jobBatches : list (list Job)) (s : System) :
  rtc step (started 1 jobBatches) s →
  threads s !! 3 = Some (TQuit QuitReturned) →
  offers (TQuit QuitSend) = [OSend printerPollQuit VTrue (TQuit QuitRecv)] ∧
  threads s !! 0 = Some (TReconciler RecReturned) ∧
  ∀ s', rtc step s s' →
        passes (shared s') = passes (shared s) ∧
        threads s' !! 3 = Some (TQuit QuitReturned).
Proof.
  intros Hreach Hq. split; [done|].
  destruct (steps_quit_handshake _ _ Hreach (started_quit_handshake _))
    as (Hk & q & r & Hq' & Hr & Hh).
  simplify_eq. simpl in Hh. subst r. split; [done|].
  intros s' Hs'. destruct (steps_after_return _ _ Hs' Hk Hr Hq) as (Hp & _ & Hq').
  by split.
Qed.

Lemma Quit_returns_after_handshake_witness :
  let s := {| shared := {| heap := []; passes := 1; batches := [] |};
              threads := [TReconciler RecReturned; TProducer ProdCall;
                          TConsumer ConsSelect; TQuit QuitReturned] |} in
  rtc (step (go := PerIteration)) (started 1 []) s ∧
  threads s !! 0 = Some (TReconciler RecReturned).
Proof.
  intros s.
  assert (Hreach : rtc (step (go := PerIteration)) (started 1 []) s).
  { apply (performAll_steps [ALocal 0; ALocal 0; ASync 3 0; ASync 0 3]).
    reflexivity. }
  split; [exact Hreach|].
  exact (proj1 (proj2 (Quit_returns_after_handshake [] s Hreach eq_refl))).
Defined.

(** C10: no thread of a started manager ever offers a send on the job-intake
    stop channel, and [Quit] offers only on the printer-poll stop channel; so
    in every state the manager reaches, whether or not [Quit] has returned,
    the consumer of the intake loop is at its select, and whenever the
    producer stands at [ch <- &job] the consumer can take the job and start a
    pipeline for it. *)
Theorem intake_loop_never_stops {go : Go} (callers : nat) (jobBatches : list (list Job))
    (s : System) :
  rtc step (started callers jobBatches) s →
  (∀ q o, o ∈ offers (TQuit q) → offerChan o = printerPollQuit) ∧
  (∀ n t c v t', threads s !! n = Some t → OSend c v t' ∈ offers t →
                 c ≠ gcpJobPollQuit) ∧
  threads s !! 2 = Some (TConsumer ConsSelect) ∧
  (∀ addr cur rest,
     threads s !! 1 = Some (TProducer (ProdSend addr cur rest)) →
     step s {| shared := shared s;
               threads := <[2 := TConsumer ConsSelect]>
                            (<[1 := TProducer (ProdRange addr rest)]> (threads s))
                          ++ [TPipeline {| jobPtr := addr; spawnedFor := cur;
                                           fieldsRead := [] |}] |}).
Proof.
  intros Hreach.
  pose proof (steps_consumers_select _ _ Hreach (started_consumers_select _ _))
    as Hinv.
  assert (Hcons : threads s !! 2 = Some (TConsumer ConsSelect)).
  { destruct (steps_kinds _ _ Hreach) as [n Hk].
    assert (Hk2 : (kind <$> threads s) !! 2 = Some KConsumer) by (by rewrite Hk).
    rewrite list_lookup_fmap in Hk2.
    destruct (threads s !! 2) as [t|] eqn:Ht; simplify_eq/=.
    f_equal. by eapply Hinv. }
  split; [|split; [|split; [done|]]].
  - intros q o Ho. destruct q; simpl in Ho; inv_elem; done.
  - intros n t c v t' Hn Hs ->.
    assert (t = TConsumer ConsAck) as -> by (by inv_thread t).
    by discriminate (Hinv _ _ Hn eq_refl).
  - intros addr cur rest Hprod.
    apply (step_sync s 1 2 jobChan (VJobPtr addr cur)
             (TProducer (ProdSend addr cur rest)) (TProducer (ProdRange addr rest))
             (TConsumer ConsSelect) spawnPipeline);
      [done|done| |done|]; simpl; by left.
Qed.

Lemma intake_loop_never_stops_witness :
  let s := {| shared := {| heap := [jobJ1]; passes := 0; batches := [] |};
              threads := [TReconciler RecReturned; TProducer (ProdSend 0 jobJ1 []);
                          TConsumer ConsSelect; TQuit QuitReturned] |} in
  rtc (step (go := PerIteration)) (started 1 [[jobJ1]]) s ∧
  step (go := PerIteration) s {| shared := shared s;
            threads := [TReconciler RecReturned; TProducer (ProdRange 0 []);
                        TConsumer ConsSelect; TQuit QuitReturned;
                        TPipeline {| jobPtr := 0; spawnedFor := jobJ1;
                                     fieldsRead := [] |}] |}.
Proof.
  intros s.
  assert (Hreach : rtc (step (go := PerIteration)) (started 1 [[jobJ1]]) s).
  { apply (performAll_steps [ASync 3 0; ASync 0 3; ALocal 1; ALocal 1]).
    reflexivity. }
  split; [exact Hreach|].
  exact (proj2 (proj2 (proj2 (intake_loop_never_stops 1 [[jobJ1]] s Hreach)))
           0 jobJ1 [] eq_refl).
Defined.

(** *** The jobs and their pipelines *)

Lemma omap_insert_same {A B} (f : A → option B) (l : list A) i x y :
  l !! i = Some x → f y = f x → omap f (<[i := y]> l) = omap f l.
Proof.
  revert i. induction l as [|a l IH]; intros [|i] Hi Hf; simplify_eq/=.
  - by rewrite Hf.
  - by rewrite (IH i).
Qed.

Lemma local_pipelineJob {go : Go} sh t sh' t' :
  (sh', t') ∈ local sh t → pipelineJob t' = pipelineJob t.
Proof.
  destruct t as [q|[]|[|addr [|j rest]|]|c|pc]; simpl; intros Hin;
    repeat match goal with
    | H : _ ∈ [] |- _ => by apply elem_of_nil in H
    | H : _ ∈ _ :: _ |- _ => apply elem_of_cons in H as [H|H]; simplify_eq
    | H : _ ∈ match ?x with _ => _ end |- _ => destruct x
    end; done.
Qed.

Lemma started_kinds_step {go : Go} callers s s' :
  step s s' → started_kinds callers (kind <$> threads s) →
  started_kinds callers (kind <$> threads s').
Proof.
  intros Hstep [n Hk]. destruct (step_kinds _ _ Hstep) as [m Hm].
  exists (n + m). by rewrite Hm, Hk, <- !app_assoc, replicate_add.
Qed.

Lemma started_kinds_producer callers s i t :
  started_kinds callers (kind <$> threads s) →
  threads s !! i = Some t → kind t = KProducer → i = 1.
Proof.
  intros [n Hk] Hi Hkind.
  assert (Hki : (kind <$> threads s) !! i = Some KProducer)
    by (by rewrite list_lookup_fmap, Hi, <- Hkind).
  rewrite Hk in Hki. destruct i as [|[|[|i]]]; simplify_eq/=; [done|].
  apply list_elem_of_lookup_2, elem_of_app in Hki as [Hki|Hki];
    by apply elem_of_replicate in Hki as [? _].
Qed.

Lemma started_kinds_has_producer callers s :
  started_kinds callers (kind <$> threads s) →
  ∃ pc, threads s !! 1 = Some (TProducer pc).
Proof.
  intros [n Hk].
  assert (Hk1 : (kind <$> threads s) !! 1 = Some KProducer) by (by rewrite Hk).
  rewrite list_lookup_fmap in Hk1.
  destruct (threads s !! 1) as [[]|]; simplify_eq/=. by eexists.
Qed.

Lemma jobs_accounted_step {go : Go} callers all s s' :
  step s s' → started_kinds callers (kind <$> threads s) →
  jobs_accounted all s → jobs_accounted all s'.
Proof.
  intros Hstep Hk Hacc.
  destruct (started_kinds_has_producer _ _ Hk) as [pc Hprod].
  pose proof (lookup_lt_Some _ _ _ Hprod) as Hlen1.
  assert (Honly : ∀ i t, threads s !! i = Some t → kind t = KProducer → i = 1)
    by (intros i t; by eapply started_kinds_producer).
  unfold jobs_accounted, unsentJobs in *. rewrite Hprod in Hacc. simpl in Hacc.
  destruct Hstep as [i t sh' t' Hi Hl|i j c v t1 t1' t2 k Hij Hi Hs Hj Hrecv];
    cbn [threads shared].
  - unfold spawnedJobs.
    rewrite (omap_insert_same _ _ _ t) by (done || by eapply local_pipelineJob).
    fold (spawnedJobs (threads s)).
    destruct (decide (i = 1)) as [->|Hi1].
    + rewrite list_lookup_insert_eq by done. simplify_eq.
      destruct pc as [|addr [|job rest]|addr cur rest]; simpl in Hl.
      * destruct (batches (shared s)) as [|jobs later] eqn:Hb; inv_elem.
        simpl in *. done.
      * inv_elem. done.
      * inv_elem; done.
      * inv_elem.
    + rewrite list_lookup_insert_ne, Hprod by done. simpl.
      assert (Hbatches : batches sh' = batches (shared s)).
      { destruct t as [q|[]|[|addr [|job rest]|]|cpc|ppc]; simpl in Hl;
          try (by inv_elem); try (by specialize (Honly _ _ Hi eq_refl)).
        destruct (_ ≫= _); by inv_elem. }
      by rewrite Hbatches.
  - unfold spawnedJobs. rewrite omap_app.
    assert (Hspawn1 : pipelineJob t1' = pipelineJob t1) by (by inv_thread t1).
    rewrite lookup_sync by done.
    destruct (decide (kind t1 = KProducer)) as [Hkp|Hkp].
    + assert (i = 1) as -> by (by eapply Honly). simplify_eq.
      destruct pc as [|addr rest|addr cur rest]; simpl in Hs; inv_elem.
      assert (t2 = TConsumer ConsSelect ∧ k = spawnPipeline) as [-> ->]
        by (by inv_thread t2).
      rewrite (omap_insert_same _ _ _ (TConsumer ConsSelect))
        by (done || by rewrite list_lookup_insert_ne).
      rewrite (omap_insert_same _ _ _ (TProducer (ProdSend addr cur rest))) by done.
      fold (spawnedJobs (threads s)).
      rewrite decide_False by done. rewrite decide_True by done. simpl.
      by rewrite <- app_assoc.
    + assert (Hi1 : i ≠ 1) by (intros ->; simplify_eq; done).
      assert (Hchan : c ≠ jobChan) by (intros ->; by inv_thread t1).
      assert (Hk2 : pipelineJob (k v).1 = pipelineJob t2 ∧ (k v).2 = [] ∧
                    kind t2 ≠ KProducer).
      { inv_thread t2; done. }
      destruct Hk2 as (Hspawn2 & Hnew & Hkc).
      assert (Hj1 : j ≠ 1) by (intros ->; simplify_eq; done).
      rewrite (omap_insert_same _ _ _ t2)
        by (done || by rewrite list_lookup_insert_ne).
      rewrite (omap_insert_same _ _ _ t1) by done.
      fold (spawnedJobs (threads s)).
      rewrite Hnew, !decide_False, Hprod by done. simpl.
      by rewrite app_nil_r.
Qed.

Lemma prefix_snoc {A} (l L : list A) (v : A) :
  l `prefix_of` L → L !! length l = Some v → (l ++ [v]) `prefix_of` L.
Proof.
  intros [k ->] Hv. rewrite lookup_app_r, Nat.sub_diag in Hv by lia.
  destruct k as [|x k]; simplify_eq/=. exists k. by rewrite <- app_assoc.
Qed.

Lemma pipelines_insert_other (ts : list Thread) i t' n pc :
  (∀ pc', t' ≠ TPipeline pc') →
  (<[i := t']> ts) !! n = Some (TPipeline pc) → ts !! n = Some (TPipeline pc).
Proof.
  intros Ht' Hn. apply list_lookup_insert_Some in Hn as [(_ & Heq & _)|[_ Hn]];
    [by destruct (Ht' pc)|done].
Qed.

Lemma pipelines_sync (ts new : list Thread) i j x y n pc :
  (∀ pc', x ≠ TPipeline pc') → (∀ pc', y ≠ TPipeline pc') →
  (<[j := y]> (<[i := x]> ts) ++ new) !! n = Some (TPipeline pc) →
  ts !! n = Some (TPipeline pc) ∨ TPipeline pc ∈ new.
Proof.
  intros Hx Hy Hn. apply lookup_app_Some in Hn as [Hn|[_ Hn]].
  - left. by do 2 (apply pipelines_insert_other in Hn; [|done]).
  - right. by eapply list_elem_of_lookup_2.
Qed.

(** *** One loop variable per iteration *)

Lemma omap_insert_new {A B} (f : A → option B) (l : list A) i x y b :
  l !! i = Some x → f x = None → f y = Some b →
  omap f (<[i := y]> l) ≡ₚ b :: omap f l.
Proof.
  revert i. induction l as [|a l IH]; intros [|i] Hi Hx Hy; simplify_eq/=.
  - by rewrite Hx, Hy.
  - destruct (f a); rewrite (IH i) by done; [apply Permutation_swap|done].
Qed.

Lemma omap_insert_gone {A B} (f : A → option B) (l : list A) i x y b :
  l !! i = Some x → f x = Some b → f y = None →
  omap f l ≡ₚ b :: omap f (<[i := y]> l).
Proof.
  revert i. induction l as [|a l IH]; intros [|i] Hi Hx Hy; simplify_eq/=.
  - by rewrite Hx, Hy.
  - destruct (f a); rewrite (IH i) by done; [apply Permutation_swap|done].
Qed.

(** Two threads at different places have different descriptors. *)
Lemma descriptors_distinct {B} (f : Thread → option (nat * B)) (l : list Thread)
    n m x y a b :
  NoDup (omap f l).*1 → l !! n = Some x → l !! m = Some y → n ≠ m →
  f x = Some a → f y = Some b → a.1 ≠ b.1.
Proof.
  revert n m. induction l as [|t l IH]; intros n m Hnd Hn Hm Hne Hx Hy; [done|].
  assert (Hin : ∀ k z c, l !! k = Some z → f z = Some c → c.1 ∈ (omap f l).*1).
  { intros k z c Hk Hz. apply list_elem_of_fmap. exists c. split; [done|].
    apply list_elem_of_omap. exists z. split; [|done].
    by eapply list_elem_of_lookup_2. }
  destruct n as [|n], m as [|m]; simplify_eq/=.
  - rewrite Hx in Hnd. simpl in Hnd. apply NoDup_cons in Hnd as [Hnotin _].
    intros Heq. apply Hnotin. rewrite Heq. by eapply Hin.
  - rewrite Hy in Hnd. simpl in Hnd. apply NoDup_cons in Hnd as [Hnotin _].
    intros Heq. apply Hnotin. rewrite <- Heq. by eapply Hin.
  - apply (IH n m); try done; [|congruence].
    destruct (f t); [|done]. simpl in Hnd. by apply NoDup_cons in Hnd as [_ ?].
Qed.

(** A step of a thread on its own, with one variable per iteration: either
    the heap and the thread's descriptor stay, a pipeline that moves having
    read the next field through its pointer, or the producer allocates the
    variable of the next iteration at the end of the heap. *)
Lemma local_per_iteration sh t sh' t' :
  (sh', t') ∈ local (go := PerIteration) sh t →
  (heap sh' = heap sh ∧ descriptorOf t' = descriptorOf t ∧
   ∀ pc', t' = TPipeline pc' →
     ∃ pc j v, t = TPipeline pc ∧ pc' = readNext pc v ∧
               heap sh !! jobPtr pc = Some j ∧
               jobFields j !! length (fieldsRead pc) = Some v) ∨
  (∃ j, heap sh' = heap sh ++ [j] ∧ descriptorOf t = None ∧
        descriptorOf t' = Some (length (heap sh), j) ∧
        ∀ pc', t' ≠ TPipeline pc').
Proof.
  destruct t as [q|[]|[|addr [|j rest]|addr cur rest]|c|pc]; simpl; intros Hl;
    try (by inv_elem).
  - inv_elem. left. by repeat split.
  - inv_elem. left. by repeat split.
  - destruct (batches sh) as [|jobs later]; inv_elem. left. by repeat split.
  - inv_elem. left. by repeat split.
  - cbv [loopVar] in Hl. inv_elem. right. exists j. by repeat split.
  - destruct (heap sh !! jobPtr pc) as [j|] eqn:Hj; simpl in Hl; [|by inv_elem].
    destruct (jobFields j !! length (fieldsRead pc)) as [v|] eqn:Hv; inv_elem.
    left. split; [done|]. split; [done|]. intros pc' [= <-].
    by exists pc, j, v.
Qed.

(** A meeting on a channel: either none of the two threads has a descriptor
    and no goroutine is started, or the producer hands its variable over to
    the consumer, which starts a pipeline on it. *)
Lemma sync_descriptors t1 t2 c v t1' k :
  OSend c v t1' ∈ offers t1 → ORecv c k ∈ offers t2 →
  (descriptorOf t1 = None ∧ descriptorOf t1' = None ∧ descriptorOf t2 = None ∧
   descriptorOf (k v).1 = None ∧ (k v).2 = []) ∨
  (∃ addr cur rest,
     t1 = TProducer (ProdSend addr cur rest) ∧
     t1' = TProducer (ProdRange addr rest) ∧
     descriptorOf t2 = None ∧ descriptorOf (k v).1 = None ∧
     (k v).2 = [TPipeline {| jobPtr := addr; spawnedFor := cur; fieldsRead := [] |}]).
Proof.
  intros Hs Hr.
  destruct t1 as [[]|[]|[]|[]|?]; simpl in Hs; inv_elem;
    destruct t2 as [[]|[]|[]|[]|?]; simpl in Hr; inv_elem;
    first [ left; by repeat split | right; eexists _, _, _; by repeat split ].
Qed.

Lemma descriptors_ok_step s s' :
  step (go := PerIteration) s s' → descriptors_ok s → descriptors_ok s'.
Proof.
  intros Hstep (Hnd & Hheap & Hpre). unfold descriptors_ok, descriptors in *.
  destruct Hstep as [i t sh' t' Hi Hl|i j c v t1 t1' t2 k Hij Hi Hs Hj Hr];
    cbn [threads shared].
  - destruct (local_per_iteration _ _ _ _ Hl)
      as [(Hh & Hd & Hread)|(job & Hh & Hd & Hd' & Hnot)].
    + rewrite (omap_insert_same _ _ _ t) by done. rewrite Hh.
      split; [done|]. split; [done|]. intros n pc' Hn.
      apply list_lookup_insert_Some in Hn as [(<- & Heq & _)|[_ Hn]];
        [|by eapply Hpre].
      destruct (Hread _ Heq) as (pc & job & v & -> & -> & Hj & Hv). cbn.
      assert (Hown : heap (shared s) !! jobPtr pc = Some (spawnedFor pc)).
      { rewrite Forall_forall in Hheap.
        apply (Hheap (jobPtr pc, spawnedFor pc)), list_elem_of_omap.
        exists (TPipeline pc). split; [by eapply list_elem_of_lookup_2|done]. }
      rewrite Hown in Hj. injection Hj as <-.
      apply prefix_snoc; [by eapply Hpre|done].
    + rewrite (omap_insert_new _ _ _ t _ _ Hi Hd Hd'), Hh. cbn [fmap list_fmap fst].
      split; [|split].
      * change ((length (heap (shared s)), job) :: omap descriptorOf (threads s)).*1
          with (length (heap (shared s)) :: (omap descriptorOf (threads s)).*1).
        apply NoDup_cons. split; [|done]. intros Hin.
        apply list_elem_of_fmap in Hin as (d & Hd1 & Hin).
        rewrite Forall_forall in Hheap. apply Hheap, lookup_lt_Some in Hin. lia.
      * apply Forall_cons. split.
        -- cbn. by rewrite lookup_app_r, Nat.sub_diag by lia.
        -- eapply Forall_impl; [exact Hheap|]. intros d Hd0.
           by apply lookup_app_l_Some.
      * intros n pc Hn. apply pipelines_insert_other in Hn; [|done].
        by eapply Hpre.
  - rewrite omap_app.
    assert (Hj' : <[i := t1']> (threads s) !! j = Some t2)
      by (by rewrite list_lookup_insert_ne).
    destruct (sync_descriptors _ _ _ _ _ _ Hs Hr)
      as [(Hd1 & Hd1' & Hd2 & Hd2' & Hnew)
         |(addr & cur & rest & -> & -> & Hd2 & Hd2' & Hnew)].
    + rewrite (omap_insert_same _ _ _ t2) by (done || congruence).
      rewrite (omap_insert_same _ _ _ t1) by (done || congruence).
      rewrite Hnew, app_nil_r. split; [done|]. split; [done|].
      intros n pc Hn. rewrite app_nil_r in Hn.
      apply pipelines_insert_other in Hn; [|intros pc' Heq; by rewrite Heq in Hd2'].
      apply pipelines_insert_other in Hn; [|intros pc' Heq; by rewrite Heq in Hd1'].
      by eapply Hpre.
    + rewrite (omap_insert_same _ _ _ t2) by (done || congruence).
      rewrite Hnew. cbn [omap list_omap descriptorOf jobPtr spawnedFor].
      assert (Hperm : omap descriptorOf (<[i := TProducer (ProdRange addr rest)]> (threads s))
                      ++ [(addr, cur)] ≡ₚ omap descriptorOf (threads s)).
      { rewrite (omap_insert_gone descriptorOf (threads s) i _
                   (TProducer (ProdRange addr rest)) (addr, cur) Hi) by done.
        by rewrite Permutation_app_comm. }
      rewrite Hperm. split; [done|]. split; [done|].
      intros n pc Hn. apply lookup_app_Some in Hn as [Hn|[_ Hn]].
      * apply pipelines_insert_other in Hn; [|intros pc' Heq; by rewrite Heq in Hd2'].
        apply pipelines_insert_other in Hn; [|done]. by eapply Hpre.
      * apply list_elem_of_lookup_2 in Hn. inv_elem. apply prefix_nil.
Qed.

Lemma omap_replicate_quit {B} (f : Thread → option B) n q :
  f (TQuit q) = None → omap f (replicate n (TQuit q)) = [].
Proof. intros Hf. induction n as [|n IH]; simpl; [done|]. by rewrite Hf. Qed.

Lemma started_descriptors_ok callers jobBatches :
  descriptors_ok (started callers jobBatches).
Proof.
  unfold descriptors_ok, descriptors. simpl.
  rewrite omap_replicate_quit by done. split; [constructor|]. split; [done|].
  intros n pc Hn. destruct n as [|[|[|n]]]; simplify_eq/=.
  by apply lookup_replicate in Hn as [? _].
Qed.

Lemma reachable_descriptors_ok callers jobBatches s :
  rtc (step (go := PerIteration)) (started callers jobBatches) s → descriptors_ok s.
Proof.
  intros Hreach.
  apply (rtc_ind_r (R := step (go := PerIteration)) descriptors_ok
           (started callers jobBatches)); [| |exact Hreach].
  - apply started_descriptors_ok.
  - intros s1 s2 _ Hstep Hok. by eapply descriptors_ok_step.
Qed.

(** A thread with a descriptor finds its job in the cell. *)
Lemma descriptors_ok_lookup s n t addr job :
  descriptors_ok s → threads s !! n = Some t → descriptorOf t = Some (addr, job) →
  heap (shared s) !! addr = Some job.
Proof.
  intros (_ & Hheap & _) Hn Hd. rewrite Forall_forall in Hheap.
  apply (Hheap (addr, job)), list_elem_of_omap.
  exists t. split; [by eapply list_elem_of_lookup_2|done].
Qed.

(** No step writes to a cell of the heap: the heap only grows. *)
Lemma heap_grows_step s s' :
  step (go := PerIteration) s s' → heap (shared s) `prefix_of` heap (shared s').
Proof.
  intros [i t sh' t' Hi Hl|i j c v t1 t1' t2 k Hij Hi Hs Hj Hr]; cbn [shared];
    [|done].
  destruct (local_per_iteration _ _ _ _ Hl) as [(-> & _)|(job & -> & _)];
    [done|by apply prefix_app_r].
Qed.

Lemma heap_grows s s' :
  rtc (step (go := PerIteration)) s s' → heap (shared s) `prefix_of` heap (shared s').
Proof.
  induction 1 as [s|s s1 s2 Hstep _ IH]; [done|].
  etrans; [by apply heap_grows_step|done].
Qed.

Lemma reachable_jobs_accounted {go : Go} callers jobBatches s :
  rtc step (started callers jobBatches) s →
  started_kinds callers (kind <$> threads s) ∧
  jobs_accounted (concat jobBatches) s.
Proof.
  intros Hreach.
  apply (rtc_ind_r (R := step)
           (λ s, started_kinds callers (kind <$> threads s) ∧
                 jobs_accounted (concat jobBatches) s)
           (started callers jobBatches)); [| |exact Hreach].
  - split.
    + exists 0. simpl. by rewrite fmap_replicate, app_nil_r.
    + unfold jobs_accounted, unsentJobs, spawnedJobs. simpl.
      by rewrite omap_replicate_quit.
  - intros s1 s2 _ Hstep [Hk Hacc].
    split; [by eapply started_kinds_step|by eapply jobs_accounted_step].
Qed.

(** C3: with a loop variable per iteration (Go 1.22 and later), in every
    state a started manager reaches: the jobs for which a pipeline has been
    started, followed by the jobs still to be handed over, are the jobs of
    the batches in order; the descriptor the producer is sending holds the
    job of its iteration and no pipeline points to it; every pipeline points
    to a descriptor that holds the job it was started for, what it has read
    are the first fields of that job, in the order [processJob] reads them,
    and it can read the next field, which is the next field of that job; two
    pipelines never share a descriptor; and whatever happens afterwards, no
    descriptor is written to: the heap only grows. *)
Theorem pipelines_read_own_descriptor (callers : nat) (jobBatches : list (list Job))
    (s : System) :
  rtc (step (go := PerIteration)) (started callers jobBatches) s →
  spawnedJobs (threads s) ++ unsentJobs s = concat jobBatches ∧
  (∀ addr cur rest,
     threads s !! 1 = Some (TProducer (ProdSend addr cur rest)) →
     heap (shared s) !! addr = Some cur ∧
     ∀ n pc, threads s !! n = Some (TPipeline pc) → jobPtr pc ≠ addr) ∧
  (∀ n pc,
     threads s !! n = Some (TPipeline pc) →
     heap (shared s) !! jobPtr pc = Some (spawnedFor pc) ∧
     fieldsRead pc `prefix_of` jobFields (spawnedFor pc) ∧
     ∀ v, jobFields (spawnedFor pc) !! length (fieldsRead pc) = Some v →
          step (go := PerIteration) s
            {| shared := shared s;
               threads := <[n := TPipeline (readNext pc v)]> (threads s) |}) ∧
  (∀ n m pc pc',
     threads s !! n = Some (TPipeline pc) → threads s !! m = Some (TPipeline pc') →
     n ≠ m → jobPtr pc ≠ jobPtr pc') ∧
  (∀ s', rtc (step (go := PerIteration)) s s' →
         heap (shared s) `prefix_of` heap (shared s')).
Proof.
  intros Hreach.
  pose proof (reachable_descriptors_ok _ _ _ Hreach) as Hok.
  destruct (reachable_jobs_accounted _ _ _ Hreach) as [_ Hacc].
  pose proof Hok as (Hnd & _ & Hpre).
  split; [exact Hacc|]. split; [|split; [|split]].
  - intros addr cur rest Hprod. split.
    + by apply (descriptors_ok_lookup s 1 _ addr cur Hok Hprod).
    + intros n pc Hn.
      assert (Hne : n ≠ 1) by (intros ->; by simplify_eq).
      exact (descriptors_distinct descriptorOf (threads s) n 1 _ _
               (jobPtr pc, spawnedFor pc) (addr, cur) Hnd Hn Hprod Hne eq_refl eq_refl).
  - intros n pc Hn.
    assert (Hown : heap (shared s) !! jobPtr pc = Some (spawnedFor pc))
      by (by apply (descriptors_ok_lookup s n _ _ _ Hok Hn)).
    split; [done|]. split; [by eapply Hpre|].
    intros v Hv. apply (step_local s n (TPipeline pc)); [done|].
    simpl. rewrite Hown. simpl. rewrite Hv. by left.
  - intros n m pc pc' Hn Hm Hne.
    exact (descriptors_distinct descriptorOf (threads s) n m _ _
             (jobPtr pc, spawnedFor pc) (jobPtr pc', spawnedFor pc')
             Hnd Hn Hm Hne eq_refl eq_refl).
  - apply heap_grows.
Qed.

Lemma pipelines_read_own_descriptor_witness :
  ∃ s, rtc (step (go := PerIteration)) (started 0 [[jobJ1; jobJ2]]) s ∧
       heap (shared s) = [jobJ1; jobJ2] ∧
       threads s !! 1 = Some (TProducer (ProdSend 1 jobJ2 [])) ∧
       threads s !! 3 =
         Some (TPipeline {| jobPtr := 0; spawnedFor := jobJ1;
                            fieldsRead := ["j1"; "r7"; "t1"; "f1"; "alice@corp"] |}) ∧
       heap (shared s) !! 0 = Some jobJ1.
Proof.
  destruct (performAll (go := PerIteration)
              [ALocal 1; ALocal 1; ASync 1 2; ALocal 1;
               ALocal 3; ALocal 3; ALocal 3; ALocal 3; ALocal 3]
              (started 0 [[jobJ1; jobJ2]])) as [s|] eqn:Hs;
    [|by vm_compute in Hs].
  pose proof (performAll_steps _ _ _ Hs) as Hreach.
  exists s. split; [exact Hreach|].
  pose proof (pipelines_read_own_descriptor 0 [[jobJ1; jobJ2]] s Hreach)
    as (_ & _ & Hown & _).
  vm_compute in Hs. injection Hs as <-.
  split; [reflexivity|]. split; [reflexivity|]. split; [reflexivity|].
  exact (proj1 (Hown 3 _ eq_refl)).
Defined.

(** With one loop variable per range statement (Go up to 1.21) the same
    schedule goes otherwise.  The producer hands [&job] over for the first
    job of a batch of two and, before the pipeline started for it has read
    anything, moves on to the second job and assigns it to the loop
    variable; the pipeline started for the first job then reads all five
    fields of the second. *)
Lemma pipeline_reads_next_job :
  ∃ s, rtc (step (go := PerLoop)) (started 0 [[jobJ1; jobJ2]]) s ∧
       heap (shared s) = [jobJ2] ∧
       threads s !! 3 =
         Some (TPipeline {| jobPtr := 0; spawnedFor := jobJ1;
                            fieldsRead := ["j2"; "r7"; "t2"; "f2"; "bob"] |}).
Proof.
  eexists. split; [|split].
  - apply (performAll_steps
      [ALocal 1; ALocal 1; ASync 1 2; ALocal 1;
       ALocal 3; ALocal 3; ALocal 3; ALocal 3; ALocal 3]).
    vm_compute. reflexivity.
  - reflexivity.
  - reflexivity.
Qed.

(** * Further properties of the code *)

(** ** The constructor and the registry *)

Lemma listedRegistry_snoc q ps p :
  listedRegistry q (ps ++ [p]) =
  <[GCPID p := with_CUPSJobSemaphore p (NewSemaphore q)]> (listedRegistry q ps).
Proof. unfold listedRegistry. by rewrite foldl_app. Qed.

(** The registry built from the printers GCP lists: under each id stands the
    last printer listed with that id, with a semaphore of its own. *)
Lemma listedRegistry_lookup q ps k :
  listedRegistry q ps !! k =
  (λ p, with_CUPSJobSemaphore p (NewSemaphore q))
    <$> last (filter (λ p, GCPID p = k) ps).
Proof.
  induction ps as [|p ps IH] using rev_ind; [done|].
  rewrite listedRegistry_snoc, filter_app, last_app, lookup_insert.
  rewrite filter_cons, filter_nil. by destruct (decide (GCPID p = k)).
Qed.

Lemma listedRegistry_keyed q ps : registry_keyed (listedRegistry q ps).
Proof.
  intros k p. rewrite listedRegistry_lookup.
  destruct (last _) as [p'|] eqn:Hlast; simpl; [|done]. intros [= <-].
  apply last_Some_elem_of, list_elem_of_filter in Hlast as [Hk _]. done.
Qed.

Lemma collect_keyed m p : registry_keyed m → registry_keyed (collect m p).
Proof.
  intros Hm k p'. rewrite collect_lookup. case_decide as Hd.
  - intros [= <-]. by destruct Hd.
  - apply Hm.
Qed.

Lemma foldl_collect_keyed rs m :
  registry_keyed m → registry_keyed (foldl collect m rs).
Proof.
  revert m. induction rs as [|r rs IH]; intros m Hm; [done|].
  simpl. by apply IH, collect_keyed.
Qed.

Lemma processJob_registry `{Lib} pm w job :
  gcpPrintersByGCPID (final (processJob pm w job)) = gcpPrintersByGCPID pm.
Proof.
  destruct (processJob_accounts pm w job) as (_ & -> & _).
  by destruct (exitOf pm w job).
Qed.

(** X1: a pass and a pipeline keep the registry keyed by GCP id: if every
    printer stands under its own id before, so it does after [syncPrinters]
    (whatever CUPS and GCP answer, in whatever order the results arrive) and
    after [processJob], which leaves the registry as it is. *)
Theorem registry_stays_keyed `{Lib} (pm : PrinterManager) (sw : SyncWorld)
    (jw : JobWorld) (job : Job) :
  registry_keyed (gcpPrintersByGCPID pm) →
  registry_keyed (gcpPrintersByGCPID (syncPrinters pm sw)) ∧
  gcpPrintersByGCPID (final (processJob pm jw job)) = gcpPrintersByGCPID pm.
Proof.
  intros Hpm. split; [|apply processJob_registry].
  unfold syncPrinters. destruct (w_GetPrinters sw) as [err|cupsPrinters]; [done|].
  destruct (w_DiffPrinters sw _ _) as [diffs|]; [|done].
  simpl. by apply foldl_collect_keyed.
Qed.

Lemma registry_stays_keyed_witness :
  registry_keyed (gcpPrintersByGCPID (syncPrinters pmHP worldPass)).
Proof.
  refine (proj1 (registry_stays_keyed pmHP worldPass worldS6 jobJ1 _)).
  intros k p Hk. cbn [pmHP gcpPrintersByGCPID] in Hk.
  apply lookup_singleton_Some in Hk as [<- <-]. reflexivity.
Defined.

Lemma sumCounts_zero ps :
  Forall (λ p, from_option Count 0%Z (CUPSJobSemaphore p) = 0%Z) ps →
  sumCounts ps = 0%Z.
Proof.
  induction 1 as [|p ps Hp _ IH]; [done|].
  change (sumCounts (p :: ps))
    with (from_option Count 0 (CUPSJobSemaphore p) + sumCounts ps)%Z.
  by rewrite Hp, IH.
Qed.

(** X2: [NewPrinterManager] fails exactly when [gcp.List()] fails, and then
    with that error.  The manager it returns otherwise has both counters at
    zero, a download semaphore of the configured capacity and a registry
    keyed by GCP id; and when the first pass changes nothing (CUPS does not
    answer, or the diff is nil) the registry holds, under each listed id, the
    last printer listed with it, with a semaphore of capacity
    [cupsQueueSize] that nobody holds, so that [GetJobStats] is [(0, 0)]. *)
Theorem NewPrinterManager_result (gcpList : result (list Printer)) (w : SyncWorld)
    (maxDownloads queueSize : Z) (fullUsername : bool) :
  match NewPrinterManager gcpList w maxDownloads queueSize fullUsername with
  | inl err => gcpList = inl err
  | inr pm =>
      ∃ gcpPrinters, gcpList = inr gcpPrinters ∧
        jobsDone pm = 0%Z ∧ jobsError pm = 0%Z ∧
        downloadSemaphore pm = NewSemaphore maxDownloads ∧
        cupsQueueSize pm = queueSize ∧ jobFullUsername pm = fullUsername ∧
        registry_keyed (gcpPrintersByGCPID pm) ∧
        ((∀ cupsPrinters, w_GetPrinters w = inr cupsPrinters →
            w_DiffPrinters w cupsPrinters
              (printerMapToSlice (listedRegistry queueSize gcpPrinters)) = None) →
         (∀ k, gcpPrintersByGCPID pm !! k =
               (λ p, with_CUPSJobSemaphore p (NewSemaphore queueSize))
                 <$> last (filter (λ p, GCPID p = k) gcpPrinters)) ∧
         GetJobStats pm = Some (0%Z, 0%Z))
  end.
Proof.
  unfold NewPrinterManager. destruct gcpList as [err|gcpPrinters]; [done|].
  exists gcpPrinters. split; [done|].
  set (pm0 := {| gcpPrintersByGCPID := listedRegistry queueSize gcpPrinters;
                 jobFullUsername := fullUsername |}).
  assert (Hframe : ∀ m, syncPrinters pm0 w = pm0 ∨ syncPrinters pm0 w = set_registry pm0 m
                        → jobsDone (syncPrinters pm0 w) = 0%Z ∧
                          jobsError (syncPrinters pm0 w) = 0%Z ∧
                          downloadSemaphore (syncPrinters pm0 w) = NewSemaphore maxDownloads ∧
                          cupsQueueSize (syncPrinters pm0 w) = queueSize ∧
                          jobFullUsername (syncPrinters pm0 w) = fullUsername).
  { intros m [->| ->]; done. }
  assert (Hkeyed : registry_keyed (gcpPrintersByGCPID (syncPrinters pm0 w))).
  { unfold syncPrinters. destruct (w_GetPrinters w) as [err|cupsPrinters];
      [apply listedRegistry_keyed|].
    destruct (w_DiffPrinters w _ _) as [diffs|]; [|apply listedRegistry_keyed].
    simpl. by apply foldl_collect_keyed. }
  assert (Hcases : syncPrinters pm0 w = pm0 ∨
                   ∃ m, syncPrinters pm0 w = set_registry pm0 m).
  { unfold syncPrinters. destruct (w_GetPrinters w) as [err|cupsPrinters]; [by left|].
    destruct (w_DiffPrinters w _ _) as [diffs|]; [|by left]. right. by eexists. }
  assert (Hf : jobsDone (syncPrinters pm0 w) = 0%Z ∧
               jobsError (syncPrinters pm0 w) = 0%Z ∧
               downloadSemaphore (syncPrinters pm0 w) = NewSemaphore maxDownloads ∧
               cupsQueueSize (syncPrinters pm0 w) = queueSize ∧
               jobFullUsername (syncPrinters pm0 w) = fullUsername).
  { destruct Hcases as [Hc|[m Hc]]; [apply (Hframe ∅)|apply (Hframe m)]; auto. }
  destruct Hf as (Hd & He & Hs & Hq & Hu).
  repeat (split; [done|]).
  intros Hnil.
  assert (Hsame : syncPrinters pm0 w = pm0).
  { unfold syncPrinters. destruct (w_GetPrinters w) as [err|cupsPrinters]; [done|].
    simpl. by rewrite (Hnil cupsPrinters). }
  rewrite Hsame. split; [intros k; apply listedRegistry_lookup|].
  rewrite GetJobStats_processing.
  - rewrite sumCounts_zero; [done|].
    unfold printerMapToSlice. apply Forall_fmap, Forall_forall.
    intros [k p] Hin. apply elem_of_map_to_list in Hin. simpl in *.
    rewrite listedRegistry_lookup in Hin.
    destruct (last _); simplify_eq/=. done.
  - intros k p Hk. simpl in Hk. rewrite listedRegistry_lookup in Hk.
    destruct (last _); simplify_eq/=. by eexists.
Qed.

Lemma NewPrinterManager_result_witness :
  ∃ pm, NewPrinterManager (inr [printerHP; printerGone]) worldCupsDown 2 1 false
          = inr pm ∧
        GetJobStats pm = Some (0%Z, 0%Z).
Proof.
  pose proof (NewPrinterManager_result (inr [printerHP; printerGone])
                worldCupsDown 2 1 false) as Hnew.
  destruct (NewPrinterManager _ _ _ _ _) as [err|pm] eqn:Hpm; [discriminate Hnew|].
  exists pm. split; [reflexivity|].
  destruct Hnew as (ps & _ & _ & _ & _ & _ & _ & _ & Hquiet).
  apply Hquiet. intros cupsPrinters Hcups. discriminate Hcups.
Defined.

(** ** The reconciler: further properties *)

(** With pairwise distinct GCP ids, the map the collecting loop builds holds
    exactly the non-empty results, each under its id. *)
Lemma foldl_collect_entries (rs : list Printer) k p :
  NoDup (GCPID <$> kept rs) →
  foldl collect ∅ rs !! k = Some p ↔ GCPID p = k ∧ p ∈ kept rs.
Proof.
  intros Hnd. split.
  - intros Hk. apply foldl_collect_lookup in Hk as [Hk|[Hin Hid]]; [done|].
    by split.
  - intros [Hid Hin].
    destruct (foldl_collect_is_Some rs ∅ k) as [q Hq].
    { right. by exists p. }
    rewrite Hq. f_equal.
    apply foldl_collect_lookup in Hq as [Hq|[Hqin Hqid]]; [done|].
    assert (Hinj : ∀ l : list Printer, NoDup (GCPID <$> l) →
              q ∈ l → p ∈ l → GCPID q = GCPID p → q = p).
    { clear. intros l. induction l as [|x l IH]; intros Hnd Hq Hp Heq.
      - by apply elem_of_nil in Hq.
      - rewrite fmap_cons in Hnd. apply NoDup_cons in Hnd as [Hx Hnd].
        apply elem_of_cons in Hq as [->|Hq], Hp as [->|Hp]; [done| | |by apply IH].
        + exfalso. apply Hx. rewrite Heq. by apply list_elem_of_fmap_2.
        + exfalso. apply Hx. rewrite <- Heq. by apply list_elem_of_fmap_2. }
    apply (Hinj _ Hnd); congruence.
Qed.

Lemma emitted_leave pm w (ps : list Printer) :
  emitted pm w (leaveDiff <$> ps) = ps.
Proof.
  unfold emitted. rewrite imap_fmap.
  rewrite <- (list_fmap_id ps) at 2. rewrite <- imap_const. by apply imap_ext.
Qed.

Lemma kept_all (ps : list Printer) :
  Forall (λ p, Name p ≠ "") ps → kept ps = ps.
Proof.
  induction 1 as [|p ps Hp _ IH]; [done|].
  by rewrite kept_cons, decide_True, IH.
Qed.

Lemma printerMapToSlice_ids (m : gmap string Printer) :
  registry_keyed m → GCPID <$> printerMapToSlice m = (map_to_list m).*1.
Proof.
  intros Hm. unfold printerMapToSlice. rewrite <- list_fmap_compose.
  apply list_fmap_ext. intros i [k p] Hi. simpl. apply (Hm k).
  apply elem_of_map_to_list. by eapply list_elem_of_lookup_2.
Qed.

(** X3: a pass whose diff leaves every printer of the registry as it is
    publishes the registry it started from: map to slice, one [applyDiff] per
    printer, results collected in any order.  The registry is keyed by GCP id
    and its printers have local names. *)
Theorem syncPrinters_leave_all (pm : PrinterManager) (w : SyncWorld)
    (cupsPrinters : list Printer) :
  registry_keyed (gcpPrintersByGCPID pm) →
  map_Forall (λ _ p, Name p ≠ "") (gcpPrintersByGCPID pm) →
  w_GetPrinters w = inr cupsPrinters →
  w_DiffPrinters w cupsPrinters (printerMapToSlice (gcpPrintersByGCPID pm)) =
    Some (leaveDiff <$> printerMapToSlice (gcpPrintersByGCPID pm)) →
  w_arrival w ≡ₚ seq 0 (size (gcpPrintersByGCPID pm)) →
  syncPrinters pm w = pm.
Proof.
  intros Hkeyed Hnamed Hcups Hdiffs Harr.
  set (ps := printerMapToSlice (gcpPrintersByGCPID pm)) in *.
  assert (Hlen : length (leaveDiff <$> ps) = size (gcpPrintersByGCPID pm)).
  { unfold ps, printerMapToSlice. by rewrite !length_fmap, length_map_to_list. }
  assert (Hperm : received pm w (leaveDiff <$> ps) ≡ₚ ps).
  { rewrite received_Permutation by (by rewrite Hlen). by rewrite emitted_leave. }
  assert (Hall : Forall (λ p, Name p ≠ "") ps).
  { unfold ps, printerMapToSlice. apply Forall_fmap, Forall_forall.
    intros [k p] Hin. apply elem_of_map_to_list in Hin. by apply (Hnamed k p). }
  assert (Hnd : NoDup (GCPID <$> kept (received pm w (leaveDiff <$> ps)))).
  { unfold kept. rewrite Hperm. fold (kept ps). rewrite kept_all by done.
    unfold ps. rewrite printerMapToSlice_ids by done. apply NoDup_fst_map_to_list. }
  assert (Hreg : gcpPrintersByGCPID (syncPrinters pm w) = gcpPrintersByGCPID pm).
  { unfold syncPrinters. rewrite Hcups. fold ps. rewrite Hdiffs. simpl.
    apply map_eq. intros k. apply option_eq. intros p.
    rewrite foldl_collect_entries by done.
    unfold kept. rewrite Hperm. fold (kept ps). rewrite kept_all by done.
    unfold ps, printerMapToSlice. rewrite list_elem_of_fmap. split.
    - intros (Hid & [k' p'] & -> & Hin). apply elem_of_map_to_list in Hin.
      pose proof (Hkeyed _ _ Hin) as Hk'. simpl in *. congruence.
    - intros Hk. split; [by apply Hkeyed|]. exists (k, p). split; [done|].
      by apply elem_of_map_to_list. }
  unfold syncPrinters in *. rewrite Hcups in *. fold ps in Hreg |- *.
  rewrite Hdiffs in *. simpl in Hreg. rewrite Hreg. by destruct pm.
Qed.

Lemma syncPrinters_leave_all_witness : syncPrinters pmHP worldLeave = pmHP.
Proof.
  apply (syncPrinters_leave_all pmHP worldLeave []).
  - intros k p Hk. cbn [pmHP gcpPrintersByGCPID] in Hk.
    apply lookup_singleton_Some in Hk as [<- <-]. reflexivity.
  - intros k p Hk. cbn [pmHP gcpPrintersByGCPID] in Hk.
    apply lookup_singleton_Some in Hk as [<- <-]. discriminate.
  - reflexivity.
  - reflexivity.
  - vm_compute. reflexivity.
Defined.

(** X4: what [applyDiff] emits.  It is the empty printer, or it carries the
    local name, the description and the capabilities hash of the diff's
    printer.  Only a Register gives it another GCP id (the one GCP answers)
    and another semaphore (a new one of capacity [cupsQueueSize], without
    holders); an Update or a Leave emits the diff's printer itself, whether
    or not [GetPPD] and [Update] succeed. *)
Theorem applyDiff_emission (pm : PrinterManager) (w : DiffWorld) (diff : PrinterDiff) :
  let p := emission pm w diff in
  (p = emptyPrinter ∨
   (Name p = Name (diffPrinter diff) ∧
    Description p = Description (diffPrinter diff) ∧
    CapsHash p = CapsHash (diffPrinter diff))) ∧
  (diffOperation diff = RegisterPrinter → p ≠ emptyPrinter →
     w_Register w = inr (GCPID p) ∧
     CUPSJobSemaphore p = Some (NewSemaphore (cupsQueueSize pm))) ∧
  (diffOperation diff = UpdatePrinter ∨ diffOperation diff = LeavePrinter →
     p = diffPrinter diff) ∧
  (diffOperation diff = DeletePrinter → p = emptyPrinter).
Proof.
  unfold emission, applyDiff. destruct diff as [op printer caps]; simpl.
  destruct op; simpl.
  - destruct (w_GetPPD w) as [err|ppd]; simpl.
    { split; [by left|]. repeat split; try done; by intros [|]. }
    destruct (w_Register w) as [err|gcpID]; simpl.
    { split; [by left|]. repeat split; try done; by intros [|]. }
    split; [by right|]. repeat split; try done. by intros [|].
  - destruct caps; [destruct (w_GetPPD w)|]; simpl;
      (split; [by right|]); repeat split; done.
  - destruct (w_Delete w); simpl; (split; [by left|]); repeat split; try done;
      by intros [|].
  - split; [by right|]. repeat split; done.
Qed.

Lemma applyDiff_emission_witness :
  CUPSJobSemaphore
    (emission pmHP (w_applyDiff worldPass 1)
       {| diffOperation := RegisterPrinter; diffPrinter := printerCanon;
          CapsHashChanged := false |}) = Some (NewSemaphore 1).
Proof.
  refine (proj2 (proj1 (proj2 (applyDiff_emission pmHP (w_applyDiff worldPass 1)
    {| diffOperation := RegisterPrinter; diffPrinter := printerCanon;
       CapsHashChanged := false |})) eq_refl _)).
  discriminate.
Defined.

(** X5: the calls [applyDiff] makes.  A Leave makes none.  [GetPPD], when it
    is called, is the first call, and when it fails it is the only one:
    nothing is registered or updated without the driver descriptor.  A diff
    whose capabilities hash is unchanged is updated without fetching the
    descriptor, with the empty string in its place.  [Share] is called only
    after a successful [Register], and only when GCP can share. *)
Theorem applyDiff_calls (pm : PrinterManager) (w : DiffWorld) (diff : PrinterDiff) :
  let calls := diffCalls pm w diff in
  (diffOperation diff = LeavePrinter → calls = []) ∧
  (∀ i c, calls !! i = Some c → is_CallGetPPD c = true → i = 0) ∧
  (∀ err, w_GetPPD w = inl err → filter (λ c, is_gcpWrite c = true) calls =
     match diffOperation diff with
     | DeletePrinter => [CallDelete (GCPID (diffPrinter diff))]
     | UpdatePrinter => if CapsHashChanged diff then [] else [CallUpdate diff ""]
     | _ => []
     end) ∧
  (diffOperation diff = UpdatePrinter → CapsHashChanged diff = false →
     calls = [CallUpdate diff ""]) ∧
  (∀ gcpID, CallShare gcpID ∈ calls →
     diffOperation diff = RegisterPrinter ∧ w_CanShare w = true ∧
     w_Register w = inr gcpID ∧
     ∃ ppd, w_GetPPD w = inr ppd ∧
            calls = [CallGetPPD (Name (diffPrinter diff));
                     CallRegister (Name (diffPrinter diff)) ppd; CallShare gcpID]).
Proof.
  unfold diffCalls, applyDiff. destruct diff as [op printer caps]; simpl.
  assert (Hfirst : ∀ (c0 : DiffCall) (rest : list DiffCall),
            Forall (λ c, is_CallGetPPD c = false) rest →
            ∀ i c, (c0 :: rest) !! i = Some c → is_CallGetPPD c = true → i = 0).
  { intros c0 rest Hrest [|i] c Hc Hg; [done|]. simpl in Hc.
    rewrite Forall_lookup in Hrest. specialize (Hrest _ _ Hc). congruence. }
  destruct op; simpl.
  - destruct (w_GetPPD w) as [err|ppd]; simpl;
      [|destruct (w_Register w) as [err|gcpID]; simpl;
        [|destruct (w_CanShare w); simpl]];
      repeat match goal with |- _ ∧ _ => split end; try done;
      try (apply Hfirst; by repeat constructor);
      try (intros g Hin; inv_elem; eauto 10; done).
  - destruct caps; [destruct (w_GetPPD w) as [err|ppd]|]; simpl;
      repeat match goal with |- _ ∧ _ => split end; try done;
      try (apply Hfirst; by repeat constructor);
      try (intros g Hin; inv_elem; done).
  - destruct (w_Delete w); simpl;
      repeat match goal with |- _ ∧ _ => split end; try done;
      try (apply Hfirst; by repeat constructor);
      try (intros g Hin; inv_elem; done).
  - repeat match goal with |- _ ∧ _ => split end; try done.
    intros g Hin. inv_elem.
Qed.

Lemma applyDiff_calls_witness :
  diffCalls pmHP (w_applyDiff worldPass 1)
    {| diffOperation := RegisterPrinter; diffPrinter := printerCanon;
       CapsHashChanged := false |} =
  [CallGetPPD "Canon"; CallRegister "Canon" "*PPD-Adobe"; CallShare "r9"].
Proof.
  destruct (proj2 (proj2 (proj2 (proj2 (applyDiff_calls pmHP (w_applyDiff worldPass 1)
    {| diffOperation := RegisterPrinter; diffPrinter := printerCanon;
       CapsHashChanged := false |})))) "r9") as (_ & _ & _ & ppd & Hppd & Hcalls).
  - vm_compute. do 2 right. left.
  - injection Hppd as <-. exact Hcalls.
Defined.

(** ** The job pipeline: semaphores *)

Lemma semRun_app s held tr1 tr2 :
  semRun s held (tr1 ++ tr2) = semRun s held tr1 ≫= λ h, semRun s h tr2.
Proof.
  revert held. induction tr1 as [|e tr1 IH]; intros held; [done|].
  destruct e; simpl; repeat case_decide; try destruct (guardedBy _ _);
    try destruct held; try done; apply IH.
Qed.

Lemma semRun_before s evs r :
  semRun s 0 evs = Some 0 → semRun s 0 (trace r) = Some 0 →
  semRun s 0 (trace (before evs r)) = Some 0.
Proof. intros Hev Hr. simpl. by rewrite semRun_app, Hev. Qed.

Lemma semRun_increment_return s pm b deferred :
  semRun s 0 deferred = Some 0 →
  semRun s 0 (trace (increment_return pm b deferred)) = Some 0.
Proof. intros Hd. by destruct s; simpl. Qed.

Lemma semRun_fail `{Lib} s pm job msg deferred :
  semRun s 0 deferred = Some 0 →
  semRun s 0 (trace (fail pm job msg deferred)) = Some 0.
Proof. intros Hd. by destruct s; simpl. Qed.

Lemma semRun_pollLoop `{Lib} s pm job cupsJobID deferred status message ticks :
  semRun s 0 deferred = Some 0 →
  semRun s 0 (trace (pollLoop pm job cupsJobID deferred status message ticks))
  = Some 0.
Proof.
  intros Hd. revert status message.
  induction ticks as [|[err|[st m]] ticks IH]; intros status message;
    cbn [pollLoop].
  - done.
  - apply semRun_before; [by destruct s|]. by apply semRun_fail.
  - apply semRun_before.
    { destruct (_ || _); by destruct s. }
    destruct (negb (String.eqb (GCPStatus st) JobInProgress)); [|apply IH].
    destruct (String.eqb (GCPStatus st) JobDone);
      by apply semRun_increment_return.
Qed.

(** A pipeline starts and ends holding no slot of any semaphore. *)
Lemma processJob_semRun `{Lib} (pm : PrinterManager) (w : JobWorld)
    (job : Job) (s : SemRef) :
  semRun s 0 (trace (processJob pm w job)) = Some 0.
Proof.
  unfold processJob.
  destruct (gcpPrintersByGCPID pm !! GCPPrinterID job) as [printer|];
    [|by apply semRun_fail].
  apply semRun_before; [by destruct s|].
  destruct (w_Ticket w) as [err|options]; [by apply semRun_fail|].
  apply semRun_before; [by destruct s|].
  destruct (w_CreateTempFile w) as [err|pdfFile]; [by apply semRun_fail|].
  apply semRun_before; [by destruct s|].
  destruct (w_Download w) as [err|]; [by apply semRun_fail|].
  apply semRun_before; [by destruct s|].
  apply semRun_before; [by destruct s|].
  destruct (w_Print w) as [err|cupsJobID];
    [apply semRun_fail|apply semRun_pollLoop]; by destruct s.
Qed.

(** X6: every pipeline keeps the semaphore discipline, on every semaphore
    and whatever the services answer: it never acquires a semaphore it
    holds, releases exactly what it acquired, downloads only while it holds
    the download semaphore, updates a counter only while it holds the stats
    mutex, and holds nothing when it returns or waits for the next tick; in
    particular the download semaphore is released when the download fails. *)
Theorem processJob_semaphore_discipline `{Lib} (pm : PrinterManager) (w : JobWorld)
    (job : Job) (s : SemRef) :
  semRun s 0 (trace (processJob pm w job)) = Some 0.
Proof. apply processJob_semRun. Qed.

(** ** Pipelines running concurrently: the semaphores *)

Lemma outstanding_app s tr1 tr2 :
  outstanding s (tr1 ++ tr2) = (outstanding s tr1 + outstanding s tr2)%Z.
Proof.
  unfold outstanding. induction tr1 as [|e tr1 IH]; simpl; [done|].
  rewrite IH. lia.
Qed.

Lemma semRun_outstanding s held tr m :
  semRun s held tr = Some m → held ≤ 1 →
  m ≤ 1 ∧ outstanding s tr = (Z.of_nat m - Z.of_nat held)%Z.
Proof.
  revert held. induction tr as [|e tr IH]; intros held Hrun Hheld.
  - simpl in Hrun. simplify_eq. split; [done|]. unfold outstanding. simpl. lia.
  - change (outstanding s (e :: tr))
      with (outstandingOf s e + outstanding s tr)%Z.
    destruct e; simpl in Hrun |- *; repeat case_decide;
      try destruct (guardedBy _ _); destruct held as [|[|held]];
      try done; try lia;
      apply IH in Hrun as [Hm Ho]; try lia; (split; [done|]); rewrite Ho; lia.
Qed.

Lemma outstanding_printerSemaphore g tr :
  printerSemaphoreCalls tr = [] → outstanding (PrinterSemaphore g) tr = 0%Z.
Proof.
  induction tr as [|e tr IH]; [done|].
  change (outstanding (PrinterSemaphore g) (e :: tr))
    with (outstandingOf (PrinterSemaphore g) e + outstanding (PrinterSemaphore g) tr)%Z.
  unfold printerSemaphoreCalls in *. simpl.
  destruct e as [| | |[]|[]| | | | | |]; simpl; try done;
    intros Hcalls; rewrite IH by done; by repeat case_decide.
Qed.

Lemma totalOutstanding_cons s w ws :
  totalOutstanding s (w :: ws) =
  (outstanding s (executed w) + totalOutstanding s ws)%Z.
Proof. reflexivity. Qed.

Lemma totalOutstanding_insert s (ws : list Worker) i w w' :
  ws !! i = Some w →
  totalOutstanding s (<[i := w']> ws) =
  (totalOutstanding s ws - outstanding s (executed w) + outstanding s (executed w'))%Z.
Proof.
  revert i. induction ws as [|w0 ws IH]; intros [|i] Hi; simplify_eq/=.
  - unfold totalOutstanding. simpl. lia.
  - unfold totalOutstanding in *. simpl. rewrite (IH i) by done. lia.
Qed.

(** What one step of a worker does to the pool. *)
Lemma advance_inv pm i pool pool' :
  advance pm i pool = Some pool' →
  ∃ w e rest,
    workers pool !! i = Some w ∧ pending w = e :: rest ∧
    workers pool' = <[i := {| workerJob := workerJob w;
                              executed := executed w ++ [e];
                              pending := rest |}]> (workers pool) ∧
    (∀ s, holders pool' s = (holders pool s + outstandingOf s e)%Z) ∧
    (∀ s, e = Acquire s → (holders pool s < semSize pm s)%Z).
Proof.
  unfold advance. destruct (workers pool !! i) as [w|] eqn:Hw; simpl; [|done].
  destruct (pending w) as [|e rest] eqn:Hp; [done|].
  intros Hadv. exists w, e, rest. split; [done|]. split; [done|].
  destruct e as [| | |sa|sr| | | | | |]; simpl in Hadv;
    try (case_bool_decide as Hlt; [|done]); simplify_eq/=;
    (split; [done|]); split; intros s; try done; try lia;
    try (unfold bump; repeat case_decide; simplify_eq; lia).
  by intros [= <-].
Qed.

Lemma advance_accounted pm i pool pool' :
  advance pm i pool = Some pool' →
  holders_accounted pm pool → holders_accounted pm pool'.
Proof.
  intros Hadv Hacc s.
  destruct (advance_inv _ _ _ _ Hadv) as (w & e & rest & Hw & Hp & -> & Hh & _).
  rewrite Hh, Hacc, (totalOutstanding_insert _ _ _ w) by done. simpl.
  rewrite outstanding_app. unfold outstanding at 3. simpl. lia.
Qed.

Lemma advance_bounded pm i pool pool' :
  advance pm i pool = Some pool' →
  holders_bounded pm pool → holders_bounded pm pool'.
Proof.
  intros Hadv Hb s.
  destruct (advance_inv _ _ _ _ Hadv) as (w & e & rest & Hw & Hp & _ & Hh & Hacq).
  rewrite Hh. specialize (Hb s).
  destruct e as [| | |sa|sr| | | | | |]; simpl; try lia.
  - case_decide as Hs; [|lia]. subst. specialize (Hacq s eq_refl). lia.
  - case_decide; lia.
Qed.

Lemma advance_runs_pipelines `{Lib} pm i pool pool' :
  advance pm i pool = Some pool' →
  runs_pipelines pm pool → runs_pipelines pm pool'.
Proof.
  intros Hadv Hruns.
  destruct (advance_inv _ _ _ _ Hadv) as (w & e & rest & Hw & Hp & Hws & _).
  unfold runs_pipelines in *. rewrite Hws.
  apply Forall_insert; [done|]. simpl.
  rewrite Forall_lookup in Hruns. destruct (Hruns _ _ Hw) as (jw & job & Htr).
  exists jw, job. by rewrite <- app_assoc, <- Htr, Hp.
Qed.

Lemma schedule_invariants `{Lib} pm order pool pool' :
  schedule pm order pool = Some pool' →
  holders_accounted pm pool → holders_bounded pm pool → runs_pipelines pm pool →
  holders_accounted pm pool' ∧ holders_bounded pm pool' ∧ runs_pipelines pm pool'.
Proof.
  revert pool. induction order as [|i order IH]; intros pool Hs Ha Hb Hr.
  - simpl in Hs. by simplify_eq.
  - simpl in Hs. destruct (advance pm i pool) as [pool1|] eqn:Hadv; [|done].
    simpl in Hs. apply (IH pool1); [done|..].
    + by eapply advance_accounted.
    + by eapply advance_bounded.
    + by eapply advance_runs_pipelines.
Qed.

Lemma spawnPipelines_invariants `{Lib} pm jobs :
  holders_accounted pm (spawnPipelines pm jobs) ∧
  holders_bounded pm (spawnPipelines pm jobs) ∧
  runs_pipelines pm (spawnPipelines pm jobs).
Proof.
  split; [|split].
  - intros s. simpl.
    assert (Hzero : totalOutstanding s
      ((λ wj, {| workerJob := wj.2; executed := [];
                 pending := trace (processJob pm wj.1 wj.2) |}) <$> jobs) = 0%Z).
    { induction jobs as [|wj jobs IH]; [done|].
      by rewrite fmap_cons, totalOutstanding_cons, IH. }
    rewrite Hzero. lia.
  - intros s. simpl. lia.
  - unfold runs_pipelines. simpl. apply Forall_fmap, Forall_forall.
    intros [jw job] _. simpl. by exists jw, job.
Qed.

(** X7: however many pipelines run and however they interleave, on every
    semaphore that starts within its capacity (the download semaphore, the
    stats mutex) every pipeline holds at most one slot at any time, the
    holders are exactly the slots the pipelines have acquired and not yet
    released, and they never exceed the capacity: at most
    [gcpMaxConcurrentDownload] downloads are in flight, and at most one
    pipeline is inside [incrementJobsProcessed]. *)
Theorem pipelines_respect_capacity `{Lib} (pm : PrinterManager)
    (jobs : list (JobWorld * Job)) (order : list nat) (pool : Pool) (s : SemRef) :
  schedule pm order (spawnPipelines pm jobs) = Some pool →
  (semCount pm s ≤ semSize pm s)%Z →
  Forall (λ w, outstanding s (executed w) = 0%Z ∨ outstanding s (executed w) = 1%Z)
         (workers pool) ∧
  holders pool s = (semCount pm s + totalOutstanding s (workers pool))%Z ∧
  (semCount pm s + totalOutstanding s (workers pool) ≤ semSize pm s)%Z.
Proof.
  intros Hsched Hcap.
  destruct (spawnPipelines_invariants pm jobs) as (Ha0 & Hb0 & Hr0).
  destruct (schedule_invariants _ _ _ _ Hsched Ha0 Hb0 Hr0) as (Ha & Hb & Hr).
  split; [|split; [apply Ha|]].
  - unfold runs_pipelines in Hr. eapply Forall_impl; [exact Hr|].
    intros w (jw & job & Htr). simpl.
    pose proof (processJob_semRun pm jw job s) as Hrun.
    rewrite <- Htr, semRun_app in Hrun.
    destruct (semRun s 0 (executed w)) as [m|] eqn:Hm; [|done].
    destruct (semRun_outstanding _ _ _ _ Hm) as [Hle Ho]; [lia|].
    rewrite Ho. destruct m as [|[|m]]; [by left|by right|lia].
  - rewrite <- Ha. specialize (Hb s). lia.
Qed.

Lemma pipelines_respect_capacity_witness :
  ∃ pool,
    schedule pmHP [0; 0; 0; 1; 1; 1; 0; 1]
      (spawnPipelines pmHP [(worldPrinting, jobJ1); (worldPrinting, jobJ2)])
    = Some pool ∧
    holders pool DownloadSemaphore = 2%Z ∧
    (0 + totalOutstanding DownloadSemaphore (workers pool) ≤ 2)%Z.
Proof.
  destruct (schedule pmHP [0; 0; 0; 1; 1; 1; 0; 1]
              (spawnPipelines pmHP [(worldPrinting, jobJ1); (worldPrinting, jobJ2)]))
    as [pool|] eqn:Hpool; [|by vm_compute in Hpool].
  exists pool. split; [reflexivity|].
  destruct (pipelines_respect_capacity pmHP _ _ pool DownloadSemaphore Hpool)
    as (_ & Hh & Hle); [by vm_compute|].
  split; [|exact Hle].
  vm_compute in Hpool. injection Hpool as <-. reflexivity.
Defined.

(** X8: no per-printer semaphore ever gets a holder: whatever jobs run and
    however their pipelines interleave, the holders count of the semaphore of
    every printer stays what it was at the start, so the [processing] value
    that [GetJobStats] sums from these counts is never moved by a job. *)
Theorem printer_semaphores_stay_idle `{Lib} (pm : PrinterManager)
    (jobs : list (JobWorld * Job)) (order : list nat) (pool : Pool) (gcpID : string) :
  schedule pm order (spawnPipelines pm jobs) = Some pool →
  holders pool (PrinterSemaphore gcpID) = semCount pm (PrinterSemaphore gcpID).
Proof.
  intros Hsched.
  destruct (spawnPipelines_invariants pm jobs) as (Ha0 & Hb0 & Hr0).
  destruct (schedule_invariants _ _ _ _ Hsched Ha0 Hb0 Hr0) as (Ha & _ & Hr).
  rewrite Ha.
  assert (Hzero : totalOutstanding (PrinterSemaphore gcpID) (workers pool) = 0%Z).
  { unfold runs_pipelines in Hr.
    induction Hr as [|w ws (jw & job & Htr) _ IH]; [done|].
    rewrite totalOutstanding_cons, IH.
    pose proof (processJob_printerSemaphoreCalls pm jw job) as Hcalls.
    rewrite <- Htr, printerSemaphoreCalls_app in Hcalls.
    apply app_eq_nil in Hcalls as [Hexec _].
    rewrite outstanding_printerSemaphore by done. lia. }
  rewrite Hzero. lia.
Qed.

Lemma printer_semaphores_stay_idle_witness :
  ∃ pool,
    schedule pmHP (replicate 9 0 ++ replicate 9 1)
      (spawnPipelines pmHP [(worldPrinting, jobJ1); (worldPrinting, jobJ2)])
    = Some pool ∧
    holders pool (PrinterSemaphore "r7") = 0%Z.
Proof.
  destruct (schedule pmHP (replicate 9 0 ++ replicate 9 1)
              (spawnPipelines pmHP [(worldPrinting, jobJ1); (worldPrinting, jobJ2)]))
    as [pool|] eqn:Hpool; [|by vm_compute in Hpool].
  exists pool. split; [reflexivity|].
  exact (printer_semaphores_stay_idle pmHP _ _ pool "r7" Hpool).
Defined.

(** ** The job pipeline: what it reports and what it prints *)

Lemma omap_singleton_app {A B} (f : A → option B) x l :
  omap f (x :: l) = from_option (λ y, [y]) [] (f x) ++ omap f l.
Proof. simpl. by destruct (f x). Qed.

Section Reports.
Context `{Lib}.

Lemma reports_before evs r :
  reports (trace (before evs r)) = reports evs ++ reports (trace r).
Proof. apply reports_app. Qed.

Lemma increments_before evs r :
  increments evs = [] → increments (trace (before evs r)) = increments (trace r).
Proof. intros Hev. simpl. by rewrite increments_app, Hev. Qed.

Lemma fail_reported pm job msg deferred :
  JobError ≠ JobInProgress → JobError ≠ JobDone →
  reports deferred = [] → increments deferred = [] →
  reported_outcome (fail pm job msg deferred).
Proof.
  intros Hp Hd Hr Hi. exists JobError, msg. unfold fail.
  rewrite reports_before, increments_before by done.
  cbn [increment_return trace]. rewrite reports_app, increments_app, Hr, Hi.
  split; [done|]. split; [done|]. split; [done|]. by intros [=].
Qed.

Lemma before_reported evs r :
  increments evs = [] → reported_outcome r → reported_outcome (before evs r).
Proof.
  intros Hev (st & msg & Hlast & Hst & Hiff). exists st, msg.
  rewrite reports_before, last_app, Hlast, increments_before by done. done.
Qed.

Lemma pollLoop_reported pm job cupsJobID deferred status message ticks :
  (∀ s, GCPStatus s ≠ "") → JobError ≠ JobInProgress → JobError ≠ JobDone →
  reports deferred = [] → increments deferred = [] →
  status = "" ∨ status = JobInProgress →
  returned (pollLoop pm job cupsJobID deferred status message ticks) = true →
  reported_outcome (pollLoop pm job cupsJobID deferred status message ticks).
Proof.
  intros Hne Hp Hd Hr Hi. revert status message.
  induction ticks as [|[err|[s m]] ticks IH]; intros status message Hst Hret.
  - done.
  - cbn [pollLoop]. apply before_reported; [done|]. by apply fail_reported.
  - destruct (String.eqb_spec (GCPStatus s) JobInProgress) as [Hs|Hs].
    + rewrite pollLoop_tick_in_progress in Hret |- * by done.
      apply before_reported; [by case_decide|]. apply IH; [by right|done].
    + assert (Hchanged : negb (String.eqb (GCPStatus s) status)
                         || negb (String.eqb m message) = true).
      { destruct (String.eqb_spec (GCPStatus s) status) as [Heq|]; [|done].
        destruct Hst as [->| ->]; [by apply Hne in Heq|done]. }
      cbn [pollLoop]. rewrite Hchanged. apply String.eqb_neq in Hs as Hs'.
      rewrite Hs'. cbn [negb].
      exists (GCPStatus s), m.
      rewrite reports_before, increments_before by done.
      destruct (String.eqb_spec (GCPStatus s) JobDone) as [Hdone|Hdone];
        cbn [increment_return trace];
        rewrite reports_app, increments_app, Hr, Hi; simpl;
        (split; [done|]); (split; [done|]); split; try done.
Qed.

(** X9: a pipeline that returns has told GCP how the job ended: its last
    report carries a status other than in progress, and that status is
    [JobDone] exactly when the pipeline counted the job as done.  The
    projection of a CUPS status is never the empty string, and [JobError]
    is neither of the other two statuses. *)
Theorem returned_pipeline_has_reported (pm : PrinterManager) (w : JobWorld) (job : Job) :
  (∀ s, GCPStatus s ≠ "") → JobError ≠ JobInProgress → JobError ≠ JobDone →
  returned (processJob pm w job) = true →
  ∃ st msg, last (reports (trace (processJob pm w job))) = Some (st, msg) ∧
            st ≠ JobInProgress ∧
            (st = JobDone ↔ increments (trace (processJob pm w job)) = [true]).
Proof.
  intros Hne Hp Hd. change (returned (processJob pm w job) = true →
                            reported_outcome (processJob pm w job)).
  unfold processJob.
  destruct (gcpPrintersByGCPID pm !! GCPPrinterID job) as [printer|];
    [|intros _; by apply fail_reported].
  destruct (w_Ticket w) as [err|options];
    [intros _; apply before_reported; [done|]; by apply fail_reported|].
  destruct (w_CreateTempFile w) as [err|pdfFile];
    [intros _; do 2 (apply before_reported; [done|]); by apply fail_reported|].
  destruct (w_Download w) as [err|];
    [intros _; do 3 (apply before_reported; [done|]); by apply fail_reported|].
  destruct (w_Print w) as [err|cupsJobID];
    [intros _; do 5 (apply before_reported; [done|]); by apply fail_reported|].
  intros Hret. do 5 (apply before_reported; [done|]).
  apply pollLoop_reported; try done. by left.
Qed.

Lemma noRepeat_cons {A} (a : A) (l : list A) :
  noRepeat (a :: l) ↔ head l ≠ Some a ∧ noRepeat l.
Proof.
  destruct l as [|b l]; simpl; split; intros [Hne Hl]; split; try done;
    intros Heq; apply Hne; congruence.
Qed.

Lemma pollLoop_noRepeat pm job cupsJobID deferred status message ticks :
  JobError ≠ JobInProgress → reports deferred = [] →
  noRepeat (reports (trace (pollLoop pm job cupsJobID deferred status message ticks))) ∧
  (status = JobInProgress →
   noRepeat ((status, message)
             :: reports (trace (pollLoop pm job cupsJobID deferred status message ticks)))).
Proof.
  intros Hp Hr. revert status message.
  induction ticks as [|[err|[s m]] ticks IH]; intros status message.
  - done.
  - cbn [pollLoop]. rewrite reports_before. unfold fail.
    rewrite reports_before. cbn [increment_return trace].
    rewrite reports_app, Hr. cbn. split; [done|].
    intros ->. split; [|done]. intros [= Heq _]. by apply Hp.
  - destruct (String.eqb_spec (GCPStatus s) JobInProgress) as [Hs|Hs].
    + rewrite pollLoop_tick_in_progress by done. rewrite reports_before.
      destruct (IH (GCPStatus s) m) as [IH1 IH2]. specialize (IH2 Hs).
      case_decide as Heq.
      * change (reports [GetJobStatus cupsJobID]) with (@nil (string * string)).
        rewrite app_nil_l. simplify_eq. split; [done|]. by intros _.
      * change (reports [GetJobStatus cupsJobID;
                         Control (GCPJobID job) (GCPStatus s) m])
          with [(GCPStatus s, m)].
        cbn [app]. split; [done|]. intros ->.
        apply noRepeat_cons. split; [|done]. cbn [head]. intros [= H1 H2].
        apply Heq. congruence.
    + cbn [pollLoop]. apply String.eqb_neq in Hs as Hs'. rewrite Hs'. cbn [negb].
      rewrite reports_before.
      assert (Hexit : ∀ b, reports (trace (increment_return pm b deferred)) = []).
      { intros b. cbn [increment_return trace]. by rewrite reports_app, Hr. }
      assert (Hend : reports (trace (if String.eqb (GCPStatus s) JobDone
                                     then increment_return pm true deferred
                                     else increment_return pm false deferred)) = [])
        by (destruct (String.eqb (GCPStatus s) JobDone); apply Hexit).
      rewrite Hend, app_nil_r.
      destruct (_ || _); cbn; (split; [done|]); intros ->; [|done].
      split; [|done]. intros [= Heq _]. by apply Hs.
Qed.

(** X10: no pipeline sends GCP the same report twice in a row: any two
    consecutive [Control] calls of a pipeline differ in status or in
    message, given that [JobError] and [JobInProgress] are different
    statuses. *)
Theorem reports_never_repeat (pm : PrinterManager) (w : JobWorld) (job : Job) :
  JobError ≠ JobInProgress →
  noRepeat (reports (trace (processJob pm w job))).
Proof.
  intros Hp. unfold processJob.
  destruct (gcpPrintersByGCPID pm !! GCPPrinterID job) as [printer|]; [|done].
  destruct (w_Ticket w) as [err|options]; [done|].
  destruct (w_CreateTempFile w) as [err|pdfFile]; [done|].
  destruct (w_Download w) as [err|]; [done|].
  destruct (w_Print w) as [err|cupsJobID]; [done|].
  rewrite !reports_before.
  change (noRepeat (reports (trace (pollLoop pm job cupsJobID [Remove pdfFile]
                                      "" "" (w_GetJobStatus w))))).
  exact (proj1 (pollLoop_noRepeat pm job cupsJobID [Remove pdfFile] "" ""
                  (w_GetJobStatus w) Hp eq_refl)).
Qed.
End Reports.

Lemma returned_pipeline_has_reported_witness :
  last (reports (trace (processJob pmHP worldS6 jobJ1))) = Some ("DONE", "").
Proof.
  destruct (returned_pipeline_has_reported (H := ippLib) pmHP worldS6 jobJ1)
    as (st & msg & Hlast & _ & _).
  - by intros [].
  - discriminate.
  - discriminate.
  - reflexivity.
  - rewrite Hlast. vm_compute in Hlast. symmetry. exact Hlast.
Defined.

Lemma reports_never_repeat_witness :
  noRepeat (reports (trace (processJob pmHP worldS6 jobJ1))).
Proof.
  apply (reports_never_repeat (H := ippLib) pmHP worldS6 jobJ1). discriminate.
Defined.

Lemma printCalls_app tr1 tr2 : printCalls (tr1 ++ tr2) = printCalls tr1 ++ printCalls tr2.
Proof. apply omap_app. Qed.

Lemma pollLoop_printCalls `{Lib} pm job cupsJobID deferred status message ticks :
  printCalls deferred = [] →
  printCalls (trace (pollLoop pm job cupsJobID deferred status message ticks)) = [].
Proof.
  intros Hd. revert status message.
  induction ticks as [|[err|[s m]] ticks IH]; intros status message;
    cbn [pollLoop].
  - done.
  - simpl. exact Hd.
  - cbn [trace before]. rewrite printCalls_app.
    assert (Hhead : ∀ report : bool,
      printCalls (GetJobStatus cupsJobID
                  :: (if report then [Control (GCPJobID job)
                        (if report then GCPStatus s else status)
                        (if report then m else message)] else [])) = [])
      by (by intros []).
    rewrite Hhead. simpl.
    destruct (negb (String.eqb (GCPStatus s) JobInProgress)); [|apply IH].
    destruct (String.eqb (GCPStatus s) JobDone); simpl; exact Hd.
Qed.

(** X11: a pipeline submits its job to CUPS at most once, and exactly when
    the printer is known and ticket, temp file and download have succeeded;
    the submission names the registry's local name of the job's printer, the
    path of the temp file, the title [gcp:] followed by the job id, the
    projected owner and the options of the ticket. *)
Theorem processJob_prints_once `{Lib} (pm : PrinterManager) (w : JobWorld) (job : Job) :
  printCalls (trace (processJob pm w job)) =
  match gcpPrintersByGCPID pm !! GCPPrinterID job,
        w_Ticket w, w_CreateTempFile w, w_Download w with
  | Some printer, inr options, inr pdfFile, None =>
      [Print (Name printer) pdfFile ("gcp:" +:+ GCPJobID job)
             (projectedOwner pm job) options]
  | _, _, _, _ => []
  end.
Proof.
  unfold processJob, projectedOwner, truncateUsername.
  destruct (gcpPrintersByGCPID pm !! GCPPrinterID job) as [printer|]; [|done].
  destruct (w_Ticket w) as [err|options]; [done|].
  destruct (w_CreateTempFile w) as [err|pdfFile]; [done|].
  destruct (w_Download w) as [err|]; [done|].
  rewrite strings_Split_at. cbn [trace before].
  change (?a :: ?b :: ?c :: ?d :: ?e :: ?f :: ?g :: ?tr)
    with ([a; b; c; d; e; f] ++ [g] ++ tr).
  rewrite !printCalls_app. simpl.
  destruct (w_Print w) as [err|cupsJobID]; [done|].
  by rewrite pollLoop_printCalls.
Qed.

(** X18: once the download has succeeded, every return of [processJob]
    (submission refused, status query failed, terminal status reached)
    removes the temp file, and the removal is the last call the pipeline
    makes. *)
Theorem processJob_removes_temp_file `{Lib} (pm : PrinterManager) (w : JobWorld)
    (job : Job) (printer : Printer) (options : list (string * string))
    (pdfFile : string) :
  gcpPrintersByGCPID pm !! GCPPrinterID job = Some printer →
  w_Ticket w = inr options → w_CreateTempFile w = inr pdfFile →
  w_Download w = None →
  returned (processJob pm w job) = true →
  last (trace (processJob pm w job)) = Some (Remove pdfFile).
Proof. apply processJob_removes_after_download. Qed.

Lemma processJob_removes_temp_file_witness :
  last (trace (processJob pmHP worldS6 jobJ1)) = Some (Remove "/tmp/cups-1").
Proof.
  apply (processJob_removes_temp_file pmHP worldS6 jobJ1 printerHP
           [("copies", "1")] "/tmp/cups-1"); reflexivity.
Defined.

(** X13: when every printer of the registry has its semaphore,
    [GetJobStats] returns as [processing] the sum of the holders counts of
    these semaphores, reduced modulo [2^64] as the additions of the loop are
    [uint] additions; the sum itself when it fits a [uint]. *)
Theorem GetJobStats_sums_holders (pm : PrinterManager) :
  map_Forall (λ _ p, is_Some (CUPSJobSemaphore p)) (gcpPrintersByGCPID pm) →
  let total := sumCounts (printerMapToSlice (gcpPrintersByGCPID pm)) in
  (∃ processed, GetJobStats pm = Some (processed, uint_wrap total)) ∧
  ((0 ≤ total ≤ uint_max)%Z → ∃ processed, GetJobStats pm = Some (processed, total)).
Proof.
  intros Hall total. rewrite GetJobStats_processing by done. fold total.
  split; [by eexists|]. intros Hfit. rewrite uint_wrap_small by done. by eexists.
Qed.

Lemma GetJobStats_sums_holders_witness :
  ∃ processed, GetJobStats pmBusy = Some (processed, 3%Z).
Proof.
  destruct (GetJobStats_sums_holders pmBusy) as [_ Hfit].
  - intros k p Hk. cbn [pmBusy gcpPrintersByGCPID] in Hk.
    apply lookup_insert_Some in Hk as [[_ <-]|[_ Hk]]; [by eexists|].
    apply lookup_singleton_Some in Hk as [_ <-]. by eexists.
  - apply Hfit. vm_compute. split; discriminate.
Defined.

(** ** The job pipeline: the order of its calls *)

Lemma inStageOrder_weaken lo lo' tr :
  lo' ≤ lo → inStageOrder lo tr → inStageOrder lo' tr.
Proof. destruct tr as [|e tr]; [done|]. simpl. intros Hle [Hlo Htr]. split; [lia|done]. Qed.

Lemma inStageOrder_app lo hi tr1 tr2 :
  inStageOrder lo tr1 → Forall (λ e, stage e ≤ hi) tr1 → lo ≤ hi →
  inStageOrder hi tr2 → inStageOrder lo (tr1 ++ tr2).
Proof.
  revert lo. induction tr1 as [|e tr1 IH]; intros lo Ho Hb Hle Htr2; simpl.
  - by eapply inStageOrder_weaken.
  - destruct Ho as [Hlo Ho]. apply Forall_cons in Hb as [He Hb].
    split; [done|]. by apply IH.
Qed.

Lemma inStageOrder_before lo hi evs r :
  inStageOrder lo evs → Forall (λ e, stage e ≤ hi) evs → lo ≤ hi →
  inStageOrder hi (trace r) → inStageOrder lo (trace (before evs r)).
Proof. apply inStageOrder_app. Qed.

Lemma inStageOrder_increment_return pm b deferred :
  inStageOrder 11 deferred →
  inStageOrder 8 (trace (increment_return pm b deferred)).
Proof. intros Hd. simpl. repeat split; try lia. done. Qed.

Lemma inStageOrder_fail `{Lib} pm job msg deferred :
  inStageOrder 11 deferred → inStageOrder 8 (trace (fail pm job msg deferred)).
Proof. intros Hd. simpl. repeat split; try lia. done. Qed.

Lemma inStageOrder_pollLoop `{Lib} pm job cupsJobID deferred status message ticks :
  inStageOrder 11 deferred →
  inStageOrder 8 (trace (pollLoop pm job cupsJobID deferred status message ticks)).
Proof.
  intros Hd. revert status message.
  induction ticks as [|[err|[s m]] ticks IH]; intros status message;
    cbn [pollLoop].
  - done.
  - apply (inStageOrder_before 8 8); [by simpl|by repeat constructor|done|].
    by apply inStageOrder_fail.
  - apply (inStageOrder_before 8 8).
    + destruct (_ || _); simpl; repeat split; lia.
    + destruct (_ || _); by repeat constructor.
    + done.
    + destruct (negb (String.eqb (GCPStatus s) JobInProgress)); [|apply IH].
      destruct (String.eqb (GCPStatus s) JobDone);
        by apply inStageOrder_increment_return.
Qed.

Lemma processJob_inStageOrder `{Lib} (pm : PrinterManager) (w : JobWorld) (job : Job) :
  inStageOrder 0 (trace (processJob pm w job)).
Proof.
  unfold processJob.
  destruct (gcpPrintersByGCPID pm !! GCPPrinterID job) as [printer|].
  2: { apply (inStageOrder_weaken 8); [lia|]. by apply inStageOrder_fail. }
  apply (inStageOrder_before 0 1); [simpl; lia|by repeat constructor|lia|].
  destruct (w_Ticket w) as [err|options].
  { apply (inStageOrder_weaken 8); [lia|]. by apply inStageOrder_fail. }
  apply (inStageOrder_before 1 2); [simpl; lia|by repeat constructor|lia|].
  destruct (w_CreateTempFile w) as [err|pdfFile].
  { apply (inStageOrder_weaken 8); [lia|]. by apply inStageOrder_fail. }
  apply (inStageOrder_before 2 5);
    [simpl; lia|repeat constructor; simpl; lia|lia|].
  destruct (w_Download w) as [err|].
  { apply (inStageOrder_weaken 8); [lia|]. by apply inStageOrder_fail. }
  apply (inStageOrder_before 5 6); [simpl; lia|by repeat constructor|lia|].
  apply (inStageOrder_before 6 7); [simpl; lia|by repeat constructor|lia|].
  destruct (w_Print w) as [err|cupsJobID].
  - apply (inStageOrder_weaken 8); [lia|]. apply inStageOrder_fail. simpl. lia.
  - apply (inStageOrder_weaken 8); [lia|]. apply inStageOrder_pollLoop. simpl. lia.
Qed.

Lemma closingCalls_increment_return pm b deferred :
  deferred = [] ∨ (∃ file, deferred = [Remove file]) →
  closingCalls (trace (increment_return pm b deferred)).
Proof.
  intros [->|[file ->]]; exists b; [by left|right; by exists file].
Qed.

Lemma wellPlaced_increment_return `{Lib} pm b deferred prev :
  deferred = [] ∨ (∃ file, deferred = [Remove file]) →
  wellPlaced prev (trace (increment_return pm b deferred)).
Proof.
  intros [->|[file ->]]; simpl.
  - repeat split; by left.
  - repeat split. right. by exists file.
Qed.

Lemma wellPlaced_fail `{Lib} pm job msg deferred prev :
  deferred = [] ∨ (∃ file, deferred = [Remove file]) →
  wellPlaced prev (trace (fail pm job msg deferred)).
Proof.
  intros Hd. unfold fail. cbn [trace before app]. split.
  - intros _. by apply closingCalls_increment_return.
  - by apply wellPlaced_increment_return.
Qed.

Lemma wellPlaced_pollLoop `{Lib} pm job cupsJobID deferred status message ticks prev :
  deferred = [] ∨ (∃ file, deferred = [Remove file]) →
  wellPlaced prev (trace (pollLoop pm job cupsJobID deferred status message ticks)).
Proof.
  intros Hd. revert prev status message.
  induction ticks as [|[err|[s m]] ticks IH]; intros prev status message;
    cbn [pollLoop].
  - done.
  - cbn [trace before app]. split; [done|]. by apply wellPlaced_fail.
  - cbn [trace before app].
    destruct (String.eqb_spec (GCPStatus s) JobInProgress) as [Hs|Hs]; cbn [negb].
    + split; [done|].
      destruct (_ || _); cbn [app]; [|apply IH].
      split; [|apply IH]. intros Hne. by destruct Hne.
    + split; [done|].
      assert (Hclose : ∀ b, closingCalls (trace (increment_return pm b deferred)) ∧
                ∀ prev', wellPlaced prev' (trace (increment_return pm b deferred))).
      { intros b. split; [by apply closingCalls_increment_return|].
        intros prev'. by apply wellPlaced_increment_return. }
      destruct (String.eqb (GCPStatus s) JobDone);
        (destruct (_ || _); cbn [app];
         [split; [intros _; apply Hclose|apply Hclose] | apply Hclose]).
Qed.

Lemma processJob_wellPlaced `{Lib} (pm : PrinterManager) (w : JobWorld) (job : Job) :
  wellPlaced None (trace (processJob pm w job)).
Proof.
  unfold processJob.
  destruct (gcpPrintersByGCPID pm !! GCPPrinterID job) as [printer|];
    [|apply wellPlaced_fail; by left].
  cbn [trace before app]. split; [done|].
  destruct (w_Ticket w) as [err|options]; [apply wellPlaced_fail; by left|].
  cbn [trace before app]. split; [done|].
  destruct (w_CreateTempFile w) as [err|pdfFile]; [apply wellPlaced_fail; by left|].
  cbn [trace before app]. split; [done|]. split; [done|]. split; [done|].
  destruct (w_Download w) as [err|]; [apply wellPlaced_fail; by left|].
  cbn [trace before app]. split; [done|]. split; [done|].
  destruct (w_Print w) as [err|cupsJobID];
    [apply wellPlaced_fail|apply wellPlaced_pollLoop]; right; by eexists.
Qed.

Lemma wellPlaced_at `{Lib} prev pre e post :
  wellPlaced prev (pre ++ e :: post) →
  placed (match last pre with Some e' => Some e' | None => prev end) e post.
Proof.
  revert prev. induction pre as [|a pre IH]; intros prev; simpl.
  - by intros [He _].
  - intros [_ Hrest]. specialize (IH _ Hrest).
    destruct pre as [|a' pre]; [exact IH|].
    change (last (a :: a' :: pre)) with (last (a' :: pre)).
    destruct (last (a' :: pre)) eqn:Hlast; [exact IH|].
    by apply last_None in Hlast.
Qed.

(** X12: the calls of a pipeline follow the stages of [processJob] and never
    go back: ticket, temp file, acquisition of the download semaphore,
    download, its release, close, [Print], status queries and reports, the
    stats mutex, the counter, its release, the removal of the temp file.
    Moreover, wherever a call [e] stands in the trace: a download directly
    follows the acquisition of the download semaphore and is directly
    followed by its release; a counter update directly follows the
    acquisition of the stats mutex and is followed by its release and at
    most the removal of the temp file; a report of a status other than in
    progress (every error report, [JobError] being such a status) is
    followed by the counter update inside the stats mutex, at most the
    removal of the temp file, and nothing else, so no status query and no
    report comes after it; and the removal of the temp file is the last
    call. *)
Theorem processJob_stages_in_order `{Lib} (pm : PrinterManager) (w : JobWorld)
    (job : Job) :
  inStageOrder 0 (trace (processJob pm w job)) ∧
  ∀ pre e post, trace (processJob pm w job) = pre ++ e :: post →
                placed (last pre) e post.
Proof.
  split; [apply processJob_inStageOrder|].
  intros pre e post Htr.
  pose proof (processJob_wellPlaced pm w job) as Hw. rewrite Htr in Hw.
  apply wellPlaced_at in Hw. by destruct (last pre).
Qed.

Lemma processJob_stages_in_order_witness :
  trace (processJob pmHP worldDownloadFails jobJ1) =
    [Ticket "t1"; CreateTempFile; Acquire DownloadSemaphore;
     Download "/tmp/cups-1" "f1"; Release DownloadSemaphore]
    ++ Control "j1" "ERROR" "Failed to download PDF for job j1: connection reset"
    :: [Acquire JobStatsSemaphore; IncrementJobsProcessed false;
        Release JobStatsSemaphore] ∧
  closingCalls [Acquire JobStatsSemaphore; IncrementJobsProcessed false;
                Release JobStatsSemaphore].
Proof.
  assert (Htr : trace (processJob pmHP worldDownloadFails jobJ1) =
    [Ticket "t1"; CreateTempFile; Acquire DownloadSemaphore;
     Download "/tmp/cups-1" "f1"; Release DownloadSemaphore]
    ++ Control "j1" "ERROR" "Failed to download PDF for job j1: connection reset"
    :: [Acquire JobStatsSemaphore; IncrementJobsProcessed false;
        Release JobStatsSemaphore]) by (vm_compute; reflexivity).
  split; [exact Htr|].
  apply (proj2 (processJob_stages_in_order pmHP worldDownloadFails jobJ1) _ _ _ Htr).
  discriminate.
Defined.

(** ** [strings.Split] *)

Lemma string_app_assoc (a b c : string) : (a +:+ b) +:+ c = a +:+ b +:+ c.
Proof.
  induction a as [|x a IH]; [done|].
  change (String x ((a +:+ b) +:+ c) = String x (a +:+ b +:+ c)). by rewrite IH.
Qed.

Lemma rev_app_app (a b : string) :
  String.rev_app a b = String.rev_app a "" +:+ b.
Proof.
  revert b. induction a as [|c a IH]; intros b; [done|].
  simpl. rewrite (IH (String c b)), (IH (String c "")).
  by rewrite string_app_assoc.
Qed.

Lemma hasAt_app (a b : string) : hasAt (a +:+ b) = hasAt a || hasAt b.
Proof.
  induction a as [|c a IH]; [done|].
  change (hasAt (String c (a +:+ b)) = hasAt (String c a) || hasAt b).
  simpl. by rewrite IH, orb_assoc.
Qed.

Lemma hasAt_rev_app (a b : string) :
  hasAt (String.rev_app a b) = hasAt a || hasAt b.
Proof.
  revert b. induction a as [|c a IH]; intros b; [done|].
  simpl. rewrite IH. simpl.
  destruct (Ascii.eqb c "@"), (hasAt a), (hasAt b); done.
Qed.

Lemma split_from_nonempty sep skip cur s : split_from sep skip cur s ≠ [].
Proof.
  revert skip cur. induction s as [|c s IH]; intros skip cur; [done|].
  cbn [split_from]. destruct skip; [|apply IH].
  destruct (String.prefix sep (String c s)); [done|apply IH].
Qed.

Lemma concat_cons (sep x : string) (l : list string) :
  l ≠ [] → String.concat sep (x :: l) = x +:+ sep +:+ String.concat sep l.
Proof. by destruct l. Qed.

Lemma split_from_at_join (s cur : string) :
  String.concat "@" (split_from "@" 0 cur s) = String.rev_app cur s ∧
  (hasAt cur = false →
   Forall (λ piece, hasAt piece = false) (split_from "@" 0 cur s)).
Proof.
  revert cur. induction s as [|c s IH]; intros cur.
  - split; [done|]. intros Hcur. repeat constructor.
    unfold String.rev. by rewrite hasAt_rev_app, Hcur.
  - cbn [split_from]. rewrite prefix_at.
    destruct (Ascii.eqb_spec c "@"%char) as [->|Hne].
    + destruct (IH "") as [IHjoin IHfree]. split.
      * rewrite concat_cons by apply split_from_nonempty.
        change (String.length "@" - 1) with 0. rewrite IHjoin.
        unfold String.rev. by rewrite (rev_app_app cur (String "@" s)).
      * intros Hcur. constructor; [|by apply IHfree].
        unfold String.rev. by rewrite hasAt_rev_app, Hcur.
    + destruct (IH (String c cur)) as [IHjoin IHfree]. split; [done|].
      intros Hcur. apply IHfree. simpl. apply Ascii.eqb_neq in Hne.
      by rewrite Hne, Hcur.
Qed.

(** X14: [strings.Split(s, "@")] cuts [s] at its [@]s and loses nothing:
    the list is never empty, no piece contains an [@], and the pieces joined
    with [@] give [s] back. *)
Theorem strings_Split_join (s : string) :
  strings_Split s "@" ≠ [] ∧
  Forall (λ piece, hasAt piece = false) (strings_Split s "@") ∧
  String.concat "@" (strings_Split s "@") = s.
Proof.
  unfold strings_Split. destruct (split_from_at_join s "") as [Hjoin Hfree].
  split; [apply split_from_nonempty|]. split; [by apply Hfree|done].
Qed.

(** ** The goroutines of the manager: further properties *)

(** *** [Quit] can always return *)

Lemma handshake_echo {go : Go} s :
  threads s !! 0 = Some (TReconciler RecAck) →
  threads s !! 3 = Some (TQuit QuitRecv) →
  ∃ s', step s s' ∧ threads s' !! 0 = Some (TReconciler RecReturned) ∧
        threads s' !! 3 = Some (TQuit QuitReturned).
Proof.
  intros Hr Hq. eexists. split.
  - apply (step_sync s 0 3 printerPollQuit VTrue (TReconciler RecAck)
             (TReconciler RecReturned) (TQuit QuitRecv)
             (λ _, (TQuit QuitReturned, []))); [done|done| |done|]; simpl; by left.
  - cbn [threads fst snd].
    rewrite !lookup_sync by (by eapply lookup_lt_Some). done.
Qed.

Lemma handshake_stop {go : Go} s :
  threads s !! 0 = Some (TReconciler RecSelect) →
  threads s !! 3 = Some (TQuit QuitSend) →
  ∃ s', step s s' ∧ threads s' !! 0 = Some (TReconciler RecAck) ∧
        threads s' !! 3 = Some (TQuit QuitRecv).
Proof.
  intros Hr Hq. eexists. split.
  - apply (step_sync s 3 0 printerPollQuit VTrue (TQuit QuitSend)
             (TQuit QuitRecv) (TReconciler RecSelect)
             (λ _, (TReconciler RecAck, []))); [done|done| |done|]; simpl; by left.
  - cbn [threads fst snd].
    rewrite !lookup_sync by (by eapply lookup_lt_Some). done.
Qed.

Lemma pass_ends {go : Go} s q :
  threads s !! 0 = Some (TReconciler RecSync) →
  threads s !! 3 = Some (TQuit q) →
  ∃ s', step s s' ∧ threads s' !! 0 = Some (TReconciler RecSelect) ∧
        threads s' !! 3 = Some (TQuit q).
Proof.
  intros Hr Hq. eexists. split.
  - apply (step_local s 0 (TReconciler RecSync) (shared s) (TReconciler RecSelect));
      [done|]. simpl. by left.
  - cbn [threads]. rewrite list_lookup_insert_eq by (by eapply lookup_lt_Some).
    by rewrite list_lookup_insert_ne.
Qed.

(** X15: the stop handshake cannot get stuck.  From every state a started
    manager reaches, with one caller of [Quit], a state in which [Quit] has
    returned is at most three steps away: the end of a pass under way, the
    stop signal, the echo. *)
Theorem Quit_can_always_return {go : Go} (jobBatches : list (list Job)) (s : System) :
  rtc step (started 1 jobBatches) s →
  ∃ s' n, nsteps step n s s' ∧ n ≤ 3 ∧
          threads s' !! 3 = Some (TQuit QuitReturned).
Proof.
  intros Hreach.
  destruct (steps_quit_handshake _ _ Hreach (started_quit_handshake _))
    as (_ & q & r & Hq & Hr & Hh).
  destruct q; simpl in Hh.
  - assert (Hsel : ∃ s1 n, nsteps step n s s1 ∧ n ≤ 1 ∧
              threads s1 !! 0 = Some (TReconciler RecSelect) ∧
              threads s1 !! 3 = Some (TQuit QuitSend)).
    { destruct Hh as [-> | ->].
      - exists s, 0. repeat split; [constructor|lia|done|done].
      - destruct (pass_ends _ _ Hr Hq) as (s1 & Hs1 & Hr1 & Hq1).
        exists s1, 1. repeat split; [by apply nsteps_once|lia|done|done]. }
    destruct Hsel as (s1 & n & Hn & Hle & Hr1 & Hq1).
    destruct (handshake_stop _ Hr1 Hq1) as (s2 & Hs2 & Hr2 & Hq2).
    destruct (handshake_echo _ Hr2 Hq2) as (s3 & Hs3 & _ & Hq3).
    exists s3, (n + 2). repeat split; [|lia|done].
    eapply nsteps_trans; [exact Hn|].
    eapply nsteps_l; [exact Hs2|by apply nsteps_once].
  - subst r. destruct (handshake_echo _ Hr Hq) as (s1 & Hs1 & _ & Hq1).
    exists s1, 1. repeat split; [by apply nsteps_once|lia|done].
  - exists s, 0. repeat split; [constructor|lia|done].
Qed.

Lemma Quit_can_always_return_witness :
  ∃ s' n, nsteps (step (go := PerIteration)) n
            {| shared := {| heap := []; passes := 1; batches := [] |};
               threads := [TReconciler RecSync; TProducer ProdCall;
                           TConsumer ConsSelect; TQuit QuitSend] |} s' ∧
          n ≤ 3 ∧ threads s' !! 3 = Some (TQuit QuitReturned).
Proof.
  apply (Quit_can_always_return []).
  apply (performAll_steps [ALocal 0]). reflexivity.
Defined.

(** *** One pipeline per job, in order *)

(** X16: the intake loop starts exactly one pipeline for every job of every
    batch, in the order in which GCP supplies the jobs: in every state a
    started manager reaches, the jobs for which a pipeline has been started,
    followed by the rest of the current batch and by the batches to come,
    are the jobs of all batches in order. *)
Theorem one_pipeline_per_job {go : Go} (callers : nat) (jobBatches : list (list Job))
    (s : System) :
  rtc step (started callers jobBatches) s →
  spawnedJobs (threads s) ++ unsentJobs s = concat jobBatches.
Proof.
  intros Hreach.
  assert (Hboth : started_kinds callers (kind <$> threads s) ∧
                  jobs_accounted (concat jobBatches) s).
  { apply (rtc_ind_r (R := step)
             (λ s, started_kinds callers (kind <$> threads s) ∧
                           jobs_accounted (concat jobBatches) s)
             (started callers jobBatches)); [| |exact Hreach].
    - split.
      + exists 0. simpl. by rewrite fmap_replicate, app_nil_r.
      + assert (Hquit : ∀ n, omap pipelineJob (replicate n (TQuit QuitSend)) = [])
          by (intros n; induction n as [|n IH]; [done|exact IH]).
        unfold jobs_accounted, unsentJobs, spawnedJobs. simpl. by rewrite Hquit.
    - intros s1 s2 _ Hstep [Hk Hacc].
      split; [by eapply started_kinds_step|by eapply jobs_accounted_step]. }
  apply Hboth.
Qed.

Lemma one_pipeline_per_job_witness :
  ∃ s, rtc (step (go := PerIteration)) (started 0 [[jobJ1; jobJ2]]) s ∧
       unsentJobs s = [] ∧
       spawnedJobs (threads s) ++ unsentJobs s = concat [[jobJ1; jobJ2]].
Proof.
  destruct (performAll (go := PerIteration)
              [ALocal 1; ALocal 1; ASync 1 2; ALocal 1; ASync 1 2; ALocal 1]
              (started 0 [[jobJ1; jobJ2]])) as [s|] eqn:Hs;
    [|by vm_compute in Hs].
  pose proof (performAll_steps _ _ _ Hs) as Hreach.
  exists s. split; [exact Hreach|].
  split; [|exact (one_pipeline_per_job 0 [[jobJ1; jobJ2]] s Hreach)].
  vm_compute in Hs. injection Hs as <-. reflexivity.
Defined.

(** *** Batches of one job *)

(** The producer's state stays in order when the heap is what it was and
    every pipeline points where a pipeline pointed before. *)
Lemma producer_state_ok_frame s s' ppc :
  heap (shared s') = heap (shared s) →
  (∀ n pc, threads s' !! n = Some (TPipeline pc) →
           ∃ n' pc', threads s !! n' = Some (TPipeline pc') ∧ jobPtr pc' = jobPtr pc) →
  producer_state_ok s ppc → producer_state_ok s' ppc.
Proof.
  intros Hheap Hpipes. destruct ppc as [|addr rest|addr cur rest]; simpl.
  - done.
  - intros [Hlen Hfresh]. split; [done|]. intros Hrest.
    destruct (Hfresh Hrest) as [Haddr Hf]. rewrite Hheap. split; [done|].
    intros n pc Hn. destruct (Hpipes _ _ Hn) as (n' & pc' & Hn' & <-).
    by eapply Hf.
  - by rewrite Hheap.
Qed.

Lemma single_job_batches_step callers s s' :
  step (go := PerLoop) s s' → started_kinds callers (kind <$> threads s) →
  single_job_batches s → single_job_batches s'.
Proof.
  intros Hstep Hk (Hb & Hp & Hq).
  destruct (started_kinds_has_producer _ _ Hk) as [ppc Hprod].
  pose proof (lookup_lt_Some _ _ _ Hprod) as Hlen1.
  specialize (Hq _ Hprod).
  assert (Honly : ∀ i t, threads s !! i = Some t → kind t = KProducer → i = 1)
    by (intros i t; by eapply started_kinds_producer).
  unfold single_job_batches.
  destruct Hstep as [i t sh' t' Hi Hl|i j c v t1 t1' t2 k Hij Hi Hs Hj Hrecv];
    cbn [threads shared].
  - destruct (decide (i = 1)) as [->|Hi1].
    + simplify_eq. rewrite list_lookup_insert_eq by done.
      destruct ppc as [|addr [|job rest]|addr cur rest]; simpl in Hl.
      * destruct (batches (shared s)) as [|jobs later] eqn:Hbat; inv_elem.
        apply Forall_cons in Hb as [Hjobs Hlater].
        split; [done|]. split.
        -- intros n pc Hn. apply pipelines_insert_other in Hn; [|done].
           destruct (Hp _ _ Hn) as [Hheap Hpre]. split; [|done]. cbn.
           by apply lookup_app_l_Some.
        -- intros ppc' [= <-]. split; [done|]. intros _. cbn.
           split; [rewrite length_app; simpl; lia|].
           intros n pc Hn Heq. apply pipelines_insert_other in Hn; [|done].
           destruct (Hp _ _ Hn) as [Hheap _]. apply lookup_lt_Some in Hheap. lia.
      * inv_elem. split; [done|]. split.
        -- intros n pc Hn. apply pipelines_insert_other in Hn; [|done].
           exact (Hp _ _ Hn).
        -- by intros ppc' [= <-].
      * inv_elem. destruct Hq as [Hlen Hfresh].
        destruct rest as [|job' rest]; [|simpl in Hlen; lia].
        destruct Hfresh as [Haddr Hfresh]; [done|].
        split; [done|]. split.
        -- intros n pc Hn. apply pipelines_insert_other in Hn; [|done].
           destruct (Hp _ _ Hn) as [Hheap Hpre]. split; [|done]. cbn.
           rewrite list_lookup_insert_ne; [done|].
           intros Heq. by apply (Hfresh n pc).
        -- intros ppc' [= <-]. split; [done|]. cbn.
           by apply list_lookup_insert_eq.
      * inv_elem.
    + rewrite list_lookup_insert_ne, Hprod by done.
      destruct t as [q|r|pp|cpc|pc0].
      * simpl in Hl. inv_elem.
      * assert (Hframe : heap sh' = heap (shared s) ∧ batches sh' = batches (shared s) ∧
                         ∀ pc', t' ≠ TPipeline pc').
        { destruct r; simpl in Hl; inv_elem; done. }
        destruct Hframe as (Hheap & Hbat & Hnot).
        rewrite Hbat. split; [done|]. split.
        -- intros n pc Hn. apply pipelines_insert_other in Hn; [|done].
           destruct (Hp _ _ Hn) as [Hh Hpre]. split; [|done]. cbn.
           by rewrite Hheap.
        -- intros ppc' [= <-].
           eapply (producer_state_ok_frame s); [exact Hheap| |done].
           intros n pc Hn. apply pipelines_insert_other in Hn; [|done]. eauto.
      * by specialize (Honly _ _ Hi eq_refl).
      * simpl in Hl. inv_elem.
      * simpl in Hl.
        destruct (heap (shared s) !! jobPtr pc0 ≫= _) as [fld|] eqn:Hread; inv_elem.
        split; [done|]. split.
        -- intros n pc Hn.
           apply list_lookup_insert_Some in Hn as [(<- & Heq & _)|[Hne Hn]];
             [|exact (Hp _ _ Hn)].
           simplify_eq. destruct (Hp _ _ Hi) as [Hheap Hpre]. split; [done|].
           cbn. apply prefix_snoc; [done|]. by rewrite Hheap in Hread.
        -- intros ppc' [= <-].
           eapply (producer_state_ok_frame s); [done| |done].
           intros n pc Hn.
           apply list_lookup_insert_Some in Hn as [(<- & Heq & _)|[Hne Hn]];
             [|by eauto].
           simplify_eq. by exists i, pc0.
  - rewrite lookup_sync by done.
    destruct (decide (kind t1 = KProducer)) as [Hkp|Hkp].
    + assert (i = 1) as -> by (by eapply Honly). simplify_eq.
      destruct ppc as [|addr rest|addr cur rest]; simpl in Hs; inv_elem.
      assert (t2 = TConsumer ConsSelect ∧ k = spawnPipeline) as [-> ->]
        by (by inv_thread t2).
      destruct Hq as [-> Hcell].
      rewrite decide_False, decide_True by done.
      split; [done|]. split.
      * intros n pc Hn. apply pipelines_sync in Hn; [|done..].
        destruct Hn as [Hn|Hn]; [exact (Hp _ _ Hn)|].
        simpl in Hn. inv_elem. split; [done|]. apply prefix_nil.
      * intros ppc' [= <-]. split; [simpl; lia|done].
    + assert (Hi1 : i ≠ 1) by (intros ->; simplify_eq; done).
      assert (Hchan : c ≠ jobChan) by (intros ->; by inv_thread t1).
      assert (Hnot1 : ∀ pc', t1' ≠ TPipeline pc') by (by inv_thread t1).
      assert (Hk2 : (∀ pc', (k v).1 ≠ TPipeline pc') ∧ (k v).2 = [] ∧
                    kind t2 ≠ KProducer).
      { inv_thread t2; done. }
      destruct Hk2 as (Hnot2 & Hnew & Hkc).
      assert (Hj1 : j ≠ 1) by (intros ->; simplify_eq; done).
      rewrite !decide_False, Hprod, Hnew by done.
      split; [done|]. split.
      * intros n pc Hn. apply pipelines_sync in Hn; [|done..].
        destruct Hn as [Hn|Hn]; [exact (Hp _ _ Hn)|].
        by apply elem_of_nil in Hn.
      * intros ppc' [= <-].
        eapply (producer_state_ok_frame s); [done| |done].
        intros n pc Hn. apply pipelines_sync in Hn; [|done..].
        destruct Hn as [Hn|Hn]; [by eauto|].
        by apply elem_of_nil in Hn.
Qed.

(** X17: when GCP hands out its jobs one per batch, every pipeline reads its
    own job, whichever meaning the loop variable has: with one variable per
    range statement each execution of the statement has a variable of its
    own, which nothing overwrites once its address is sent, and with one
    variable per iteration nothing is overwritten at all.  In every state
    such a manager reaches, the cell a pipeline points to holds the job it
    was started for, and the fields it has read are fields of that job, in
    the order in which [processJob] reads them. *)
Theorem pipelines_read_own_job {go : Go} (callers : nat) (jobBatches : list (list Job))
    (s : System) (n : nat) (pc : PipelinePC) :
  Forall (λ jobs : list Job, length jobs ≤ 1) jobBatches →
  rtc step (started callers jobBatches) s →
  threads s !! n = Some (TPipeline pc) →
  heap (shared s) !! jobPtr pc = Some (spawnedFor pc) ∧
  fieldsRead pc `prefix_of` jobFields (spawnedFor pc).
Proof.
  intros Hone Hreach Hn. destruct go.
  - assert (Hboth : started_kinds callers (kind <$> threads s) ∧ single_job_batches s).
    { apply (rtc_ind_r (R := step (go := PerLoop))
               (λ s, started_kinds callers (kind <$> threads s) ∧ single_job_batches s)
               (started callers jobBatches)); [| |exact Hreach].
      - split.
        + exists 0. simpl. by rewrite fmap_replicate, app_nil_r.
        + split; [done|]. split.
          * intros m pc' Hm. simpl in Hm.
            destruct m as [|[|[|m]]]; simplify_eq/=.
            by apply lookup_replicate in Hm as [? _].
          * intros ppc Hp. simpl in Hp. by simplify_eq.
      - intros s1 s2 _ Hstep [Hk Hinv].
        split; [by eapply started_kinds_step|by eapply single_job_batches_step]. }
    destruct Hboth as [_ (_ & Hp & _)]. exact (Hp n pc Hn).
  - pose proof (reachable_descriptors_ok _ _ _ Hreach) as Hok. split.
    + by apply (descriptors_ok_lookup s n _ _ _ Hok Hn).
    + destruct Hok as (_ & _ & Hpre). by eapply Hpre.
Qed.

Lemma pipelines_read_own_job_witness :
  ∃ s, rtc (step (go := PerIteration)) (started 0 [[jobJ1]; [jobJ2]]) s ∧
       heap (shared s) = [jobJ1; jobJ2] ∧
       heap (shared s) !! 0 = Some jobJ1 ∧
       ["j1"; "r7"] `prefix_of` jobFields jobJ1.
Proof.
  destruct (performAll (go := PerIteration)
              [ALocal 1; ALocal 1; ASync 1 2; ALocal 1; ALocal 1; ALocal 1;
               ALocal 3; ALocal 3]
              (started 0 [[jobJ1]; [jobJ2]])) as [s|] eqn:Hs;
    [|by vm_compute in Hs].
  pose proof (performAll_steps _ _ _ Hs) as Hreach.
  exists s. split; [exact Hreach|].
  assert (Hone : Forall (λ jobs : list Job, length jobs ≤ 1) [[jobJ1]; [jobJ2]])
    by (repeat constructor).
  vm_compute in Hs. injection Hs as <-.
  split; [reflexivity|].
  exact (pipelines_read_own_job 0 [[jobJ1]; [jobJ2]] _ 3
           {| jobPtr := 0; spawnedFor := jobJ1; fieldsRead := ["j1"; "r7"] |}
           Hone Hreach eq_refl).
Defined.

(** ** The counters over many pipelines *)

Lemma exitOf_registry `{Lib} pm pm' w job :
  gcpPrintersByGCPID pm' = gcpPrintersByGCPID pm → exitOf pm' w job = exitOf pm w job.
Proof. intros Hreg. unfold exitOf. by rewrite Hreg. Qed.

Lemma runPipelines_snoc `{Lib} pm jobs wj :
  runPipelines pm (jobs ++ [wj]) =
  final (processJob (runPipelines pm jobs) wj.1 wj.2).
Proof. unfold runPipelines. by rewrite foldl_app. Qed.

Lemma runPipelines_registry `{Lib} pm jobs :
  gcpPrintersByGCPID (runPipelines pm jobs) = gcpPrintersByGCPID pm.
Proof.
  induction jobs as [|wj jobs IH] using rev_ind; [done|].
  by rewrite runPipelines_snoc, processJob_registry.
Qed.

(** One more pipeline that ends on a terminal Done, whatever the done
    counter. *)
Lemma processJob_done_again (d : Z) :
  final (processJob
           {| gcpPrintersByGCPID := {[ "r7" := printerHP ]};
              downloadSemaphore := NewSemaphore 2;
              jobStatsSemaphore := NewSemaphore 1;
              jobsDone := d; jobsError := 0;
              cupsQueueSize := 1;
              jobFullUsername := false |} worldS6 jobJ1) =
  {| gcpPrintersByGCPID := {[ "r7" := printerHP ]};
     downloadSemaphore := NewSemaphore 2;
     jobStatsSemaphore := NewSemaphore 1;
     jobsDone := uint_wrap (d + 1); jobsError := 0;
     cupsQueueSize := 1;
     jobFullUsername := false |}.
Proof.
  match goal with |- final (processJob ?pm _ _) = _ =>
    destruct (processJob_accounts pm worldS6 jobJ1) as (_ & Hfinal & _);
    assert (Hexit : exitOf pm worldS6 jobJ1 = TerminalDone)
      by (vm_compute; reflexivity)
  end.
  rewrite Hfinal, Hexit. reflexivity.
Qed.

(** The manager [pmFull] is a state the code reaches: it is [pmHP] after
    [2^64 - 1] pipelines that ended on a terminal Done. *)
Lemma runPipelines_done (n : nat) :
  runPipelines pmHP (replicate n (worldS6, jobJ1)) =
  {| gcpPrintersByGCPID := {[ "r7" := printerHP ]};
     downloadSemaphore := NewSemaphore 2;
     jobStatsSemaphore := NewSemaphore 1;
     jobsDone := uint_wrap (Z.of_nat n); jobsError := 0;
     cupsQueueSize := 1;
     jobFullUsername := false |}.
Proof.
  induction n as [|n IH]; [reflexivity|].
  rewrite replicate_S_end, runPipelines_snoc, IH. cbn [fst snd].
  rewrite processJob_done_again, uint_wrap_add_l. do 2 f_equal. lia.
Qed.

Lemma pmFull_reached :
  runPipelines pmHP (replicate (Z.to_nat uint_max) (worldS6, jobJ1)) = pmFull.
Proof.
  rewrite (runPipelines_done (Z.to_nat uint_max)).
  assert (Hmax : uint_wrap (Z.of_nat (Z.to_nat uint_max)) = uint_max).
  { rewrite Z2Nat.id by (by vm_compute). apply uint_wrap_small. by vm_compute. }
  rewrite Hmax. reflexivity.
Qed.

(** X19: the two counters count the pipelines.  On a manager whose counters
    leave room for them, after any number of pipelines [jobsDone] has grown
    by the number of pipelines that ended on a terminal Done and [jobsError]
    by the number that ended in any other way; a pipeline that is still
    polling has moved neither. *)
Theorem counters_count_pipelines `{Lib} (pm : PrinterManager)
    (jobs : list (JobWorld * Job)) :
  (0 ≤ jobsDone pm)%Z → (0 ≤ jobsError pm)%Z →
  (jobsDone pm + Z.of_nat (length jobs) ≤ uint_max)%Z →
  (jobsError pm + Z.of_nat (length jobs) ≤ uint_max)%Z →
  jobsDone (runPipelines pm jobs) = (jobsDone pm + Z.of_nat (doneCount pm jobs))%Z ∧
  jobsError (runPipelines pm jobs) = (jobsError pm + Z.of_nat (errorCount pm jobs))%Z.
Proof.
  intros Hd He. induction jobs as [|wj jobs IH] using rev_ind; intros Hdmax Hemax.
  - unfold runPipelines, doneCount, errorCount. simpl. lia.
  - rewrite length_app in Hdmax, Hemax. simpl in Hdmax, Hemax.
    destruct IH as [IHd IHe]; [lia..|].
    pose proof (length_filter (λ wj, exitOf pm wj.1 wj.2 = TerminalDone) jobs) as Hld.
    pose proof (length_filter (λ wj, exitOf pm wj.1 wj.2 ≠ TerminalDone ∧
                                     exitOf pm wj.1 wj.2 ≠ StillPolling) jobs) as Hle.
    fold (doneCount pm jobs) in Hld. fold (errorCount pm jobs) in Hle.
    rewrite runPipelines_snoc.
    destruct (processJob_accounts (runPipelines pm jobs) wj.1 wj.2) as (_ & -> & _).
    rewrite (exitOf_registry pm) by apply runPipelines_registry.
    unfold doneCount, errorCount in *. rewrite !filter_app, !length_app.
    rewrite !filter_cons, !filter_nil.
    destruct (exitOf pm wj.1 wj.2) eqn:Hexit; simpl;
      repeat case_decide; simpl; try naive_solver;
      rewrite ?uint_wrap_small by lia; lia.
Qed.

Lemma counters_count_pipelines_witness :
  jobsDone (runPipelines pmHP [(worldS6, jobJ1); (worldDownloadFails, jobJ2);
                               (worldPrinting, jobJ1)]) = 1%Z ∧
  jobsError (runPipelines pmHP [(worldS6, jobJ1); (worldDownloadFails, jobJ2);
                                (worldPrinting, jobJ1)]) = 1%Z.
Proof.
  destruct (counters_count_pipelines pmHP
              [(worldS6, jobJ1); (worldDownloadFails, jobJ2); (worldPrinting, jobJ1)]
              ltac:(by vm_compute) ltac:(by vm_compute)
              ltac:(by vm_compute) ltac:(by vm_compute))
    as [Hd He].
  split; [rewrite Hd|rewrite He]; vm_compute; reflexivity.
Defined.

(** ** What a pass publishes *)

Lemma collect_size m p : size (collect m p) ≤ S (size m).
Proof.
  unfold collect. destruct (String.eqb (Name p) ""); [lia|].
  destruct (m !! GCPID p) eqn:Hk.
  - rewrite map_size_insert_Some by done. lia.
  - rewrite map_size_insert_None by done. lia.
Qed.

Lemma foldl_collect_size_le rs m : size (foldl collect m rs) ≤ size m + length rs.
Proof.
  revert m. induction rs as [|r rs IH]; intros m; simpl; [lia|].
  specialize (IH (collect m r)). pose proof (collect_size m r). lia.
Qed.

(** X20: whatever the diffs, the answers of CUPS and GCP and the order of
    the results, a pass that publishes a registry publishes only printers
    with a local name, each of them emitted by the [applyDiff] of one of the
    diffs and stored under its own GCP id, and no more printers than there
    are diffs. *)
Theorem syncPrinters_publishes (pm : PrinterManager) (w : SyncWorld)
    (cupsPrinters : list Printer) (diffs : list PrinterDiff) :
  w_GetPrinters w = inr cupsPrinters →
  w_DiffPrinters w cupsPrinters (printerMapToSlice (gcpPrintersByGCPID pm)) = Some diffs →
  w_arrival w ≡ₚ seq 0 (length diffs) →
  let registry := gcpPrintersByGCPID (syncPrinters pm w) in
  (∀ k p, registry !! k = Some p →
     GCPID p = k ∧ Name p ≠ "" ∧
     ∃ i d, diffs !! i = Some d ∧ p = emission pm (w_applyDiff w i) d) ∧
  size registry ≤ length diffs.
Proof.
  intros Hcups Hdiffs Harr registry.
  assert (Hreg : registry = foldl collect ∅ (received pm w diffs)).
  { unfold registry, syncPrinters. by rewrite Hcups, Hdiffs. }
  pose proof (received_Permutation pm w diffs Harr) as Hperm.
  split.
  - intros k p Hk. rewrite Hreg in Hk.
    apply foldl_collect_lookup in Hk as [Hk|[Hin Hid]]; [done|].
    apply list_elem_of_filter in Hin as [Hname Hin]. rewrite Hperm in Hin.
    apply list_elem_of_lookup in Hin as [i Hi].
    apply emitted_lookup in Hi as (d & Hd & ->). repeat split; [done..|].
    by exists i, d.
  - rewrite Hreg. etrans; [apply foldl_collect_size_le|].
    rewrite map_size_empty, Hperm. unfold emitted. by rewrite length_imap.
Qed.

Lemma syncPrinters_publishes_witness :
  size (gcpPrintersByGCPID (syncPrinters pmHP worldPass)) ≤ 3.
Proof.
  refine (proj2 (syncPrinters_publishes pmHP worldPass [printerHP; printerCanon]
    [ {| diffOperation := LeavePrinter; diffPrinter := printerHP;
         CapsHashChanged := false |};
      {| diffOperation := RegisterPrinter; diffPrinter := printerCanon;
         CapsHashChanged := false |};
      {| diffOperation := DeletePrinter; diffPrinter := printerGone;
         CapsHashChanged := false |} ] eq_refl eq_refl _)).
  apply (Permutation_cons_append [0; 1] 2).
Defined.
